(** * A guarded-command-language analyser: lexer and recursive-descent parser

    Shallow embedding of [src/app.py]: the regular-expression scanner [lex],
    the [Parser] class (cursor [peek]/[consume] and the [parse_*] methods) and
    [parse_tokens], followed by the properties of the specification.

    Modelling notes.
    - A source text is a Python [str]; here its characters are the code points
      0..255 ([ascii]).  On this range the classes of Python's [re] module are
      [\d] = 0-9 and [\w] = the table [is_word] below (ASCII letters, digits,
      underscore and the alphanumeric code points of Latin-1).
    - A token is the dict the lexer builds; the sentinel of the parser has no
      ["index"] key, hence [tk_index : option nat].
    - The parser object is a token list and one mutable position: a parser
      method is a function from the position to an outcome (a value or a raised
      exception) and the position at that moment.
    - Recursion of the parser is by a fuel argument; [parse_tokens] supplies
      enough fuel for every token list (lemma [parse_program_total]).  The
      recursion limit of the interpreter and its limit on the number of digits
      accepted by [int] are not modelled. *)

From Stdlib Require Import String Ascii List ZArith Lia Bool Arith.
Import ListNotations.
Open Scope string_scope.

(* ================================================================= *)
(** ** Characters and character classes *)

Definition code_in (lo hi : nat) (c : ascii) : bool :=
  Nat.leb lo (nat_of_ascii c) && Nat.leb (nat_of_ascii c) hi.

Definition newline : ascii := "010"%char.
Definition tab : ascii := "009"%char.
Definition carriage_return : ascii := "013"%char.

(** [\d] *)
Definition is_digit (c : ascii) : bool := code_in 48 57 c.

(** [\w]: the characters for which [str.isalnum] holds, and the underscore. *)
Definition is_word (c : ascii) : bool :=
  code_in 48 57 c || code_in 65 90 c || code_in 95 95 c || code_in 97 122 c
  || code_in 170 170 c || code_in 178 179 c || code_in 181 181 c
  || code_in 185 186 c || code_in 188 190 c || code_in 192 214 c
  || code_in 216 246 c || code_in 248 255 c.

(** [[^\n]] and [.] (the pattern is compiled without DOTALL) *)
Definition not_newline (c : ascii) : bool := negb (Ascii.eqb c newline).

(** [[ \t\r]] *)
Definition is_blank (c : ascii) : bool :=
  Ascii.eqb c " "%char || Ascii.eqb c tab || Ascii.eqb c carriage_return.

(** [[+\-*/<>]] *)
Definition is_op_char (c : ascii) : bool :=
  Ascii.eqb c "+"%char || Ascii.eqb c "-"%char || Ascii.eqb c "*"%char
  || Ascii.eqb c "/"%char || Ascii.eqb c "<"%char || Ascii.eqb c ">"%char.

(** [[A-Za-z_]] *)
Definition is_ident_start (c : ascii) : bool :=
  code_in 65 90 c || code_in 97 122 c || code_in 95 95 c.

(** [[A-Za-z0-9_]] *)
Definition is_ident_char (c : ascii) : bool :=
  code_in 65 90 c || code_in 97 122 c || code_in 48 57 c || code_in 95 95 c.

(* ================================================================= *)
(** ** Regular expressions, matched with backtracking as [re] does *)

Inductive regex : Type :=
| Lit (c : ascii)                 (* one given character *)
| Class (p : ascii -> bool)       (* one character of a class *)
| Many (p : ascii -> bool)        (* [class]*, greedy *)
| Boundary                        (* \b *)
| Cat (r1 r2 : regex)
| Alt (r1 r2 : regex).

(** [class]+ *)
Definition Many1 (p : ascii -> bool) : regex := Cat (Class p) (Many p).

(** The characters of [s] one after the other. *)
Fixpoint Word (s : string) : regex :=
  match s with
  | EmptyString => Many (fun _ => false)    (* matches the empty text *)
  | String c EmptyString => Lit c
  | String c s' => Cat (Lit c) (Word s')
  end.

Section Matcher.

Variable code : list ascii.

Definition word_at (pos : nat) : bool :=
  match nth_error code pos with
  | Some c => is_word c
  | None => false
  end.

(** [\b] holds at [pos] when exactly one of the characters before and at
    [pos] is a word character; outside the text there is none. *)
Definition at_boundary (pos : nat) : bool :=
  xorb (match pos with 0 => false | S before => word_at before end)
       (word_at pos).

(** Greedy repetition: take one more character when possible, and give it
    back when the rest of the pattern fails after it. *)
Fixpoint many (p : ascii -> bool) (n pos : nat)
         (k : nat -> option nat) : option nat :=
  match n with
  | 0 => k pos
  | S n' =>
      match nth_error code pos with
      | Some c =>
          if p c then
            match many p n' (S pos) k with
            | Some e => Some e
            | None => k pos
            end
          else k pos
      | None => k pos
      end
  end.

(** [run r pos k]: match [r] at [pos], then the rest of the pattern [k];
    the result is the end of the whole match. *)
Fixpoint run (r : regex) (pos : nat) (k : nat -> option nat) : option nat :=
  match r with
  | Lit c =>
      match nth_error code pos with
      | Some c' => if Ascii.eqb c' c then k (S pos) else None
      | None => None
      end
  | Class p =>
      match nth_error code pos with
      | Some c' => if p c' then k (S pos) else None
      | None => None
      end
  | Many p => many p (List.length code - pos) pos k
  | Boundary => if at_boundary pos then k pos else None
  | Cat r1 r2 => run r1 pos (fun pos' => run r2 pos' k)
  | Alt r1 r2 =>
      match run r1 pos k with
      | Some e => Some e
      | None => run r2 pos k
      end
  end.

(** [pattern.match(code, pos)] for a single pattern: the end of the match. *)
Definition match_end (r : regex) (pos : nat) : option nat := run r pos Some.

End Matcher.

(* ================================================================= *)
(** ** Tokens *)

Inductive TokenKind : Type :=
| COMMENT | NEWLINE | WHITESPACE | ARROW | ASSIGN | OP | LPAREN | RPAREN
| SEMI | BAR | KEYWORD | NUMBER | IDENT | UNKNOWN | ERROR | EOF.

Definition kind_eqb (a b : TokenKind) : bool :=
  match a, b with
  | COMMENT, COMMENT | NEWLINE, NEWLINE | WHITESPACE, WHITESPACE
  | ARROW, ARROW | ASSIGN, ASSIGN | OP, OP | LPAREN, LPAREN | RPAREN, RPAREN
  | SEMI, SEMI | BAR, BAR | KEYWORD, KEYWORD | NUMBER, NUMBER | IDENT, IDENT
  | UNKNOWN, UNKNOWN | ERROR, ERROR | EOF, EOF => true
  | _, _ => false
  end.

(** The string a kind is in the source, for the messages. *)
Definition kind_name (k : TokenKind) : string :=
  match k with
  | COMMENT => "COMMENT" | NEWLINE => "NEWLINE" | WHITESPACE => "WHITESPACE"
  | ARROW => "ARROW" | ASSIGN => "ASSIGN" | OP => "OP" | LPAREN => "LPAREN"
  | RPAREN => "RPAREN" | SEMI => "SEMI" | BAR => "BAR" | KEYWORD => "KEYWORD"
  | NUMBER => "NUMBER" | IDENT => "IDENT" | UNKNOWN => "UNKNOWN"
  | ERROR => "ERROR" | EOF => "EOF"
  end.

(** The dict [{"type", "value", "line", "col", "index"}]. *)
Record Token : Type := mkToken {
  tk_type : TokenKind;
  tk_value : string;
  tk_line : Z;
  tk_col : Z;
  tk_index : option nat
}.

Definition keywords : list string := ["if"; "then"; "else"; "fi"; "do"; "od"].

Definition TOKEN_SPECS : list (TokenKind * regex) :=
  [ (COMMENT, Cat (Lit "/") (Cat (Lit "/") (Many not_newline)));
    (NEWLINE, Lit newline);
    (WHITESPACE, Many1 is_blank);
    (ARROW, Word "->");
    (ASSIGN, Word ":=");
    (OP, Alt (Word "==") (Alt (Word "<=") (Alt (Word ">=") (Alt (Word "!=")
           (Class is_op_char)))));
    (LPAREN, Lit "(");
    (RPAREN, Lit ")");
    (SEMI, Lit ";");
    (BAR, Lit "|");
    (KEYWORD, Cat Boundary
                (Cat (Alt (Word "if") (Alt (Word "then") (Alt (Word "else")
                       (Alt (Word "fi") (Alt (Word "do") (Word "od"))))))
                     Boundary));
    (NUMBER, Cat Boundary (Cat (Many1 is_digit) Boundary));
    (IDENT, Cat (Class is_ident_start) (Many is_ident_char));
    (UNKNOWN, Class not_newline) ].

(** The master pattern is the alternation of the named groups in the order of
    the table: the first alternative that matches at [pos] is the match, and
    its name is [m.lastgroup].  The result is that name and [m.end()]. *)
Fixpoint first_match (specs : list (TokenKind * regex)) (code : list ascii)
         (pos : nat) : option (TokenKind * nat) :=
  match specs with
  | [] => None
  | (kind, r) :: rest =>
      match match_end code r pos with
      | Some e => Some (kind, e)
      | None => first_match rest code pos
      end
  end.

Definition master_regex (code : list ascii) (pos : nat)
  : option (TokenKind * nat) :=
  first_match TOKEN_SPECS code pos.

(* ================================================================= *)
(** ** The lexer *)

(** [code[start:stop]] *)
Definition slice (code : list ascii) (start stop : nat) : list ascii :=
  firstn (stop - start) (skipn start code).

Definition text (code : list ascii) (start stop : nat) : string :=
  string_of_list_ascii (slice code start stop).

(** The local variables of [lex]. *)
Record LexState : Type := mkLex {
  ls_tokens : list Token;
  ls_line : Z;
  ls_col : Z;
  ls_pos : nat
}.

Definition lex_init : LexState := mkLex [] 1 1 0.

(** One turn of the [while] loop, entered with [pos < length]. *)
Definition lex_step (code : list ascii) (st : LexState) : LexState :=
  let '(mkLex tokens line col pos) := st in
  match master_regex code pos with
  | None =>
      (* the fallback of the source *)
      mkLex (tokens ++ [mkToken ERROR (text code pos (S pos)) line col (Some pos)])
            line (col + 1) (pos + 1)
  | Some (kind, e) =>
      let value := text code pos e in
      let start := pos in
      let len := Z.of_nat (String.length value) in
      match kind with
      | NEWLINE => mkLex tokens (line + 1) 1 e
      | WHITESPACE | COMMENT => mkLex tokens line (col + len) e
      | UNKNOWN =>
          mkLex (tokens ++ [mkToken ERROR value line col (Some start)])
                line (col + len) e
      | _ =>
          mkLex (tokens ++ [mkToken kind value line col (Some start)])
                line (col + len) e
      end
  end.

(** The loop; [None] when the fuel ends before the loop does. *)
Fixpoint lex_loop (fuel : nat) (code : list ascii) (st : LexState)
  : option LexState :=
  if Nat.ltb (ls_pos st) (List.length code) then
    match fuel with
    | 0 => None
    | S fuel' => lex_loop fuel' code (lex_step code st)
    end
  else Some st.

Definition lex_run (code : string) : option LexState :=
  let chars := list_ascii_of_string code in
  lex_loop (List.length chars) chars lex_init.

Definition lex (code : string) : option (list Token) :=
  option_map ls_tokens (lex_run code).

(* ================================================================= *)
(** ** The syntax tree *)

Inductive expr : Type :=
| Number (value : Z)
| Ident (name : string)
| BinaryOp (op : string) (left right : expr).

Inductive stmt : Type :=
| If (guards : list guard)
| Do (guards : list guard)
| Assign (target : string) (e : expr)
with guard : Type :=
| Guard (cond : expr) (body : list stmt).

Inductive program : Type :=
| Program (body : list stmt).

(* ================================================================= *)
(** ** [int] on a token text *)

Definition is_int_space (c : ascii) : bool :=
  code_in 9 13 c || code_in 32 32 c || code_in 133 133 c || code_in 160 160 c.

Fixpoint drop_spaces (s : list ascii) : list ascii :=
  match s with
  | c :: s' => if is_int_space c then drop_spaces s' else s
  | [] => []
  end.

Definition digit_value (c : ascii) : Z := Z.of_nat (nat_of_ascii c - 48).

(** Decimal digits, a single underscore allowed between two digits, blanks
    allowed after the last digit; [after_digit] tells that the character
    before was a digit. *)
Fixpoint int_digits (acc : Z) (after_digit : bool) (s : list ascii)
  : option Z :=
  match s with
  | [] => if after_digit then Some acc else None
  | c :: s' =>
      if is_digit c then int_digits (10 * acc + digit_value c) true s'
      else if Ascii.eqb c "_"%char then
        if after_digit then int_digits acc false s' else None
      else if is_int_space c then
        match after_digit, drop_spaces s' with
        | true, [] => Some acc
        | _, _ => None
        end
      else None
  end.

(** [int(text)]; [None] is [ValueError]. *)
Definition py_int (text : string) : option Z :=
  match drop_spaces (list_ascii_of_string text) with
  | "-"%char :: s => option_map Z.opp (int_digits 0 false s)
  | "+"%char :: s => int_digits 0 false s
  | s => int_digits 0 false s
  end.

(* ================================================================= *)
(** ** Exceptions and the parser's methods *)

Inductive exn : Type :=
| ParseError (msg : string) (token : option Token)
| ValueError.

Inductive outcome (A : Type) : Type :=
| Return (a : A)
| Raise (e : exn).
Arguments Return {A} a.
Arguments Raise {A} e.

(** A method of the parser object: from [self.pos] at the call to the outcome
    and [self.pos] at the return or at the raise; [None] when the fuel of a
    recursive method ends. *)
Definition M (A : Type) : Type := nat -> option (outcome A * nat).

Definition ret {A} (a : A) : M A := fun pos => Some (Return a, pos).
Definition raise {A} (e : exn) : M A := fun pos => Some (Raise e, pos).
Definition out_of_fuel {A} : M A := fun _ => None.
Definition bind {A B} (m : M A) (f : A -> M B) : M B :=
  fun pos =>
    match m pos with
    | Some (Return a, pos') => f a pos'
    | Some (Raise e, pos') => Some (Raise e, pos')
    | None => None
    end.

Notation "x <- m ;; f" := (bind m (fun x => f))
  (at level 61, m at next level, right associativity).
Notation "m ;;; f" := (bind m (fun _ => f))
  (at level 61, right associativity).

Definition EOF_token : Token := mkToken EOF "" (-1) (-1) None.

Definition in_values (v : string) (vs : list string) : bool :=
  existsb (String.eqb v) vs.

Definition is_kind (tok : Token) (k : TokenKind) : bool :=
  kind_eqb (tk_type tok) k.

Definition is_keyword (tok : Token) (v : string) : bool :=
  is_kind tok KEYWORD && String.eqb (tk_value tok) v.

Definition quoted (s : string) : string := "'" ++ s ++ "'".

Section Parser.

(** [self.tokens] *)
Variable tokens : list Token.

Definition token_at (pos : nat) : Token := nth pos tokens EOF_token.

Definition peek : M Token := fun pos => Some (Return (token_at pos), pos).

(** An expectation that is [None] or empty is not checked. *)
Definition consume (expected_type : option TokenKind)
           (expected_value : option string) : M Token :=
  tok <- peek ;;
  match expected_type with
  | Some ty =>
      if negb (kind_eqb (tk_type tok) ty) then
        raise (ParseError ("Expected token type " ++ kind_name ty
                           ++ " but found " ++ kind_name (tk_type tok)
                           ++ " (" ++ quoted (tk_value tok) ++ ")")
                          (Some tok))
      else ret tt
  | None => ret tt
  end ;;;
  match expected_value with
  | Some v =>
      if negb (String.eqb v "") && negb (String.eqb (tk_value tok) v) then
        raise (ParseError ("Expected token value " ++ v ++ " but found "
                           ++ tk_value tok)
                          (Some tok))
      else ret tt
  | None => ret tt
  end ;;;
  fun pos => Some (Return tok, pos + 1).

(** *** Expressions *)

(** The [while] loop of a binary tier. *)
Fixpoint binary_loop (fuel : nat) (ops : list string) (operand : M expr)
         (left : expr) : M expr :=
  match fuel with
  | 0 => out_of_fuel
  | S fuel' =>
      tok <- peek ;;
      if is_kind tok OP && in_values (tk_value tok) ops then
        op <- consume (Some OP) None ;;
        right <- operand ;;
        binary_loop fuel' ops operand (BinaryOp (tk_value op) left right)
      else ret left
  end.

(** The shape shared by the four binary tiers. *)
Definition binary_tier (fuel : nat) (ops : list string) (operand : M expr)
  : M expr :=
  left <- operand ;;
  binary_loop fuel ops operand left.

Definition parse_term_with (factor : M expr) (fuel : nat) : M expr :=
  binary_tier fuel ["*"; "/"] factor.

Definition parse_additive_with (factor : M expr) (fuel : nat) : M expr :=
  binary_tier fuel ["+"; "-"] (parse_term_with factor fuel).

Definition parse_relational_with (factor : M expr) (fuel : nat) : M expr :=
  binary_tier fuel ["<"; ">"; "<="; ">="] (parse_additive_with factor fuel).

Definition parse_equality_with (factor : M expr) (fuel : nat) : M expr :=
  binary_tier fuel ["=="; "!="] (parse_relational_with factor fuel).

Definition parse_expr_with (factor : M expr) (fuel : nat) : M expr :=
  parse_equality_with factor fuel.

Fixpoint parse_factor (fuel : nat) : M expr :=
  match fuel with
  | 0 => out_of_fuel
  | S fuel' =>
      tok <- peek ;;
      if is_kind tok NUMBER then
        consume (Some NUMBER) None ;;;
        match py_int (tk_value tok) with
        | Some n => ret (Number n)
        | None => raise ValueError
        end
      else if is_kind tok IDENT then
        consume (Some IDENT) None ;;;
        ret (Ident (tk_value tok))
      else if is_kind tok LPAREN then
        consume (Some LPAREN) None ;;;
        e <- parse_expr_with (parse_factor fuel') fuel' ;;
        next <- peek ;;
        if negb (is_kind next RPAREN) then
          raise (ParseError "Missing closing ')'" (Some next))
        else
          consume (Some RPAREN) None ;;;
          ret e
      else raise (ParseError "Unexpected token in factor" (Some tok))
  end.

Definition parse_term (fuel : nat) : M expr :=
  parse_term_with (parse_factor fuel) fuel.
Definition parse_additive (fuel : nat) : M expr :=
  parse_additive_with (parse_factor fuel) fuel.
Definition parse_relational (fuel : nat) : M expr :=
  parse_relational_with (parse_factor fuel) fuel.
Definition parse_equality (fuel : nat) : M expr :=
  parse_equality_with (parse_factor fuel) fuel.
Definition parse_expr (fuel : nat) : M expr :=
  parse_equality fuel.

(** *** Statements *)

Definition parse_assignment (fuel : nat) : M stmt :=
  ident <- consume (Some IDENT) None ;;
  next <- peek ;;
  (if is_kind next ASSIGN then consume (Some ASSIGN) None ;;; ret tt
   else raise (ParseError "Expected ':=' in assignment" (Some next))) ;;;
  e <- parse_expr fuel ;;
  ret (Assign (tk_value ident) e).

(** The test at the head of the loop of [parse_stmt_list]: the three
    [break]s. *)
Definition ends_stmt_list (tok : Token) : bool :=
  is_kind tok EOF
  || (is_kind tok KEYWORD && in_values (tk_value tok) ["fi"; "od"])
  || negb (is_kind tok KEYWORD || is_kind tok IDENT).

Fixpoint parse_stmt_list_loop (fuel : nat) (stmts : list stmt)
  : M (list stmt) :=
  match fuel with
  | 0 => out_of_fuel
  | S fuel' =>
      tok <- peek ;;
      if is_kind tok EOF then ret stmts
      else if is_kind tok KEYWORD && in_values (tk_value tok) ["fi"; "od"]
      then ret stmts
      else if negb (is_kind tok KEYWORD || is_kind tok IDENT) then ret stmts
      else
        s <- parse_stmt fuel' ;;
        next <- peek ;;
        (if is_kind next SEMI then consume (Some SEMI) None ;;; ret tt
         else ret tt) ;;;
        parse_stmt_list_loop fuel' (stmts ++ [s])
  end

with parse_stmt (fuel : nat) : M stmt :=
  match fuel with
  | 0 => out_of_fuel
  | S fuel' =>
      tok <- peek ;;
      if is_keyword tok "if" then parse_if fuel'
      else if is_keyword tok "do" then parse_do fuel'
      else if is_kind tok IDENT then parse_assignment fuel'
      else raise (ParseError ("Unexpected token in statement: "
                              ++ kind_name (tk_type tok) ++ " "
                              ++ quoted (tk_value tok))
                             (Some tok))
  end

with parse_if (fuel : nat) : M stmt :=
  match fuel with
  | 0 => out_of_fuel
  | S fuel' =>
      consume (Some KEYWORD) (Some "if") ;;;
      guards <- parse_guard_list fuel' ;;
      tok <- peek ;;
      if is_keyword tok "fi" then
        consume (Some KEYWORD) (Some "fi") ;;;
        ret (If guards)
      else raise (ParseError "Expected 'fi' to close 'if'" (Some tok))
  end

with parse_do (fuel : nat) : M stmt :=
  match fuel with
  | 0 => out_of_fuel
  | S fuel' =>
      consume (Some KEYWORD) (Some "do") ;;;
      guards <- parse_guard_list fuel' ;;
      tok <- peek ;;
      if is_keyword tok "od" then
        consume (Some KEYWORD) (Some "od") ;;;
        ret (Do guards)
      else raise (ParseError "Expected 'od' to close 'do'" (Some tok))
  end

with parse_guard_list (fuel : nat) : M (list guard) :=
  match fuel with
  | 0 => out_of_fuel
  | S fuel' =>
      g <- parse_guard fuel' ;;
      parse_guard_list_loop fuel' [g]
  end

with parse_guard_list_loop (fuel : nat) (guards : list guard)
  : M (list guard) :=
  match fuel with
  | 0 => out_of_fuel
  | S fuel' =>
      tok <- peek ;;
      if is_kind tok BAR then
        consume (Some BAR) None ;;;
        g <- parse_guard fuel' ;;
        parse_guard_list_loop fuel' (guards ++ [g])
      else ret guards
  end

with parse_guard (fuel : nat) : M guard :=
  match fuel with
  | 0 => out_of_fuel
  | S fuel' =>
      cond <- parse_expr fuel' ;;
      tok <- peek ;;
      (if is_kind tok ARROW then consume (Some ARROW) None ;;; ret tt
       else raise (ParseError "Expected '->' in guard" (Some tok))) ;;;
      body <- parse_stmt_list_loop fuel' [] ;;
      ret (Guard cond body)
  end.

Definition parse_stmt_list (fuel : nat) : M (list stmt) :=
  parse_stmt_list_loop fuel [].

Definition parse_program (fuel : nat) : M program :=
  body <- parse_stmt_list fuel ;;
  ret (Program body).

End Parser.

(** The list comprehension [[t for t in tokens if t["type"] == "ERROR"]]. *)
Definition lex_errors (tokens : list Token) : list Token :=
  filter (fun t => is_kind t ERROR) tokens.

(** [parse_tokens] with the fuel of the parser given; the position of the
    parser at the end is returned with the outcome. *)
Definition parse_tokens_run (fuel : nat) (tokens : list Token)
  : option (outcome program * nat) :=
  match lex_errors tokens with
  | first :: _ =>
      Some (Raise (ParseError "Lexical errors present" (Some first)), 0)
  | [] =>
      let toks := (tokens ++ [EOF_token])%list in
      parse_program toks fuel 0
  end.

(** Fuel that is enough for a token list of this length. *)
Definition fuel_for (tokens : list Token) : nat := 2 * List.length tokens + 8.

Definition parse_tokens (tokens : list Token) : option (outcome program) :=
  option_map fst (parse_tokens_run (fuel_for tokens) tokens).

(** [lex] then [parse_tokens], as the routes of the application do. *)
Definition parse_source (code : string) : option (outcome program) :=
  match lex code with
  | Some tokens => parse_tokens tokens
  | None => None
  end.

(* ================================================================= *)
(** ** Notions used by the properties *)

(** The turns of the loop of [lex]: where each match starts and ends. *)
Fixpoint lex_spans (fuel : nat) (code : list ascii) (st : LexState)
  : list (nat * nat) :=
  if Nat.ltb (ls_pos st) (List.length code) then
    match fuel with
    | 0 => []
    | S fuel' =>
        (ls_pos st, ls_pos (lex_step code st))
          :: lex_spans fuel' code (lex_step code st)
    end
  else [].

Definition spans_of (code : string) : list (nat * nat) :=
  let chars := list_ascii_of_string code in
  lex_spans (List.length chars) chars lex_init.


(** A pattern that cannot match the empty text. *)
Fixpoint nonempty (r : regex) : bool :=
  match r with
  | Lit _ | Class _ => true
  | Many _ | Boundary => false
  | Cat r1 r2 => nonempty r1 || nonempty r2
  | Alt r1 r2 => nonempty r1 && nonempty r2
  end.

(** What the loop of [lex] appends for a match of a kind: nothing for the
    three kinds it skips, ERROR for UNKNOWN, the kind itself otherwise. *)
Definition emitted_kind (kind : TokenKind) : option TokenKind :=
  match kind with
  | NEWLINE | WHITESPACE | COMMENT => None
  | UNKNOWN => Some ERROR
  | k => Some k
  end.

(** The token comes from a match of the master pattern at its index. *)
Definition token_from (code : list ascii) (t : Token) : Prop :=
  exists pos e kind,
    tk_index t = Some pos
    /\ pos < List.length code
    /\ master_regex code pos = Some (kind, e)
    /\ tk_value t = text code pos e
    /\ emitted_kind kind = Some (tk_type t).

(** No word character just before [start] nor at [stop]: the text between
    them stands alone as a word. *)
Definition standalone (code : list ascii) (start stop : nat) : bool :=
  negb (match start with 0 => false | S before => word_at code before end)
  && negb (word_at code stop).

(** The text has the characters of [s] from [pos] on. *)
Fixpoint starts_with (code : list ascii) (pos : nat) (s : string) : bool :=
  match s with
  | EmptyString => true
  | String c s' =>
      match nth_error code pos with
      | Some c' => Ascii.eqb c' c && starts_with code (S pos) s'
      | None => false
      end
  end.

Fixpoint take_while (p : ascii -> bool) (l : list ascii) : list ascii :=
  match l with
  | c :: l' => if p c then c :: take_while p l' else []
  | [] => []
  end.

(** The characters at which one of the patterns COMMENT .. BAR can start. *)
Definition is_symbol_start (c : ascii) : bool :=
  Ascii.eqb c "/"%char || Ascii.eqb c newline || is_blank c
  || Ascii.eqb c "-"%char || Ascii.eqb c ":"%char || Ascii.eqb c "="%char
  || Ascii.eqb c "<"%char || Ascii.eqb c ">"%char || Ascii.eqb c "!"%char
  || is_op_char c || Ascii.eqb c "("%char || Ascii.eqb c ")"%char
  || Ascii.eqb c ";"%char || Ascii.eqb c "|"%char.

(** The token of a turn of the loop that matched [kind] from [pos] to [e]. *)
Definition emitted (code : list ascii) (st : LexState) (kind : TokenKind)
           (e : nat) : list Token :=
  match emitted_kind kind with
  | Some k =>
      [mkToken k (text code (ls_pos st) e) (ls_line st) (ls_col st)
               (Some (ls_pos st))]
  | None => []
  end.

(** The character at [pos] is in the class [p]. *)
Definition class_at (code : list ascii) (p : ascii -> bool) (pos : nat)
  : Prop :=
  exists c, nth_error code pos = Some c /\ p c = true.

(** The ERROR tokens of [n] characters scanned one by one from the state
    [st], all on its line. *)
Definition error_run (code : list ascii) (st : LexState) (n : nat)
  : list Token :=
  map (fun i => mkToken ERROR
                        (text code (ls_pos st + i) (S (ls_pos st + i)))
                        (ls_line st) (ls_col st + Z.of_nat i)
                        (Some (ls_pos st + i)))
      (seq 0 n).

(** The tokens of the list from [pos] on. *)
Definition remaining (tokens : list Token) (pos : nat) : nat :=
  List.length tokens - pos.

(** Whenever the method returns a value from [pos], [Q] holds of the value
    and of the position after it. *)
Definition returns {A} (m : M A) (pos : nat) (Q : A -> nat -> Prop) : Prop :=
  forall a pos', m pos = Some (Return a, pos') -> Q a pos'.

(** The method ends from [pos], by a value for which [Q] holds or by an
    exception. *)
Definition completes {A} (m : M A) (pos : nat) (Q : A -> nat -> Prop)
  : Prop :=
  exists o pos', m pos = Some (o, pos')
                 /\ forall a, o = Return a -> Q a pos'.

(** The tokens that can start a statement: [if], [do] and identifiers. *)
Definition starts_stmt (tok : Token) : bool :=
  is_keyword tok "if" || is_keyword tok "do" || is_kind tok IDENT.

(** Every [If] and [Do] node has a guard, at every depth. *)
Fixpoint guarded_stmt (s : stmt) : bool :=
  match s with
  | If guards | Do guards =>
      negb (Nat.eqb (List.length guards) 0) && forallb guarded_guard guards
  | Assign _ _ => true
  end
with guarded_guard (g : guard) : bool :=
  match g with
  | Guard _ body => forallb guarded_stmt body
  end.

Definition guarded_program (p : program) : bool :=
  match p with
  | Program body => forallb guarded_stmt body
  end.

(** The tree a binary tier builds from its first operand and the operators
    and operands after it: nested to the left. *)
Definition left_nested (first : expr) (items : list (string * expr)) : expr :=
  fold_left (fun left item => BinaryOp (fst item) left (snd item))
            items first.

(** The operators of a tier and the operands after them, from [pos] to the
    first token that is not an operator of the tier, at [stop]. *)
Inductive tier_items (tokens : list Token) (ops : list string)
          (operand : M expr) : nat -> list (string * expr) -> nat -> Prop :=
| tier_items_end pos :
    is_kind (token_at tokens pos) OP
    && in_values (tk_value (token_at tokens pos)) ops = false ->
    tier_items tokens ops operand pos [] pos
| tier_items_more pos right pos1 items stop :
    is_kind (token_at tokens pos) OP
    && in_values (tk_value (token_at tokens pos)) ops = true ->
    operand (pos + 1) = Some (Return right, pos1) ->
    tier_items tokens ops operand pos1 items stop ->
    tier_items tokens ops operand pos
               ((tk_value (token_at tokens pos), right) :: items) stop.

(** [operand] ends from every position with at most [R] tokens left, and
    has consumed at least one token when it returns. *)
Definition operand_ok (tokens : list Token) (operand : M expr) (R : nat)
  : Prop :=
  forall p, remaining tokens p <= R ->
            completes operand p
                      (fun _ p' => remaining tokens p' < remaining tokens p).

(** What the statement methods establish when they return from [pos]. *)
Definition stmt_post (tokens : list Token) (pos : nat) (s : stmt) (p' : nat)
  : Prop :=
  remaining tokens p' < remaining tokens pos /\ guarded_stmt s = true.

Definition stmt_list_post (tokens : list Token) (pos : nat)
           (stmts r : list stmt) (p' : nat) : Prop :=
  remaining tokens p' <= remaining tokens pos
  /\ (ends_stmt_list (token_at tokens pos) = false ->
      remaining tokens p' < remaining tokens pos)
  /\ (forallb guarded_stmt stmts = true -> forallb guarded_stmt r = true).

Definition guard_post (tokens : list Token) (pos : nat) (g : guard)
           (p' : nat) : Prop :=
  remaining tokens p' < remaining tokens pos /\ guarded_guard g = true.

Definition guard_list_post (tokens : list Token) (pos : nat)
           (gs : list guard) (p' : nat) : Prop :=
  remaining tokens p' < remaining tokens pos
  /\ gs <> [] /\ forallb guarded_guard gs = true.

Definition guard_loop_post (tokens : list Token) (pos : nat)
           (guards r : list guard) (p' : nat) : Prop :=
  remaining tokens p' <= remaining tokens pos
  /\ (guards <> [] -> r <> [])
  /\ (forallb guarded_guard guards = true -> forallb guarded_guard r = true).

(** The texts a pattern can match, the word boundaries left aside. *)
Fixpoint lang (r : regex) (l : list ascii) : Prop :=
  match r with
  | Lit c => l = [c]
  | Class p => exists c, l = [c] /\ p c = true
  | Many p => Forall (fun c => p c = true) l
  | Boundary => l = []
  | Cat r1 r2 => exists l1 l2, l = (l1 ++ l2)%list /\ lang r1 l1 /\ lang r2 l2
  | Alt r1 r2 => lang r1 l \/ lang r2 l
  end.

(** The operator symbols of the expression grammar. *)
Definition operators : list string :=
  ["=="; "!="; "<"; ">"; "<="; ">="; "+"; "-"; "*"; "/"].

(** What the text of a token of each type looks like. *)
Definition well_formed_text (ty : TokenKind) (value : string) : Prop :=
  let v := list_ascii_of_string value in
  match ty with
  | ARROW => value = "->"
  | ASSIGN => value = ":="
  | OP => In value operators
  | LPAREN => value = "("
  | RPAREN => value = ")"
  | SEMI => value = ";"
  | BAR => value = "|"
  | KEYWORD => In value keywords
  | NUMBER => v <> [] /\ Forall (fun c => is_digit c = true) v
  | IDENT => exists c rest,
      v = c :: rest /\ is_ident_start c = true
      /\ Forall (fun d => is_ident_char d = true) rest
  | ERROR => exists c, v = [c] /\ c <> newline
  | COMMENT | NEWLINE | WHITESPACE | UNKNOWN | EOF => False
  end.


(** The line of the character at [pos]: one more than the newlines before
    it. *)
Definition line_at (code : list ascii) (pos : nat) : Z :=
  1 + Z.of_nat (count_occ ascii_dec (firstn pos code) newline).

(** The column of the character at [pos]: one more than the characters
    between it and the newline before it, or the start of the text. *)
Definition col_at (code : list ascii) (pos : nat) : Z :=
  1 + Z.of_nat (List.length (take_while not_newline (rev (firstn pos code)))).

(** All the characters. *)
Definition all_ascii : list ascii := map ascii_of_nat (seq 0 256).

(** A pattern that matches no newline. *)
Fixpoint newline_free (r : regex) : bool :=
  match r with
  | Lit c => not_newline c
  | Class p | Many p =>
      forallb (fun c => implb (p c) (not_newline c)) all_ascii
  | Boundary => true
  | Cat r1 r2 | Alt r1 r2 => newline_free r1 && newline_free r2
  end.

(** The tokens lie one after the other in the text, from [from] on and not
    beyond [upto], and none is empty. *)
Fixpoint ordered (from : nat) (toks : list Token) (upto : nat) : Prop :=
  match toks with
  | [] => from <= upto
  | t :: rest =>
      exists a, tk_index t = Some a /\ from <= a
                /\ 0 < String.length (tk_value t)
                /\ ordered (a + String.length (tk_value t)) rest upto
  end.

(** The starts of the turns of the loop that append a token. *)
Definition token_starts (code : list ascii) (spans : list (nat * nat))
  : list nat :=
  map fst
      (filter (fun span =>
                 match master_regex code (fst span) with
                 | Some (kind, _) =>
                     match emitted_kind kind with
                     | Some _ => true
                     | None => false
                     end
                 | None => true
                 end)
              spans).


(** A token is where its line, column and index say. *)
Definition placed (code : list ascii) (t : Token) : Prop :=
  exists a, tk_index t = Some a
            /\ tk_line t = line_at code a /\ tk_col t = col_at code a.

(** What the loop of [lex] keeps true of its variables. *)
Definition tracked (code : list ascii) (st : LexState) : Prop :=
  ls_pos st <= List.length code
  /\ ls_line st = line_at code (ls_pos st)
  /\ ls_col st = col_at code (ls_pos st)
  /\ Forall (placed code) (ls_tokens st)
  /\ ordered 0 (ls_tokens st) (ls_pos st).


(** The symbols of two characters and the types of their tokens. *)
Definition two_char_symbols : list (string * TokenKind) :=
  [("->", ARROW); (":=", ASSIGN); ("==", OP); ("<=", OP); (">=", OP);
   ("!=", OP)].


(** When the method ends from [pos], [Q] holds of the value it returns and
    [E] of the exception it raises, with the position at that moment. *)
Definition ensures {A} (m : M A) (pos : nat) (Q : A -> nat -> Prop)
           (E : exn -> nat -> Prop) : Prop :=
  forall o p', m pos = Some (o, p') ->
               match o with
               | Return a => Q a p'
               | Raise e => E e p'
               end.

(** The exception was raised at a position not after [B], and a
    [ParseError] carries the token at that position. *)
Definition error_at (tokens : list Token) (B : nat) (e : exn) (p : nat)
  : Prop :=
  p <= B
  /\ forall msg tok, e = ParseError msg tok -> tok = Some (token_at tokens p).

(** Every operator of the tree is one of the ten operators. *)
Fixpoint known_ops_expr (e : expr) : bool :=
  match e with
  | BinaryOp op e1 e2 =>
      in_values op operators && known_ops_expr e1 && known_ops_expr e2
  | Number _ | Ident _ => true
  end.

Fixpoint known_ops_stmt (s : stmt) : bool :=
  match s with
  | If guards | Do guards => forallb known_ops_guard guards
  | Assign _ e => known_ops_expr e
  end
with known_ops_guard (g : guard) : bool :=
  match g with
  | Guard cond body => known_ops_expr cond && forallb known_ops_stmt body
  end.

Definition known_ops_program (p : program) : bool :=
  match p with
  | Program body => forallb known_ops_stmt body
  end.

(** The position moved forward from [pos], not beyond [B], and [ok] holds of
    the value returned. *)
Definition moved {A} (B : nat) (ok : A -> bool) (pos : nat) (a : A)
           (p' : nat) : Prop :=
  pos <= p' <= B /\ ok a = true.

(** [operand] moves forward up to [B] at most, returns trees with known
    operators and raises errors at the token where it stopped. *)
Definition operand_sound (tokens : list Token) (B : nat) (operand : M expr)
  : Prop :=
  forall pos, pos <= B ->
              ensures operand pos (moved B known_ops_expr pos)
                      (error_at tokens B).


(** The operators of the four binary tiers, the loosest first: equality,
    relational, additive, multiplicative.  Tier 4 is the tier of the
    factors. *)
Definition tier_ops (k : nat) : list string :=
  match k with
  | 0 => ["=="; "!="]
  | 1 => ["<"; ">"; "<="; ">="]
  | 2 => ["+"; "-"]
  | 3 => ["*"; "/"]
  | _ => []
  end.

Definition tier_of (op : string) : option nat :=
  find (fun k => in_values op (tier_ops k)) [0; 1; 2; 3].

(** The expression grammar with its precedences, as a grammar is written:
    the tokens from a position up to another form an expression of tier [k]
    with this tree.
    [[
      expr_k ::= expr_k op_k expr_(k+1) | expr_(k+1)        (k = 0, 1, 2, 3)
      expr_4 ::= NUMBER | IDENT | ( expr_0 )
    ]] *)
Inductive derives (tokens : list Token) : nat -> nat -> nat -> expr -> Prop :=
| derives_number pos n :
    is_kind (token_at tokens pos) NUMBER = true ->
    py_int (tk_value (token_at tokens pos)) = Some n ->
    derives tokens 4 pos (pos + 1) (Number n)
| derives_ident pos :
    is_kind (token_at tokens pos) IDENT = true ->
    derives tokens 4 pos (pos + 1) (Ident (tk_value (token_at tokens pos)))
| derives_parens pos p1 e :
    is_kind (token_at tokens pos) LPAREN = true ->
    derives tokens 0 (pos + 1) p1 e ->
    is_kind (token_at tokens p1) RPAREN = true ->
    derives tokens 4 pos (p1 + 1) e
| derives_tighter k pos p' e :
    k < 4 ->
    derives tokens (S k) pos p' e ->
    derives tokens k pos p' e
| derives_binary k pos p1 p' e1 e2 :
    k < 4 ->
    derives tokens k pos p1 e1 ->
    is_kind (token_at tokens p1) OP
    && in_values (tk_value (token_at tokens p1)) (tier_ops k) = true ->
    derives tokens (S k) (p1 + 1) p' e2 ->
    derives tokens k pos p'
            (BinaryOp (tk_value (token_at tokens p1)) e1 e2).

(** A tree in which operators bind by their tiers, seen as an operand of
    tier [k]: its operator is of tier [k] or tighter, the operator of its
    left operand is not looser than its own, and the operator of its right
    operand is tighter. *)
Fixpoint binds (k : nat) (e : expr) : bool :=
  match e with
  | Number _ | Ident _ => true
  | BinaryOp op e1 e2 =>
      match tier_of op with
      | Some j => Nat.leb k j && binds j e1 && binds (S j) e2
      | None => false
      end
  end.

(** A token that one of the four binary tiers takes as its operator. *)
Definition continues_expr (tok : Token) : bool :=
  is_kind tok OP && in_values (tk_value tok) operators.

(** The last token of an expression: a number, an identifier or a closing
    parenthesis. *)
Definition ends_operand (tok : Token) : bool :=
  is_kind tok NUMBER || is_kind tok IDENT || is_kind tok RPAREN.

(** The token [tok] that comes after the token [last] of a statement list is
    consumed before the test at the head of the loop of [parse_stmt_list]
    sees it: it is the optional semicolon after a statement, or it is an
    operator after a statement that ends with an expression (a statement
    whose last token is a keyword ends with [fi] or [od]).  After a
    semicolon nothing is consumed before that test. *)
Definition taken_after (last tok : Token) : bool :=
  negb (is_kind last SEMI)
  && (is_kind tok SEMI
      || (negb (is_kind last KEYWORD) && continues_expr tok)).

(** The token [tok] terminates the statement list made of the tokens [pre]:
    the loop of [parse_stmt_list] breaks at it, and it is not consumed after
    the last token of [pre]. *)
Definition terminates_list (pre : list Token) (tok : Token) : bool :=
  ends_stmt_list tok
  && match pre with
     | [] => true
     | _ :: _ => negb (taken_after (last pre EOF_token) tok)
     end.

(** The two token lists are the same before [P], and at [P] the first has an
    end-of-input token. *)
Definition agree_until (ts1 ts2 : list Token) (P : nat) : Prop :=
  (forall i, i < P -> token_at ts1 i = token_at ts2 i)
  /\ tk_type (token_at ts1 P) = EOF.

(** A method that returns on the first list from a position up to [P] has
    moved forward and stopped at [P] at the latest; it returns the same on
    the second list when it stopped before [P], or when [c] holds, which
    says of the token of the second list at [P] what the method found of
    the end-of-input token of the first. *)
Definition carries_if {A} (P : nat) (c : Prop) (m1 m2 : M A) : Prop :=
  forall pos a p',
    pos <= P ->
    m1 pos = Some (Return a, p') ->
    pos <= p' /\ p' <= P
    /\ (p' < P \/ c -> m2 pos = Some (Return a, p')).

(** The method of the tier [k] of the expression grammar: [parse_equality],
    [parse_relational], [parse_additive], [parse_term], and [parse_factor]
    for the factors. *)
Definition tier_parser (tokens : list Token) (fuel k : nat) : M expr :=
  match k with
  | 0 => parse_equality tokens fuel
  | 1 => parse_relational tokens fuel
  | 2 => parse_additive tokens fuel
  | 3 => parse_term tokens fuel
  | _ => parse_factor tokens fuel
  end.

(** The operators of tier [k], each with the expression of the next tier
    after it, that the grammar finds from a position up to another. *)
Inductive derived_items (tokens : list Token) (k : nat)
  : nat -> list (string * expr) -> nat -> Prop :=
| derived_items_nil pos : derived_items tokens k pos [] pos
| derived_items_cons pos p1 e items stop :
    is_kind (token_at tokens pos) OP
    && in_values (tk_value (token_at tokens pos)) (tier_ops k) = true ->
    derives tokens (S k) (pos + 1) p1 e ->
    derived_items tokens k p1 items stop ->
    derived_items tokens k pos
                  ((tk_value (token_at tokens pos), e) :: items) stop.

(** The token is no operator of the tier [k] or of a tighter tier. *)
Definition stops_tier (k : nat) (tok : Token) : Prop :=
  forall j, k <= j -> j < 4 ->
            is_kind tok OP && in_values (tk_value tok) (tier_ops j) = false.

(* ================================================================= *)
(** ** The matcher stays inside the text and moves forward *)

Section MatcherFacts.

Variable code : list ascii.

Lemma nth_error_in_range (pos : nat) (c : ascii) :
  nth_error code pos = Some c -> pos < List.length code.
Proof.
  intros H. apply nth_error_Some. congruence.
Qed.

Lemma many_bounds (p : ascii -> bool) (n : nat) :
  forall pos k e,
    many code p n pos k = Some e ->
    pos <= List.length code ->
    exists pos', k pos' = Some e /\ pos <= pos' <= List.length code.
Proof.
  induction n as [|n IH]; intros pos k e H Hle; simpl in H.
  - exists pos. split; [assumption | lia].
  - destruct (nth_error code pos) as [c|] eqn:Hc;
      [ | exists pos; split; [assumption | lia] ].
    destruct (p c); [ | exists pos; split; [assumption | lia] ].
    destruct (many code p n (S pos) k) as [e'|] eqn:Hm.
    + injection H as <-.
      apply nth_error_in_range in Hc.
      destruct (IH _ _ _ Hm) as (pos' & Hk & Hb); [lia|].
      exists pos'. split; [assumption | lia].
    + exists pos. split; [assumption | lia].
Qed.

Lemma run_bounds (r : regex) :
  forall pos k e,
    run code r pos k = Some e ->
    pos <= List.length code ->
    exists pos',
      k pos' = Some e /\ pos <= pos' <= List.length code
      /\ (nonempty r = true -> pos < pos').
Proof.
  induction r as [c|p|p| |r1 IH1 r2 IH2|r1 IH1 r2 IH2];
    intros pos k e H Hle; simpl in H.
  - destruct (nth_error code pos) as [c'|] eqn:Hc; [|discriminate].
    destruct (Ascii.eqb c' c); [|discriminate].
    apply nth_error_in_range in Hc.
    exists (S pos). repeat split; try assumption; lia.
  - destruct (nth_error code pos) as [c'|] eqn:Hc; [|discriminate].
    destruct (p c'); [|discriminate].
    apply nth_error_in_range in Hc.
    exists (S pos). repeat split; try assumption; lia.
  - destruct (many_bounds _ _ _ _ _ H Hle) as (pos' & Hk & Hb).
    exists pos'. repeat split; try assumption; try lia.
    simpl. discriminate.
  - destruct (at_boundary code pos); [|discriminate].
    exists pos. repeat split; try assumption; try lia.
    simpl. discriminate.
  - destruct (IH1 _ _ _ H Hle) as (p1 & Hk1 & Hb1 & Hn1).
    destruct (IH2 _ _ _ Hk1) as (p2 & Hk2 & Hb2 & Hn2); [lia|].
    exists p2. repeat split; try assumption; try lia.
    simpl. intros Hne. apply orb_true_iff in Hne.
    destruct Hne as [Hne|Hne]; [specialize (Hn1 Hne) | specialize (Hn2 Hne)];
      lia.
  - destruct (run code r1 pos k) as [e1|] eqn:H1.
    + injection H as <-.
      destruct (IH1 _ _ _ H1 Hle) as (p1 & Hk1 & Hb1 & Hn1).
      exists p1. repeat split; try assumption; try lia.
      simpl. intros Hne. apply andb_true_iff in Hne. apply Hn1, Hne.
    + destruct (IH2 _ _ _ H Hle) as (p2 & Hk2 & Hb2 & Hn2).
      exists p2. repeat split; try assumption; try lia.
      simpl. intros Hne. apply andb_true_iff in Hne. apply Hn2, Hne.
Qed.

Lemma match_end_bounds (r : regex) (pos e : nat) :
  match_end code r pos = Some e ->
  pos <= List.length code ->
  pos <= e <= List.length code /\ (nonempty r = true -> pos < e).
Proof.
  intros H Hle. unfold match_end in H.
  destruct (run_bounds _ _ _ _ H Hle) as (pos' & Hk & Hb & Hn).
  injection Hk as <-. split; assumption.
Qed.

Lemma first_match_some (specs : list (TokenKind * regex)) (pos : nat)
      (kind : TokenKind) (e : nat) :
  first_match specs code pos = Some (kind, e) ->
  exists r, In (kind, r) specs /\ match_end code r pos = Some e.
Proof.
  induction specs as [|[k r] rest IH]; simpl; [discriminate|].
  destruct (match_end code r pos) as [e'|] eqn:Hm.
  - intros [= <- <-]. exists r. split; [left; reflexivity | assumption].
  - intros H. destruct (IH H) as (r' & Hin & Hr').
    exists r'. split; [right; assumption | assumption].
Qed.

Lemma first_match_none (specs : list (TokenKind * regex)) (pos : nat) :
  first_match specs code pos = None ->
  forall kind r, In (kind, r) specs -> match_end code r pos = None.
Proof.
  induction specs as [|[k r] rest IH]; simpl; [contradiction|].
  destruct (match_end code r pos) as [e'|] eqn:Hm; [discriminate|].
  intros H kind r' [[= <- <-]|Hin]; [assumption | eapply IH; eassumption].
Qed.

Lemma TOKEN_SPECS_nonempty :
  forall kind r, In (kind, r) TOKEN_SPECS -> nonempty r = true.
Proof.
  intros kind r Hin.
  assert (H : forallb (fun spec => nonempty (snd spec)) TOKEN_SPECS = true)
    by reflexivity.
  rewrite forallb_forall in H. apply (H (kind, r) Hin).
Qed.

(** A match of the master pattern consumes at least one character and ends
    inside the text. *)
Lemma master_regex_bounds (pos e : nat) (kind : TokenKind) :
  master_regex code pos = Some (kind, e) ->
  pos <= List.length code ->
  pos < e <= List.length code.
Proof.
  intros H Hle. unfold master_regex in H.
  destruct (first_match_some _ _ _ _ H) as (r & Hin & Hm).
  destruct (match_end_bounds _ _ _ Hm Hle) as [Hb Hn].
  specialize (Hn (TOKEN_SPECS_nonempty _ _ Hin)). lia.
Qed.

(** Inside the text the master pattern always matches: a newline by NEWLINE
    when nothing before it in the table does, any other character at the
    latest by UNKNOWN.  The fallback of [lex] is never taken. *)
Lemma master_regex_matches (pos : nat) :
  pos < List.length code ->
  exists kind e, master_regex code pos = Some (kind, e).
Proof.
  intros Hlt.
  destruct (master_regex code pos) as [[kind e]|] eqn:Hm;
    [exists kind, e; reflexivity|].
  exfalso. unfold master_regex in Hm.
  destruct (nth_error code pos) as [c|] eqn:Hc;
    [ | apply nth_error_None in Hc; lia ].
  destruct (Ascii.eqb c newline) eqn:Hnl.
  - assert (H := first_match_none _ _ Hm NEWLINE (Lit newline)).
    unfold match_end in H. simpl in H. rewrite Hc, Hnl in H.
    discriminate H. right; left; reflexivity.
  - assert (H := first_match_none _ _ Hm UNKNOWN (Class not_newline)).
    unfold match_end in H. simpl in H. unfold not_newline in H.
    rewrite Hc, Hnl in H.
    discriminate H. do 13 right; left; reflexivity.
Qed.

End MatcherFacts.

(* ================================================================= *)
(** ** The scan terminates and covers the text *)

Lemma lex_step_pos (code : list ascii) (st : LexState) :
  ls_pos st < List.length code ->
  ls_pos st < ls_pos (lex_step code st) <= List.length code.
Proof.
  destruct st as [tokens line col pos]. simpl. intros Hlt.
  destruct (master_regex code pos) as [[kind e]|] eqn:Hm.
  - apply master_regex_bounds in Hm; [|lia].
    destruct kind; simpl; lia.
  - simpl. lia.
Qed.

Lemma lex_loop_terminates (code : list ascii) (fuel : nat) :
  forall st,
    List.length code - ls_pos st <= fuel ->
    ls_pos st <= List.length code ->
    exists st', lex_loop fuel code st = Some st'
                /\ ls_pos st' = List.length code.
Proof.
  induction fuel as [|fuel IH]; intros st Hfuel Hle; simpl.
  - destruct (Nat.ltb_spec (ls_pos st) (List.length code)); [lia|].
    exists st. split; [reflexivity | lia].
  - destruct (Nat.ltb_spec (ls_pos st) (List.length code)) as [Hlt|Hge].
    + destruct (lex_step_pos code st Hlt) as [H1 H2].
      apply IH; lia.
    + exists st. split; [reflexivity | lia].
Qed.

Lemma slice_skipn (code : list ascii) (a b : nat) :
  a <= b <= List.length code ->
  (slice code a b ++ skipn b code)%list = skipn a code.
Proof.
  intros H. unfold slice.
  replace b with ((b - a) + a) at 2 by lia.
  rewrite <- skipn_skipn. apply firstn_skipn.
Qed.


(* ================================================================= *)
(** ** What one turn of the loop does *)

Lemma text_length (code : list ascii) (a b : nat) :
  a <= b <= List.length code ->
  String.length (text code a b) = b - a.
Proof.
  intros H. unfold text, slice.
  assert (Hlen : forall l, String.length (string_of_list_ascii l)
                           = List.length l)
    by (induction l as [|c l IH]; simpl; congruence).
  rewrite Hlen, length_firstn, length_skipn. lia.
Qed.

Lemma lex_step_match (code : list ascii) (st : LexState)
      (kind : TokenKind) (e : nat) :
  master_regex code (ls_pos st) = Some (kind, e) ->
  ls_tokens (lex_step code st) = (ls_tokens st ++ emitted code st kind e)%list
  /\ ls_pos (lex_step code st) = e
  /\ ls_line (lex_step code st)
     = (if kind_eqb kind NEWLINE then ls_line st + 1 else ls_line st)%Z
  /\ ls_col (lex_step code st)
     = (if kind_eqb kind NEWLINE then 1
        else ls_col st
             + Z.of_nat (String.length (text code (ls_pos st) e)))%Z.
Proof.
  destruct st as [tokens line col pos]. simpl. intros ->.
  unfold emitted.
  destruct kind; simpl; rewrite ?app_nil_r; repeat split; reflexivity.
Qed.

Lemma lex_loop_tokens (code : list ascii) (fuel : nat) :
  forall st st',
    lex_loop fuel code st = Some st' ->
    exists more,
      ls_tokens st' = (ls_tokens st ++ more)%list
      /\ Forall (token_from code) more.
Proof.
  induction fuel as [|fuel IH]; intros st st' H; simpl in H;
    destruct (Nat.ltb_spec (ls_pos st) (List.length code)) as [Hlt|Hge];
    try discriminate;
    try (injection H as <-; exists []; rewrite app_nil_r;
         split; [reflexivity | constructor]).
  destruct (IH _ _ H) as (more & Hmore & Hall).
  destruct (master_regex_matches code _ Hlt) as (kind & e & Hm).
  destruct (lex_step_match code st kind e Hm) as (Htok & _).
  exists (emitted code st kind e ++ more)%list. split.
  - rewrite Hmore, Htok, app_assoc. reflexivity.
  - apply Forall_app. split; [|assumption].
    unfold emitted. destruct (emitted_kind kind) as [k|] eqn:Hk;
      constructor; [|constructor].
    exists (ls_pos st), e, kind. simpl. repeat split; assumption.
Qed.





(* ================================================================= *)
(** ** Keywords, numbers and identifiers at a scan position *)

Section WordFacts.

Variable code : list ascii.

Lemma skipn_cons (pos : nat) (c : ascii) :
  nth_error code pos = Some c ->
  skipn pos code = c :: skipn (S pos) code.
Proof.
  revert pos. induction code as [|c' l IH]; intros [|pos] H;
    simpl in *; try discriminate.
  - congruence.
  - apply IH. assumption.
Qed.

Lemma run_Word (s : string) :
  s <> EmptyString ->
  forall pos k,
    run code (Word s) pos k
    = if starts_with code pos s then k (pos + String.length s) else None.
Proof.
  induction s as [|c s' IH]; [congruence|]. intros _ pos k.
  destruct s' as [|c2 s''].
  - simpl. destruct (nth_error code pos) as [c'|]; [|reflexivity].
    rewrite andb_true_r, Nat.add_1_r. reflexivity.
  - change (Word (String c (String c2 s'')))
      with (Cat (Lit c) (Word (String c2 s''))).
    change (starts_with code pos (String c (String c2 s'')))
      with (match nth_error code pos with
            | Some c' => Ascii.eqb c' c
                         && starts_with code (S pos) (String c2 s'')
            | None => false
            end).
    cbn [run].
    destruct (nth_error code pos) as [c'|]; [|reflexivity].
    destruct (Ascii.eqb c' c); [|reflexivity].
    rewrite IH by discriminate. cbn [andb].
    replace (pos + String.length (String c (String c2 s'')))
      with (S pos + String.length (String c2 s'')) by (simpl; lia).
    reflexivity.
Qed.

Lemma starts_with_text (s : string) :
  forall pos,
    starts_with code pos s = true ->
    pos <= List.length code ->
    text code pos (pos + String.length s) = s
    /\ pos + String.length s <= List.length code.
Proof.
  unfold text, slice.
  induction s as [|c s' IH]; intros pos H Hle; simpl in *.
  - rewrite Nat.add_0_r, Nat.sub_diag. simpl. split; [reflexivity | lia].
  - destruct (nth_error code pos) as [c'|] eqn:Hc; [|discriminate].
    apply andb_true_iff in H. destruct H as [Heq Hrest].
    apply Ascii.eqb_eq in Heq. subst c'.
    assert (Hlt := nth_error_in_range _ _ _ Hc).
    destruct (IH _ Hrest) as [Htxt Hlen]; [lia|].
    rewrite (skipn_cons _ _ Hc).
    replace (pos + S (String.length s') - pos)
      with (S (S pos + String.length s' - S pos)) by lia.
    simpl firstn. simpl string_of_list_ascii.
    simpl in Htxt. rewrite Htxt. split; [reflexivity | simpl in Hlen; lia].
Qed.

Lemma text_starts_with (s : string) :
  forall pos stop,
    text code pos stop = s ->
    starts_with code pos s = true.
Proof.
  unfold text, slice.
  induction s as [|c s' IH]; intros pos stop H; simpl; [reflexivity|].
  destruct (stop - pos) as [|n] eqn:Hn; [discriminate|].
  destruct (nth_error code pos) as [c'|] eqn:Hc.
  - rewrite (skipn_cons _ _ Hc) in H. simpl in H.
    injection H as -> Hrest. rewrite Ascii.eqb_refl. simpl.
    apply (IH (S pos) (S pos + n)).
    replace (S pos + n - S pos) with n by lia. assumption.
  - apply nth_error_None in Hc. rewrite skipn_all2 in H by lia.
    discriminate.
Qed.

(** A character that starts none of the patterns COMMENT .. BAR leaves the
    match to KEYWORD, NUMBER, IDENT and UNKNOWN. *)
Lemma master_regex_skip_symbols (pos : nat) (c : ascii) :
  nth_error code pos = Some c ->
  is_symbol_start c = false ->
  master_regex code pos = first_match (skipn 10 TOKEN_SPECS) code pos.
Proof.
  intros Hc Hsym. unfold master_regex, TOKEN_SPECS.
  cbn [skipn first_match]. unfold match_end, Many1.
  cbn [run Word]. rewrite Hc.
  unfold is_symbol_start in Hsym.
  repeat (apply orb_false_iff in Hsym; destruct Hsym as [Hsym ?]).
  repeat match goal with
         | H : ?b = false |- context [if ?b then _ else _] => rewrite H
         end.
  reflexivity.
Qed.

End WordFacts.

(** The characters a hypothesis [starts_with code pos "..." = true] fixes. *)
Ltac chars_of H :=
  cbn [starts_with] in H;
  repeat match type of H with
         | match nth_error ?l ?p with _ => _ end = true =>
             let Hc := fresh "Hc" in
             let He := fresh "He" in
             destruct (nth_error l p) eqn:Hc; [|discriminate H];
             apply andb_true_iff in H; destruct H as [He H];
             apply Ascii.eqb_eq in He; subst
         end.

Section KeywordFacts.

Variable code : list ascii.

Lemma standalone_inv (a b : nat) :
  standalone code a b = true ->
  match a with 0 => false | S before => word_at code before end = false
  /\ word_at code b = false.
Proof.
  unfold standalone. intros H. apply andb_true_iff in H.
  destruct H as [H1 H2]. apply negb_true_iff in H1, H2. split; assumption.
Qed.

Lemma keyword_match (kw : string) (a : nat) :
  In kw keywords ->
  starts_with code a kw = true ->
  standalone code a (a + String.length kw) = true ->
  master_regex code a = Some (KEYWORD, a + String.length kw).
Proof.
  intros Hin Hsw Hst. apply standalone_inv in Hst. destruct Hst as [Hb1 Hb2].
  simpl in Hin.
  repeat (destruct Hin as [<-|Hin]); [ .. | contradiction];
    chars_of Hsw.
  all: rewrite (master_regex_skip_symbols _ _ _ Hc) by reflexivity.
  all: cbn [skipn TOKEN_SPECS first_match]; unfold match_end; cbn [run].
  all: rewrite !run_Word by discriminate.
  all: cbn [String.length] in *.
  all: rewrite ?(Nat.add_comm a 2), ?(Nat.add_comm a 4) in *;
    cbn [Nat.add] in *.
  all: unfold at_boundary; rewrite Hb1; cbn [starts_with];
    unfold word_at in *; rewrite Hb2;
    repeat match goal with
           | H : nth_error code _ = Some _ |- _ => rewrite H
           end;
    reflexivity.
Qed.

Lemma keyword_match_inv (a b : nat) :
  master_regex code a = Some (KEYWORD, b) ->
  exists kw,
    In kw keywords /\ starts_with code a kw = true
    /\ b = a + String.length kw /\ standalone code a b = true.
Proof.
  intros H. unfold master_regex in H.
  destruct (first_match_some _ _ _ _ _ H) as (r & Hin & Hm). clear H.
  assert (Hr : r = Cat Boundary
                     (Cat (Alt (Word "if") (Alt (Word "then")
                            (Alt (Word "else") (Alt (Word "fi")
                              (Alt (Word "do") (Word "od"))))))
                          Boundary)).
  { simpl in Hin.
    repeat (destruct Hin as [Hin|Hin];
            [try discriminate Hin; try (injection Hin as <-; reflexivity)|]).
    contradiction. }
  subst r. unfold match_end in Hm. cbn [run] in Hm.
  rewrite !run_Word in Hm by discriminate.
  destruct (at_boundary code a) eqn:Hba; [|discriminate].
  assert (Hfound :
            exists kw, In kw keywords /\ starts_with code a kw = true
                       /\ b = a + String.length kw
                       /\ at_boundary code b = true).
  { repeat match type of Hm with
           | context [if starts_with code a ?kw then _ else _] =>
               let Hs := fresh "Hs" in
               let Hb := fresh "Hb" in
               destruct (starts_with code a kw) eqn:Hs;
               [ destruct (at_boundary code (a + String.length kw)) eqn:Hb;
                 [ injection Hm as <-; exists kw;
                   repeat split; try assumption; simpl; tauto
                 | clear Hs Hb ]
               | clear Hs ]
           end;
    discriminate. }
  clear Hm Hin. destruct Hfound as (kw & Hin & Hsw & -> & Hbe).
  exists kw. repeat split; try assumption.
  simpl in Hin.
  repeat (destruct Hin as [<-|Hin]); [ .. | contradiction];
    chars_of Hsw; cbn [String.length] in *.
  all: rewrite ?(Nat.add_comm a 2), ?(Nat.add_comm a 4) in *;
    cbn [Nat.add] in *.
  all: unfold standalone; unfold at_boundary in Hba, Hbe;
    unfold word_at in *;
    repeat match goal with
           | H : nth_error code _ = Some _ |- _ =>
               progress (try rewrite H in Hba; try rewrite H in Hbe)
           end.
  all: match type of Hba with xorb ?x _ = true => destruct x end;
    [vm_compute in Hba; discriminate Hba|].
  all: match type of Hbe with xorb _ ?x = true => destruct x end;
    [vm_compute in Hbe; discriminate Hbe|].
  all: reflexivity.
Qed.

End KeywordFacts.

(** C7. Keywords are matched as whole words only.  The text ["ifx := 1"]
    gives the single identifier [ifx]; a scan position at which a keyword
    stands alone (no word character just before it nor just after it) yields
    a KEYWORD token with that text; and in every token list that [lex]
    returns a token is a KEYWORD exactly when its text is one of the six
    keywords and stands alone in the source at the token's index, so that a
    keyword standing alone is never an IDENT token and a KEYWORD token is
    never a part of a longer word. *)
Theorem keywords_whole_word :
  lex "ifx := 1"
  = Some [mkToken IDENT "ifx" 1 1 (Some 0); mkToken ASSIGN ":=" 1 5 (Some 4);
          mkToken NUMBER "1" 1 8 (Some 7)]
  /\ (forall chars st kw,
         In kw keywords ->
         starts_with chars (ls_pos st) kw = true ->
         standalone chars (ls_pos st) (ls_pos st + String.length kw) = true ->
         lex_step chars st
         = mkLex (ls_tokens st
                    ++ [mkToken KEYWORD kw (ls_line st) (ls_col st)
                                (Some (ls_pos st))])
                 (ls_line st)
                 (ls_col st + Z.of_nat (String.length kw))
                 (ls_pos st + String.length kw))
  /\ (forall code toks t,
         lex code = Some toks ->
         In t toks ->
         let chars := list_ascii_of_string code in
         exists a,
           tk_index t = Some a
           /\ starts_with chars a (tk_value t) = true
           /\ (tk_type t = KEYWORD
               <-> In (tk_value t) keywords
                   /\ standalone chars a (a + String.length (tk_value t))
                      = true)).
Proof.
  split; [reflexivity|]. split.
  - intros chars st kw Hin Hsw Hst.
    assert (Hm := keyword_match chars kw _ Hin Hsw Hst).
    assert (Hlen : ls_pos st < List.length chars).
    { destruct (nth_error chars (ls_pos st)) as [c|] eqn:Hc.
      - eapply nth_error_in_range; eassumption.
      - simpl in Hin.
        repeat (destruct Hin as [<-|Hin]); try contradiction;
          cbn [starts_with] in Hsw; rewrite Hc in Hsw; discriminate. }
    destruct (starts_with_text chars kw _ Hsw) as [Htxt _]; [lia|].
    destruct st as [tokens line col pos]. simpl in *.
    rewrite Hm, Htxt. reflexivity.
  - intros code toks t Hlex Hin chars.
    unfold lex, lex_run in Hlex. fold chars in Hlex.
    destruct (lex_loop (List.length chars) chars lex_init) as [st|] eqn:Hrun;
      [|discriminate].
    injection Hlex as <-.
    destruct (lex_loop_tokens _ _ _ _ Hrun) as (more & Hmore & Hall).
    simpl in Hmore. rewrite Hmore in Hin.
    rewrite Forall_forall in Hall.
    destruct (Hall t Hin) as (a & e & kind & Hidx & Hlt & Hm & Hval & Hk).
    destruct (master_regex_bounds chars a e kind Hm) as [Hae Hel]; [lia|].
    assert (Hlen : a + String.length (tk_value t) = e)
      by (rewrite Hval, text_length; lia).
    exists a. split; [assumption|]. split.
    { eapply text_starts_with. symmetry. eassumption. }
    rewrite Hlen. split.
    + intros Hty. rewrite Hty in Hk.
      assert (kind = KEYWORD) by (destruct kind; simpl in Hk; congruence).
      subst kind.
      destruct (keyword_match_inv chars a e Hm)
        as (kw & Hkw & Hsw & He & Hst).
      destruct (starts_with_text chars kw a Hsw) as [Htxt _]; [lia|].
      rewrite He in Hval at 1. rewrite Htxt in Hval. rewrite Hval.
      split; assumption.
    + intros [Hkw Hst].
      assert (Hsw : starts_with chars a (tk_value t) = true)
        by (eapply text_starts_with; symmetry; eassumption).
      rewrite <- Hlen in Hst.
      assert (Hm' := keyword_match chars _ _ Hkw Hsw Hst).
      rewrite Hm in Hm'. injection Hm' as -> _. simpl in Hk. congruence.
Qed.

(** The scan of ["if x"] starts with the keyword. *)
Lemma keywords_whole_word_witness :
  lex_step (list_ascii_of_string "if x") lex_init
  = mkLex [mkToken KEYWORD "if" 1 1 (Some 0)] 1 3 2.
Proof.
  exact (proj1 (proj2 keywords_whole_word)
               (list_ascii_of_string "if x") lex_init "if"
               (or_introl eq_refl) eq_refl eq_refl).
Defined.

(* ================================================================= *)
(** ** Digits followed by a letter *)

Lemma digit_class (c : ascii) :
  is_digit c = true ->
  is_symbol_start c = false /\ is_ident_start c = false
  /\ is_word c = true /\ not_newline c = true.
Proof.
  destruct c as [[] [] [] [] [] [] [] []]; intros H;
    try discriminate H; repeat split; reflexivity.
Qed.

Lemma ident_start_class (c : ascii) :
  is_ident_start c = true ->
  is_symbol_start c = false /\ is_digit c = false /\ is_word c = true.
Proof.
  destruct c as [[] [] [] [] [] [] [] []]; intros H;
    try discriminate H; repeat split; reflexivity.
Qed.

Section DigitFacts.

Variable code : list ascii.

Lemma many_none (p : ascii -> bool) (n : nat) :
  forall q k,
    (forall r, q <= r -> (forall i, q <= i < r -> class_at code p i) ->
               k r = None) ->
    many code p n q k = None.
Proof.
  induction n as [|n IH]; intros q k Hk; simpl.
  - apply Hk; [lia | intros i Hi; lia].
  - assert (Hq : k q = None) by (apply Hk; [lia | intros i Hi; lia]).
    destruct (nth_error code q) as [c|] eqn:Hc; [|assumption].
    destruct (p c) eqn:Hp; [|assumption].
    rewrite IH; [assumption|].
    intros r Hr Hrun. apply Hk; [lia|].
    intros i Hi. destruct (Nat.eq_dec i q) as [->|Hne].
    + exists c. split; assumption.
    + apply Hrun. lia.
Qed.

Lemma many_greedy (p : ascii -> bool) (n : nat) :
  forall q,
    List.length code - q <= n ->
    many code p n q Some
    = Some (q + List.length (take_while p (skipn q code))).
Proof.
  induction n as [|n IH]; intros q Hn; simpl.
  - rewrite skipn_all2 by lia. simpl. f_equal. lia.
  - destruct (nth_error code q) as [c|] eqn:Hc.
    + rewrite (skipn_cons _ _ _ Hc). simpl.
      destruct (p c); [|simpl; f_equal; lia].
      rewrite IH by lia. simpl. f_equal. lia.
    + apply nth_error_None in Hc. rewrite skipn_all2 by lia.
      simpl. f_equal. lia.
Qed.

Lemma keyword_needs_letter (q : nat) (c : ascii) (kw : string) :
  nth_error code q = Some c ->
  is_digit c = true ->
  In kw keywords ->
  starts_with code q kw = false.
Proof.
  intros Hc Hd Hin. simpl in Hin.
  repeat (destruct Hin as [<-|Hin]); try contradiction;
    cbn [starts_with]; rewrite Hc;
    match goal with
    | |- Ascii.eqb c ?x && _ = false =>
        destruct (Ascii.eqb_spec c x) as [->|_];
        [discriminate Hd | reflexivity]
    end.
Qed.

(** A digit of a run of digits that ends at a letter or an underscore is
    matched by UNKNOWN only: NUMBER finds no word boundary after any digit
    of the run. *)
Lemma digit_before_letter (q m : nat) :
  (forall i, i <= m -> class_at code is_digit (q + i)) ->
  class_at code is_ident_start (q + S m) ->
  master_regex code q = Some (UNKNOWN, S q).
Proof.
  intros Hrun Hend.
  destruct (Hrun 0) as (d & Hd & Hdig); [lia|].
  rewrite Nat.add_0_r in Hd.
  destruct (digit_class d Hdig) as (Hsym & Hid & Hw & Hnl).
  rewrite (master_regex_skip_symbols _ _ _ Hd Hsym).
  cbn [skipn TOKEN_SPECS first_match]. unfold match_end, Many1.
  cbn [run]. rewrite !run_Word by discriminate.
  rewrite !(keyword_needs_letter q d) by (assumption || (simpl; tauto)).
  rewrite Hd, Hdig, Hid, Hnl.
  rewrite many_none.
  - destruct (at_boundary code q); reflexivity.
  - intros r Hr Hdigits.
    assert (Hbefore : exists r', r = S r' /\ word_at code r' = true).
    { destruct r as [|r']; [lia|]. exists r'. split; [reflexivity|].
      destruct (Hrun (r' - q)) as (c & Hc & Hcd).
      - destruct (Nat.le_gt_cases (r' - q) m) as [Hle|Hgt]; [assumption|].
        destruct (Hdigits (q + S m)) as (c & Hc & Hcd); [lia|].
        destruct Hend as (c' & Hc' & Hci).
        rewrite Hc in Hc'. injection Hc' as <-.
        destruct (ident_start_class c Hci) as (_ & Hnd & _). congruence.
      - replace (q + (r' - q)) with r' in Hc by lia.
        unfold word_at. rewrite Hc.
        apply (digit_class c Hcd). }
    destruct Hbefore as (r' & -> & Hw').
    assert (Hat : word_at code (S r') = true).
    { destruct (Nat.le_gt_cases (S r') (q + m)) as [Hle|Hgt].
      - destruct (Hrun (S r' - q)) as (c & Hc & Hcd); [lia|].
        replace (q + (S r' - q)) with (S r') in Hc by lia.
        unfold word_at. rewrite Hc. apply (digit_class c Hcd).
      - destruct (Nat.eq_dec (S r') (q + S m)) as [Heq|Hne].
        + destruct Hend as (c & Hc & Hci). rewrite <- Heq in Hc.
          unfold word_at. rewrite Hc. apply (ident_start_class c Hci).
        + destruct (Hdigits (q + S m)) as (c & Hc & Hcd); [lia|].
          destruct Hend as (c' & Hc' & Hci).
          rewrite Hc in Hc'. injection Hc' as <-.
          destruct (ident_start_class c Hci) as (_ & Hnd & _). congruence. }
    unfold at_boundary. rewrite Hw', Hat. reflexivity.
Qed.

(** A letter or an underscore just after a word character starts an
    identifier, whatever its text: KEYWORD and NUMBER need a word boundary
    there. *)
Lemma ident_after_word (r : nat) (c : ascii) :
  nth_error code (S r) = Some c ->
  is_ident_start c = true ->
  word_at code r = true ->
  master_regex code (S r)
  = Some (IDENT,
          S (S r) + List.length (take_while is_ident_char
                                            (skipn (S (S r)) code))).
Proof.
  intros Hc Hid Hw.
  destruct (ident_start_class c Hid) as (Hsym & Hnd & Hcw).
  rewrite (master_regex_skip_symbols _ _ _ Hc Hsym).
  cbn [skipn TOKEN_SPECS first_match]. unfold match_end, Many1.
  cbn [run].
  assert (Hb : at_boundary code (S r) = false)
    by (unfold at_boundary; rewrite Hw; unfold word_at; rewrite Hc, Hcw;
        reflexivity).
  rewrite Hb, Hc, Hid.
  assert (Hlt := nth_error_in_range _ _ _ Hc).
  rewrite many_greedy by lia. reflexivity.
Qed.

End DigitFacts.

Lemma firstn_take_while (p : ascii -> bool) (l : list ascii) :
  firstn (List.length (take_while p l)) l = take_while p l.
Proof.
  induction l as [|c l IH]; simpl; [reflexivity|].
  destruct (p c); simpl; [rewrite IH|]; reflexivity.
Qed.

Lemma text_ident (code : list ascii) (q : nat) (c : ascii) :
  nth_error code q = Some c ->
  text code q (S q + List.length (take_while is_ident_char
                                              (skipn (S q) code)))
  = String c (string_of_list_ascii
                (take_while is_ident_char (skipn (S q) code))).
Proof.
  intros Hc. unfold text, slice. rewrite (skipn_cons _ _ _ Hc).
  replace (S q + _ - q)
    with (S (List.length (take_while is_ident_char (skipn (S q) code))))
    by lia.
  simpl. rewrite firstn_take_while. reflexivity.
Qed.

Lemma string_length_of_list (l : list ascii) :
  String.length (string_of_list_ascii l) = List.length l.
Proof.
  induction l as [|c l IH]; simpl; congruence.
Qed.

Lemma error_run_S (code : list ascii) (st : LexState) (k : nat) :
  error_run code st (S k)
  = (error_run code st k
       ++ [mkToken ERROR (text code (ls_pos st + k) (S (ls_pos st + k)))
                   (ls_line st) (ls_col st + Z.of_nat k)
                   (Some (ls_pos st + k))])%list.
Proof.
  unfold error_run. rewrite seq_S, map_app. reflexivity.
Qed.

(** The digits of the run are scanned one by one, each as an ERROR token. *)
Lemma digit_run_steps (code : list ascii) (st : LexState) (m : nat) :
  (forall i, i <= m -> class_at code is_digit (ls_pos st + i)) ->
  class_at code is_ident_start (ls_pos st + S m) ->
  forall k,
    k <= S m ->
    Nat.iter k (lex_step code) st
    = mkLex (ls_tokens st ++ error_run code st k) (ls_line st)
            (ls_col st + Z.of_nat k) (ls_pos st + k).
Proof.
  intros Hrun Hend. induction k as [|k IH]; intros Hk.
  - destruct st as [tokens line col pos]. simpl.
    rewrite app_nil_r, Z.add_0_r, Nat.add_0_r. reflexivity.
  - rewrite Nat.iter_succ, IH by lia.
    assert (Hm : master_regex code (ls_pos st + k)
                 = Some (UNKNOWN, S (ls_pos st + k))).
    { apply (digit_before_letter code (ls_pos st + k) (m - k)).
      - intros i Hi. rewrite <- Nat.add_assoc. apply Hrun. lia.
      - replace (ls_pos st + k + S (m - k)) with (ls_pos st + S m) by lia.
        assumption. }
    destruct (Hrun k) as (d & Hd & _); [lia|].
    apply nth_error_in_range in Hd.
    unfold lex_step. rewrite Hm.
    rewrite text_length by lia. rewrite error_run_S, app_assoc.
    f_equal; lia.
Qed.

Lemma lex_loop_iter (code : list ascii) (k : nat) :
  forall fuel st,
    (forall j, j < k ->
               ls_pos (Nat.iter j (lex_step code) st) < List.length code) ->
    lex_loop (k + fuel) code st
    = lex_loop fuel code (Nat.iter k (lex_step code) st).
Proof.
  induction k as [|k IH]; intros fuel st Hpos; [reflexivity|].
  rewrite Nat.iter_succ_r. simpl.
  destruct (Nat.ltb_spec (ls_pos st) (List.length code)) as [Hlt|Hge].
  - apply IH. intros j Hj. rewrite <- Nat.iter_succ_r. apply Hpos. lia.
  - specialize (Hpos 0). simpl in Hpos. lia.
Qed.

(** C10. A run of digits immediately followed by a letter or an underscore is
    not a NUMBER token.  From any state of the scan at the first digit of
    such a run of [S m] digits, the next [S m] turns of the loop append one
    single-character ERROR token per digit, and the turn after them appends
    one IDENT token whose text is the letter and all the identifier
    characters after it.  When the source starts with the run, these are the
    first tokens of [lex] and [parse_tokens] raises the lexical error at the
    first digit.  ["123abc"] gives ERROR 1, ERROR 2, ERROR 3, IDENT abc. *)
Theorem digits_then_letter_are_errors :
  (forall code st m c,
      (forall i, i <= m -> class_at code is_digit (ls_pos st + i)) ->
      nth_error code (ls_pos st + S m) = Some c ->
      is_ident_start c = true ->
      let n := S m in
      let ident :=
        String c (string_of_list_ascii
                    (take_while is_ident_char
                                (skipn (S (ls_pos st + n)) code))) in
      Nat.iter n (lex_step code) st
      = mkLex (ls_tokens st ++ error_run code st n) (ls_line st)
              (ls_col st + Z.of_nat n) (ls_pos st + n)
      /\ Forall (fun t => String.length (tk_value t) = 1)
                (error_run code st n)
      /\ Nat.iter (S n) (lex_step code) st
         = mkLex (ls_tokens st ++ error_run code st n
                    ++ [mkToken IDENT ident (ls_line st)
                                (ls_col st + Z.of_nat n)
                                (Some (ls_pos st + n))])
                 (ls_line st)
                 (ls_col st + Z.of_nat n + Z.of_nat (String.length ident))
                 (ls_pos st + n + String.length ident))
  /\ (forall code m c,
         let chars := list_ascii_of_string code in
         (forall i, i <= m -> class_at chars is_digit i) ->
         nth_error chars (S m) = Some c ->
         is_ident_start c = true ->
         exists ident_token more,
           lex code = Some (error_run chars lex_init (S m)
                              ++ ident_token :: more)%list
           /\ tk_type ident_token = IDENT
           /\ parse_source code
              = Some (Raise (ParseError "Lexical errors present"
                               (Some (mkToken ERROR (text chars 0 1) 1 1
                                              (Some 0))))))
  /\ lex "123abc"
     = Some [mkToken ERROR "1" 1 1 (Some 0); mkToken ERROR "2" 1 2 (Some 1);
             mkToken ERROR "3" 1 3 (Some 2); mkToken IDENT "abc" 1 4 (Some 3)]
  /\ parse_source "123abc"
     = Some (Raise (ParseError "Lexical errors present"
                      (Some (mkToken ERROR "1" 1 1 (Some 0))))).
Proof.
  assert (Hsteps :
    forall code st m c,
      (forall i, i <= m -> class_at code is_digit (ls_pos st + i)) ->
      nth_error code (ls_pos st + S m) = Some c ->
      is_ident_start c = true ->
      let n := S m in
      let ident :=
        String c (string_of_list_ascii
                    (take_while is_ident_char
                                (skipn (S (ls_pos st + n)) code))) in
      Nat.iter n (lex_step code) st
      = mkLex (ls_tokens st ++ error_run code st n) (ls_line st)
              (ls_col st + Z.of_nat n) (ls_pos st + n)
      /\ Nat.iter (S n) (lex_step code) st
         = mkLex (ls_tokens st ++ error_run code st n
                    ++ [mkToken IDENT ident (ls_line st)
                                (ls_col st + Z.of_nat n)
                                (Some (ls_pos st + n))])
                 (ls_line st)
                 (ls_col st + Z.of_nat n + Z.of_nat (String.length ident))
                 (ls_pos st + n + String.length ident)).
  { intros code st m c Hrun Hc Hid n ident.
    assert (Hend : class_at code is_ident_start (ls_pos st + S m))
      by (exists c; split; assumption).
    assert (Hn := digit_run_steps code st m Hrun Hend n (Nat.le_refl _)).
    split; [assumption|].
    rewrite Nat.iter_succ, Hn.
    destruct (Hrun m) as (d & Hd & Hdig); [lia|].
    assert (Hm : master_regex code (ls_pos st + n)
                 = Some (IDENT,
                         S (ls_pos st + n)
                         + List.length
                             (take_while is_ident_char
                                (skipn (S (ls_pos st + n)) code)))).
    { unfold n. rewrite Nat.add_succ_r.
      apply ident_after_word with (c := c).
      - rewrite <- Nat.add_succ_r. assumption.
      - assumption.
      - unfold word_at. rewrite Hd. apply (digit_class d Hdig). }
    subst n. unfold lex_step. rewrite Hm. rewrite (text_ident code _ c Hc).
    fold ident. rewrite <- app_assoc.
    f_equal. unfold ident. cbn [String.length].
    rewrite string_length_of_list. lia. }
  split; [|split; [|split; reflexivity]].
  - intros code st m c Hrun Hc Hid n ident.
    destruct (Hsteps code st m c Hrun Hc Hid) as [H1 H2].
    split; [assumption|]. split; [|assumption].
    unfold error_run. apply Forall_forall. intros t Ht.
    apply in_map_iff in Ht. destruct Ht as (i & <- & Hi).
    apply in_seq in Hi. simpl.
    destruct (Hrun i) as (d & Hd & _); [unfold n in Hi; lia|].
    apply nth_error_in_range in Hd. rewrite text_length; lia.
  - intros code m c chars Hrun Hc Hid.
    destruct (Hsteps chars lex_init m c Hrun Hc Hid) as [_ H2].
    set (n := S m) in *.
    change (ls_tokens lex_init) with (@nil Token) in H2.
    change (ls_pos lex_init) with 0 in H2.
    cbn [app Nat.add] in H2.
    set (st2 := Nat.iter (S n) (lex_step chars) lex_init) in *.
    assert (Hlen := nth_error_in_range _ _ _ Hc).
    assert (Hpos : forall j, j < S n ->
                ls_pos (Nat.iter j (lex_step chars) lex_init)
                < List.length chars).
    { intros j Hj.
      rewrite (digit_run_steps chars lex_init m Hrun) by
          (try (exists c; split; assumption); unfold n in Hj; lia).
      simpl. unfold n in Hj. lia. }
    assert (Hst2 : ls_pos st2 <= List.length chars).
    { unfold st2. rewrite Nat.iter_succ.
      apply lex_step_pos. apply Hpos. lia. }
    assert (Hgt : S n <= ls_pos st2).
    { rewrite H2. simpl. lia. }
    destruct (lex_loop_terminates chars (List.length chars - S n) st2)
      as (st' & Hrun' & _); [lia | assumption |].
    destruct (lex_loop_tokens _ _ _ _ Hrun') as (more & Hmore & _).
    rewrite H2 in Hmore. cbn [ls_tokens] in Hmore.
    rewrite <- app_assoc in Hmore. cbn [app] in Hmore.
    assert (Hlex : lex code = Some (ls_tokens st')).
    { unfold lex, lex_run. fold chars.
      replace (List.length chars) with (S n + (List.length chars - S n))
        at 1 by lia.
      rewrite (lex_loop_iter chars (S n) _ _ Hpos). fold st2.
      rewrite Hrun'. reflexivity. }
    rewrite Hmore in Hlex.
    eexists. exists more. split; [exact Hlex|]. split; [reflexivity|].
    unfold parse_source. rewrite Hlex.
    unfold parse_tokens, parse_tokens_run, error_run, n.
    cbn [seq map app lex_errors filter is_kind kind_eqb tk_type].
    reflexivity.
Qed.

(** The scan of ["7_"]. *)
Lemma digits_then_letter_are_errors_witness :
  Nat.iter 2 (lex_step (list_ascii_of_string "7_")) lex_init
  = mkLex [mkToken ERROR "7" 1 1 (Some 0); mkToken IDENT "_" 1 2 (Some 1)]
          1 3 2.
Proof.
  assert (Hrun : forall i, i <= 0 ->
            class_at (list_ascii_of_string "7_") is_digit (0 + i)).
  { intros i Hi. assert (i = 0) as -> by lia.
    exists "7"%char. split; reflexivity. }
  exact (proj2 (proj2 (proj1 digits_then_letter_are_errors
                             (list_ascii_of_string "7_") lex_init 0 "_"%char
                             Hrun eq_refl eq_refl))).
Defined.

(* ================================================================= *)
(** ** The cursor *)

Lemma kind_eqb_eq (a b : TokenKind) : kind_eqb a b = true <-> a = b.
Proof.
  split; [|intros ->; destruct b; reflexivity].
  destruct a, b; simpl; intros H; try reflexivity; discriminate H.
Qed.

Lemma kind_eqb_refl (a : TokenKind) : kind_eqb a a = true.
Proof. destruct a; reflexivity. Qed.

Lemma kind_eqb_neq (a b : TokenKind) : kind_eqb a b = false <-> a <> b.
Proof.
  split.
  - intros H Heq. apply kind_eqb_eq in Heq. congruence.
  - intros H. destruct (kind_eqb a b) eqn:E; [|reflexivity].
    apply kind_eqb_eq in E. contradiction.
Qed.

(** C8, as the code has it.  [consume] with an expected type that is not the
    type of the current token, or with an expected text that is not empty and
    is not the text of the current token, raises a [ParseError] that carries
    the current token and leaves the position where it was.  In every other
    case it returns the current token and the position is one more: when each
    expectation holds or is not given, and also when the expected text is
    empty, which the test [if expected_value and ...] takes as not given. *)
Theorem consume_checks_then_advances
        (tokens : list Token) (expected_type : option TokenKind)
        (expected_value : option string) (pos : nat) :
  let tok := token_at tokens pos in
  (forall ty, expected_type = Some ty -> tk_type tok <> ty ->
              exists msg,
                consume tokens expected_type expected_value pos
                = Some (Raise (ParseError msg (Some tok)), pos))
  /\ (forall v, expected_value = Some v -> v <> "" -> tk_value tok <> v ->
                exists msg,
                  consume tokens expected_type expected_value pos
                  = Some (Raise (ParseError msg (Some tok)), pos))
  /\ ((expected_type = None \/ expected_type = Some (tk_type tok)) ->
      (expected_value = None \/ expected_value = Some ""
       \/ expected_value = Some (tk_value tok)) ->
      consume tokens expected_type expected_value pos
      = Some (Return tok, pos + 1)).
Proof.
  intros tok. unfold consume, bind, peek, ret, raise. fold tok.
  split; [|split].
  - intros ty -> Hne. apply kind_eqb_neq in Hne. rewrite Hne. simpl.
    eexists. reflexivity.
  - intros v -> Hv Hne.
    apply String.eqb_neq in Hv, Hne. rewrite Hv, Hne. simpl.
    destruct expected_type as [ty|]; [|eexists; reflexivity].
    destruct (kind_eqb (tk_type tok) ty); simpl; eexists; reflexivity.
  - intros Hty Hval.
    assert (Hty' : match expected_type with
                   | Some ty => kind_eqb (tk_type tok) ty = true
                   | None => True
                   end).
    { destruct Hty as [->| ->]; [exact I | apply kind_eqb_refl]. }
    assert (Hval' : match expected_value with
                    | Some v => negb (String.eqb v "")
                                && negb (String.eqb (tk_value tok) v) = false
                    | None => True
                    end).
    { destruct Hval as [->|[->| ->]]; [exact I | reflexivity |].
      rewrite String.eqb_refl. apply andb_false_r. }
    destruct expected_type as [ty|]; [rewrite Hty'|]; simpl;
      (destruct expected_value as [v|]; [rewrite Hval'|]); reflexivity.
Qed.

(** [consume] at the keyword of ["if x"], and at its identifier. *)
Lemma consume_checks_then_advances_witness :
  let tokens := [mkToken KEYWORD "if" 1 1 (Some 0);
                 mkToken IDENT "x" 1 4 (Some 3)] in
  consume tokens (Some KEYWORD) (Some "if") 0
  = Some (Return (mkToken KEYWORD "if" 1 1 (Some 0)), 1)
  /\ (exists msg,
         consume tokens (Some KEYWORD) (Some "if") 1
         = Some (Raise (ParseError msg (Some (mkToken IDENT "x" 1 4 (Some 3)))),
                 1)).
Proof.
  intros tokens. split.
  - apply (proj2 (proj2 (consume_checks_then_advances
                           tokens (Some KEYWORD) (Some "if") 0)));
      [right; reflexivity | right; right; reflexivity].
  - apply (proj1 (consume_checks_then_advances
                    tokens (Some KEYWORD) (Some "if") 1) KEYWORD);
      [reflexivity | simpl; discriminate].
Defined.

(** An expected text that is empty is given and is not the text of the
    identifier [x], and [consume] returns the token and moves on. *)
Lemma consume_empty_text_counterexample :
  let tok := mkToken IDENT "x" 1 1 (Some 0) in
  let expected_value := Some EmptyString in
  expected_value <> None
  /\ expected_value <> Some (tk_value tok)
  /\ consume [tok] None expected_value 0 = Some (Return tok, 1)
  /\ consume [tok] (Some IDENT) expected_value 0 = Some (Return tok, 1)
  /\ (exists msg,
         consume [tok] None (Some "y") 0
         = Some (Raise (ParseError msg (Some tok)), 0)).
Proof.
  intros tok expected_value. repeat split; try discriminate.
  eexists. reflexivity.
Qed.

(* ================================================================= *)
(** ** Lexical errors come first *)

Lemma lex_errors_first (pre post : list Token) (t : Token) :
  Forall (fun u => tk_type u <> ERROR) pre ->
  tk_type t = ERROR ->
  lex_errors (pre ++ t :: post) = t :: lex_errors post.
Proof.
  intros Hpre Ht. unfold lex_errors. rewrite filter_app.
  replace (filter (fun u => is_kind u ERROR) pre) with (@nil Token).
  - simpl. unfold is_kind at 1. rewrite Ht. reflexivity.
  - symmetry. induction Hpre as [|u pre Hu _ IH]; [reflexivity|].
    simpl. unfold is_kind at 1. apply kind_eqb_neq in Hu. rewrite Hu.
    assumption.
Qed.

Lemma first_error_split (tokens : list Token) :
  (exists t, In t tokens /\ tk_type t = ERROR) ->
  exists pre t post,
    tokens = (pre ++ t :: post)%list
    /\ Forall (fun u => tk_type u <> ERROR) pre
    /\ tk_type t = ERROR.
Proof.
  induction tokens as [|u tokens IH]; intros (t & Hin & Ht);
    [contradiction|].
  destruct (kind_eqb (tk_type u) ERROR) eqn:Hu.
  - apply kind_eqb_eq in Hu. exists [], u, tokens.
    repeat split; [constructor | assumption].
  - apply kind_eqb_neq in Hu.
    destruct Hin as [->|Hin]; [contradiction|].
    destruct IH as (pre & t' & post & -> & Hpre & Ht');
      [exists t; split; assumption|].
    exists (u :: pre), t', post.
    repeat split; [constructor; assumption | assumption].
Qed.

(** C2. A token list with an ERROR token makes [parse_tokens] raise
    ["Lexical errors present"] with the first ERROR token of the list, with
    any fuel, none included: no method of the parser has run.  For
    ["x := 1 @ 2"] the token of the error is the [@] of line 1, column 8. *)
Theorem lexical_error_first :
  (forall tokens,
      (exists t, In t tokens /\ tk_type t = ERROR) ->
      exists pre t post,
        tokens = (pre ++ t :: post)%list
        /\ Forall (fun u => tk_type u <> ERROR) pre
        /\ tk_type t = ERROR
        /\ (forall fuel,
               parse_tokens_run fuel tokens
               = Some (Raise (ParseError "Lexical errors present" (Some t)),
                       0))
        /\ parse_tokens tokens
           = Some (Raise (ParseError "Lexical errors present" (Some t))))
  /\ parse_source "x := 1 @ 2"
     = Some (Raise (ParseError "Lexical errors present"
                      (Some (mkToken ERROR "@" 1 8 (Some 7))))).
Proof.
  split; [|reflexivity].
  intros tokens H.
  destruct (first_error_split tokens H) as (pre & t & post & -> & Hpre & Ht).
  exists pre, t, post. repeat split; try assumption.
  - intros fuel. unfold parse_tokens_run.
    rewrite lex_errors_first by assumption. reflexivity.
  - unfold parse_tokens, parse_tokens_run.
    rewrite lex_errors_first by assumption. reflexivity.
Qed.

(** The tokens [x], [@], [#]: the error is the [@]. *)
Lemma lexical_error_first_witness :
  exists pre t post,
    [mkToken IDENT "x" 1 1 (Some 0); mkToken ERROR "@" 1 2 (Some 1);
     mkToken ERROR "#" 1 3 (Some 2)] = (pre ++ t :: post)%list
    /\ Forall (fun u => tk_type u <> ERROR) pre
    /\ tk_type t = ERROR
    /\ (forall fuel,
           parse_tokens_run fuel
             [mkToken IDENT "x" 1 1 (Some 0); mkToken ERROR "@" 1 2 (Some 1);
              mkToken ERROR "#" 1 3 (Some 2)]
           = Some (Raise (ParseError "Lexical errors present" (Some t)), 0))
    /\ parse_tokens
         [mkToken IDENT "x" 1 1 (Some 0); mkToken ERROR "@" 1 2 (Some 1);
          mkToken ERROR "#" 1 3 (Some 2)]
       = Some (Raise (ParseError "Lexical errors present" (Some t))).
Proof.
  apply (proj1 lexical_error_first).
  exists (mkToken ERROR "@" 1 2 (Some 1)).
  split; [right; left; reflexivity | reflexivity].
Defined.

(* ================================================================= *)
(** ** Reasoning about the methods *)

Section Rules.

Variable tokens : list Token.

Lemma token_at_in_range (pos : nat) :
  tk_type (token_at tokens pos) <> EOF -> pos < List.length tokens.
Proof.
  intros H. destruct (Nat.lt_ge_cases pos (List.length tokens)) as [|Hge];
    [assumption|].
  unfold token_at in H. rewrite nth_overflow in H by assumption.
  contradiction H. reflexivity.
Qed.

Lemma is_kind_in_range (pos : nat) (k : TokenKind) :
  is_kind (token_at tokens pos) k = true -> k <> EOF ->
  remaining tokens (pos + 1) < remaining tokens pos.
Proof.
  unfold is_kind. intros H Hk. apply kind_eqb_eq in H.
  assert (pos < List.length tokens)
    by (apply token_at_in_range; congruence).
  unfold remaining. lia.
Qed.

Lemma completes_bind {A B} (m : M A) (f : A -> M B) (pos : nat)
      (Q1 : A -> nat -> Prop) (Q : B -> nat -> Prop) :
  completes m pos Q1 ->
  (forall a p, Q1 a p -> completes (f a) p Q) ->
  completes (bind m f) pos Q.
Proof.
  intros (o & p & Hm & HQ1) Hf. unfold completes, bind. rewrite Hm.
  destruct o as [a|e].
  - apply Hf. apply HQ1. reflexivity.
  - eexists _, _. split; [reflexivity | discriminate].
Qed.

Lemma completes_ret {A} (a : A) (pos : nat) (Q : A -> nat -> Prop) :
  Q a pos -> completes (ret a) pos Q.
Proof.
  intros H. eexists _, _. split; [reflexivity|]. intros a' [= <-]. exact H.
Qed.

Lemma completes_raise {A} (e : exn) (pos : nat) (Q : A -> nat -> Prop) :
  completes (raise e) pos Q.
Proof.
  eexists _, _. split; [reflexivity | discriminate].
Qed.

Lemma completes_peek (pos : nat) :
  completes (peek tokens) pos
            (fun t p => t = token_at tokens pos /\ p = pos).
Proof.
  eexists _, _. split; [reflexivity|]. intros a [= <-].
  split; reflexivity.
Qed.

Lemma completes_weaken {A} (m : M A) (pos : nat)
      (Q Q' : A -> nat -> Prop) :
  completes m pos Q -> (forall a p, Q a p -> Q' a p) -> completes m pos Q'.
Proof.
  intros (o & p & Hm & HQ) H. exists o, p. split; [assumption|].
  intros a Ha. apply H, HQ, Ha.
Qed.

Lemma completes_consume (ty : TokenKind) (pos : nat) :
  completes (consume tokens (Some ty) None) pos
            (fun t p => t = token_at tokens pos /\ p = pos + 1
                        /\ tk_type t = ty).
Proof.
  unfold completes, consume, bind, peek, ret, raise. cbv beta iota.
  destruct (kind_eqb (tk_type (token_at tokens pos)) ty) eqn:Hty;
    cbv beta iota delta [negb];
    eexists _, _; (split; [reflexivity|]); [|discriminate].
  intros a [= <-]. apply kind_eqb_eq in Hty. repeat split; assumption.
Qed.

Lemma completes_consume_keyword (v : string) (pos : nat) :
  completes (consume tokens (Some KEYWORD) (Some v)) pos
            (fun t p => t = token_at tokens pos /\ p = pos + 1
                        /\ tk_type t = KEYWORD).
Proof.
  unfold completes, consume, bind, peek, ret, raise. cbv beta iota.
  destruct (kind_eqb (tk_type (token_at tokens pos)) KEYWORD) eqn:Hty;
    cbv beta iota delta [negb];
    [|eexists _, _; split; [reflexivity | discriminate]].
  match goal with
  | |- context [if ?c then _ else _] => destruct c
  end;
    eexists _, _; (split; [reflexivity|]); [discriminate|].
  intros a [= <-]. apply kind_eqb_eq in Hty. repeat split; assumption.
Qed.

(** A method that returns is a method that completes. *)
Lemma completes_returns {A} (m : M A) (pos : nat) (Q : A -> nat -> Prop) :
  completes m pos Q -> returns m pos Q.
Proof.
  intros (o & p & Hm & HQ) a p' H. rewrite Hm in H.
  injection H as -> ->. apply HQ. reflexivity.
Qed.

(** *** The unfolding of the recursive methods *)

Lemma binary_loop_S fuel ops operand left :
  binary_loop tokens (S fuel) ops operand left
  = (tok <- peek tokens ;;
     if is_kind tok OP && in_values (tk_value tok) ops then
       op <- consume tokens (Some OP) None ;;
       right <- operand ;;
       binary_loop tokens fuel ops operand
                   (BinaryOp (tk_value op) left right)
     else ret left).
Proof. reflexivity. Qed.

Lemma parse_factor_S fuel :
  parse_factor tokens (S fuel)
  = (tok <- peek tokens ;;
     if is_kind tok NUMBER then
       consume tokens (Some NUMBER) None ;;;
       match py_int (tk_value tok) with
       | Some n => ret (Number n)
       | None => raise ValueError
       end
     else if is_kind tok IDENT then
       consume tokens (Some IDENT) None ;;;
       ret (Ident (tk_value tok))
     else if is_kind tok LPAREN then
       consume tokens (Some LPAREN) None ;;;
       e <- parse_expr tokens fuel ;;
       next <- peek tokens ;;
       if negb (is_kind next RPAREN) then
         raise (ParseError "Missing closing ')'" (Some next))
       else
         consume tokens (Some RPAREN) None ;;;
         ret e
     else raise (ParseError "Unexpected token in factor" (Some tok))).
Proof. reflexivity. Qed.

End Rules.

Ltac step_completes :=
  lazymatch goal with
  | |- completes (bind (peek _) _) _ _ =>
      eapply completes_bind;
      [apply completes_peek | intros ? ? [-> ->] ]
  | |- completes (bind (consume _ (Some _) None) _) _ _ =>
      eapply completes_bind;
      [apply completes_consume | intros ? ? (-> & -> & ?) ]
  | |- completes (bind (consume _ (Some KEYWORD) (Some _)) _) _ _ =>
      eapply completes_bind;
      [apply completes_consume_keyword | intros ? ? (-> & -> & ?) ]
  | |- completes (ret _) _ _ => apply completes_ret
  | |- completes (raise _) _ _ => apply completes_raise
  | |- completes (if ?c then _ else _) _ _ =>
      let H := fresh "Hc" in destruct c eqn:H
  | |- completes (match ?c with Some _ => _ | None => _ end) _ _ =>
      destruct c
  end.

(* ================================================================= *)
(** ** The expression methods end, and consume what they return *)

Section ExprTotal.

Variable tokens : list Token.

Lemma binary_loop_completes (ops : list string) (operand : M expr)
      (R : nat) :
  operand_ok tokens operand R ->
  forall n left pos,
    remaining tokens pos <= R -> remaining tokens pos < n ->
    completes (binary_loop tokens n ops operand left) pos
              (fun _ p' => remaining tokens p' <= remaining tokens pos).
Proof.
  intros Hop. induction n as [|n IH]; intros left pos HR Hn; [lia|].
  rewrite binary_loop_S.
  step_completes. step_completes; [|step_completes; lia].
  apply andb_true_iff in Hc. destruct Hc as [Hop_tok _].
  apply is_kind_in_range in Hop_tok; [|discriminate].
  step_completes.
  eapply completes_bind; [apply Hop; lia|].
  intros right p1 Hp1. cbv beta in Hp1.
  eapply completes_weaken; [apply IH; lia|].
  cbv beta. intros _ p' Hp'. lia.
Qed.

Lemma binary_tier_completes (ops : list string) (operand : M expr)
      (R n : nat) :
  operand_ok tokens operand R -> R < n ->
  operand_ok tokens (binary_tier tokens n ops operand) R.
Proof.
  intros Hop Hn pos HR. unfold binary_tier.
  eapply completes_bind; [apply Hop; assumption|].
  intros left p1 Hp1. cbv beta in Hp1.
  eapply completes_weaken;
    [apply (binary_loop_completes ops operand R Hop); lia|].
  cbv beta. intros _ p' Hp'. lia.
Qed.

Lemma parse_expr_with_completes (factor : M expr) (R n : nat) :
  operand_ok tokens factor R -> R < n ->
  operand_ok tokens (parse_expr_with tokens factor n) R.
Proof.
  intros Hf Hn.
  unfold parse_expr_with, parse_equality_with, parse_relational_with,
    parse_additive_with, parse_term_with.
  repeat (apply binary_tier_completes; [|assumption]). assumption.
Qed.

Lemma parse_factor_completes (fuel : nat) :
  forall pos,
    remaining tokens pos < fuel ->
    completes (parse_factor tokens fuel) pos (fun _ p' => remaining tokens p' < remaining tokens pos).
Proof.
  induction fuel as [|fuel IH]; intros pos Hfuel; [lia|].
  rewrite parse_factor_S.
  step_completes. step_completes; [|step_completes; [|step_completes]].
  - apply is_kind_in_range in Hc; [|discriminate].
    step_completes. step_completes; step_completes. assumption.
  - apply is_kind_in_range in Hc0; [|discriminate].
    step_completes. step_completes. assumption.
  - apply is_kind_in_range in Hc1; [|discriminate].
    step_completes.
    eapply completes_bind.
    { apply (parse_expr_with_completes _ (remaining tokens (pos + 1)) fuel);
        [intros p Hp; apply IH; lia | lia | lia]. }
    intros e p1 Hp1. cbv beta in Hp1.
    step_completes. step_completes; [step_completes|].
    step_completes. step_completes.
    apply negb_false_iff in Hc2.
    apply is_kind_in_range in Hc2; [|discriminate]. lia.
  - step_completes.
Qed.

Lemma parse_expr_completes (fuel pos : nat) :
  remaining tokens pos < fuel ->
  completes (parse_expr tokens fuel) pos (fun _ p' => remaining tokens p' < remaining tokens pos).
Proof.
  intros Hfuel.
  apply (parse_expr_with_completes _ (remaining tokens pos) fuel);
    [intros p Hp; apply parse_factor_completes; lia | assumption | lia].
Qed.

End ExprTotal.

(* ================================================================= *)
(** ** The statement methods end; what they return *)

Section StmtTotal.

Variable tokens : list Token.

Lemma parse_stmt_list_loop_S fuel stmts :
  parse_stmt_list_loop tokens (S fuel) stmts
  = (tok <- peek tokens ;;
     if is_kind tok EOF then ret stmts
     else if is_kind tok KEYWORD && in_values (tk_value tok) ["fi"; "od"]
     then ret stmts
     else if negb (is_kind tok KEYWORD || is_kind tok IDENT) then ret stmts
     else
       s <- parse_stmt tokens fuel ;;
       next <- peek tokens ;;
       (if is_kind next SEMI then consume tokens (Some SEMI) None ;;; ret tt
        else ret tt) ;;;
       parse_stmt_list_loop tokens fuel (stmts ++ [s])).
Proof. reflexivity. Qed.

Lemma parse_stmt_S fuel :
  parse_stmt tokens (S fuel)
  = (tok <- peek tokens ;;
     if is_keyword tok "if" then parse_if tokens fuel
     else if is_keyword tok "do" then parse_do tokens fuel
     else if is_kind tok IDENT then parse_assignment tokens fuel
     else raise (ParseError ("Unexpected token in statement: "
                             ++ kind_name (tk_type tok) ++ " "
                             ++ quoted (tk_value tok))
                            (Some tok))).
Proof. reflexivity. Qed.

Lemma parse_if_S fuel :
  parse_if tokens (S fuel)
  = (consume tokens (Some KEYWORD) (Some "if") ;;;
     guards <- parse_guard_list tokens fuel ;;
     tok <- peek tokens ;;
     if is_keyword tok "fi" then
       consume tokens (Some KEYWORD) (Some "fi") ;;;
       ret (If guards)
     else raise (ParseError "Expected 'fi' to close 'if'" (Some tok))).
Proof. reflexivity. Qed.

Lemma parse_do_S fuel :
  parse_do tokens (S fuel)
  = (consume tokens (Some KEYWORD) (Some "do") ;;;
     guards <- parse_guard_list tokens fuel ;;
     tok <- peek tokens ;;
     if is_keyword tok "od" then
       consume tokens (Some KEYWORD) (Some "od") ;;;
       ret (Do guards)
     else raise (ParseError "Expected 'od' to close 'do'" (Some tok))).
Proof. reflexivity. Qed.

Lemma parse_guard_list_S fuel :
  parse_guard_list tokens (S fuel)
  = (g <- parse_guard tokens fuel ;;
     parse_guard_list_loop tokens fuel [g]).
Proof. reflexivity. Qed.

Lemma parse_guard_list_loop_S fuel guards :
  parse_guard_list_loop tokens (S fuel) guards
  = (tok <- peek tokens ;;
     if is_kind tok BAR then
       consume tokens (Some BAR) None ;;;
       g <- parse_guard tokens fuel ;;
       parse_guard_list_loop tokens fuel (guards ++ [g])
     else ret guards).
Proof. reflexivity. Qed.

Lemma parse_guard_S fuel :
  parse_guard tokens (S fuel)
  = (cond <- parse_expr tokens fuel ;;
     tok <- peek tokens ;;
     (if is_kind tok ARROW then consume tokens (Some ARROW) None ;;; ret tt
      else raise (ParseError "Expected '->' in guard" (Some tok))) ;;;
     body <- parse_stmt_list_loop tokens fuel [] ;;
     ret (Guard cond body)).
Proof. reflexivity. Qed.

(** The optional semicolon after a statement. *)
Lemma skip_semi_completes (p : nat) :
  completes (if is_kind (token_at tokens p) SEMI
             then consume tokens (Some SEMI) None ;;; ret tt
             else ret tt) p
            (fun _ p' => remaining tokens p' <= remaining tokens p).
Proof.
  step_completes.
  - apply is_kind_in_range in Hc; [|discriminate].
    step_completes. step_completes. lia.
  - step_completes. lia.
Qed.

(** A token that is required and consumed, or the error [e]. *)
Lemma expect_completes (k : TokenKind) (e : exn) (p : nat) :
  k <> EOF ->
  completes (if is_kind (token_at tokens p) k
             then consume tokens (Some k) None ;;; ret tt
             else raise e) p
            (fun _ p' => remaining tokens p' < remaining tokens p).
Proof.
  intros Hk. step_completes.
  - apply is_kind_in_range in Hc; [|assumption].
    step_completes. step_completes. lia.
  - step_completes.
Qed.

Lemma parse_assignment_completes (fuel pos : nat) :
  remaining tokens pos <= fuel ->
  completes (parse_assignment tokens fuel) pos (stmt_post tokens pos).
Proof.
  intros Hfuel. unfold parse_assignment.
  eapply completes_bind; [apply completes_consume|].
  intros ident p (-> & -> & Hty).
  assert (Hlt : pos < List.length tokens)
    by (apply token_at_in_range; congruence).
  step_completes.
  eapply completes_bind; [apply expect_completes; discriminate|].
  intros ? p1 Hp1. cbv beta in Hp1.
  eapply completes_bind;
    [apply parse_expr_completes; unfold remaining in *; lia|].
  intros e p2 Hp2. cbv beta in Hp2.
  step_completes. split; [unfold remaining in *; lia | reflexivity].
Qed.

Lemma guarded_nonempty (guards : list guard) :
  guards <> [] ->
  forallb guarded_guard guards = true ->
  negb (Nat.eqb (List.length guards) 0) && forallb guarded_guard guards
  = true.
Proof.
  intros Hne Hg. destruct guards; [contradiction|]. simpl in *. assumption.
Qed.

Ltac rlia := unfold remaining in *; lia.

(** With fuel in proportion to the tokens that are left, every statement
    method ends; a returned statement has consumed tokens and has a guard
    in each of its [If] and [Do] nodes. *)
Lemma stmt_methods_complete (fuel : nat) :
  (forall pos stmts,
      2 * remaining tokens pos + 4 <= fuel ->
      completes (parse_stmt_list_loop tokens fuel stmts) pos
                (stmt_list_post tokens pos stmts))
  /\ (forall pos,
         2 * remaining tokens pos + 3 <= fuel ->
         completes (parse_stmt tokens fuel) pos (stmt_post tokens pos))
  /\ (forall pos,
         2 * remaining tokens pos + 2 <= fuel ->
         completes (parse_if tokens fuel) pos (stmt_post tokens pos))
  /\ (forall pos,
         2 * remaining tokens pos + 2 <= fuel ->
         completes (parse_do tokens fuel) pos (stmt_post tokens pos))
  /\ (forall pos,
         2 * remaining tokens pos + 3 <= fuel ->
         completes (parse_guard_list tokens fuel) pos
                   (guard_list_post tokens pos))
  /\ (forall pos guards,
         2 * remaining tokens pos + 1 <= fuel ->
         completes (parse_guard_list_loop tokens fuel guards) pos
                   (guard_loop_post tokens pos guards))
  /\ (forall pos,
         2 * remaining tokens pos + 2 <= fuel ->
         completes (parse_guard tokens fuel) pos (guard_post tokens pos)).
Proof.
  induction fuel as [|fuel IH]; [repeat split; intros; lia|].
  destruct IH as (IHsl & IHstmt & IHif & IHdo & IHgl & IHgll & IHg).
  repeat split.
  - (* parse_stmt_list *)
    intros pos stmts Hfuel. rewrite parse_stmt_list_loop_S.
    step_completes. unfold stmt_list_post, ends_stmt_list.
    step_completes;
      [step_completes; cbn [orb]; intuition (lia || discriminate)|].
    step_completes;
      [step_completes; cbn [orb]; intuition (lia || discriminate)|].
    step_completes;
      [step_completes; cbn [orb]; intuition (lia || discriminate)|].
    eapply completes_bind; [apply IHstmt; lia|].
    intros s p1 [Hp1 Hs]. step_completes.
    eapply completes_bind; [apply skip_semi_completes|].
    intros ? p2 Hp2. cbv beta in Hp2.
    eapply completes_weaken; [apply IHsl; rlia|].
    intros r p' (H1 & _ & H3). repeat split; try rlia.
    intros Hstmts. apply H3. rewrite forallb_app, Hstmts. simpl.
    rewrite Hs. reflexivity.
  - (* parse_stmt *)
    intros pos Hfuel. rewrite parse_stmt_S.
    step_completes. step_completes; [apply IHif; lia|].
    step_completes; [apply IHdo; lia|].
    step_completes; [apply parse_assignment_completes; rlia|].
    step_completes.
  - (* parse_if *)
    intros pos Hfuel. rewrite parse_if_S.
    step_completes.
    assert (Hlt : pos < List.length tokens)
      by (apply token_at_in_range; congruence).
    eapply completes_bind; [apply IHgl; rlia|].
    intros guards p1 (Hp1 & Hne & Hg). step_completes.
    step_completes; [|step_completes].
    step_completes. step_completes. split; [rlia|].
    apply guarded_nonempty; assumption.
  - (* parse_do *)
    intros pos Hfuel. rewrite parse_do_S.
    step_completes.
    assert (Hlt : pos < List.length tokens)
      by (apply token_at_in_range; congruence).
    eapply completes_bind; [apply IHgl; rlia|].
    intros guards p1 (Hp1 & Hne & Hg). step_completes.
    step_completes; [|step_completes].
    step_completes. step_completes. split; [rlia|].
    apply guarded_nonempty; assumption.
  - (* parse_guard_list *)
    intros pos Hfuel. rewrite parse_guard_list_S.
    eapply completes_bind; [apply IHg; lia|].
    intros g p1 [Hp1 Hg].
    eapply completes_weaken; [apply IHgll; rlia|].
    intros r p' (H1 & H2 & H3). repeat split.
    + rlia.
    + apply H2. discriminate.
    + apply H3. simpl. rewrite Hg. reflexivity.
  - (* parse_guard_list_loop *)
    intros pos guards Hfuel. rewrite parse_guard_list_loop_S.
    step_completes. unfold guard_loop_post.
    step_completes; [|step_completes; intuition lia].
    apply is_kind_in_range in Hc; [|discriminate].
    step_completes.
    eapply completes_bind; [apply IHg; rlia|].
    intros g p1 [Hp1 Hg].
    eapply completes_weaken; [apply IHgll; rlia|].
    intros r p' (H1 & H2 & H3). repeat split.
    + rlia.
    + intros _. apply H2. destruct guards; discriminate.
    + intros Hgs. apply H3. rewrite forallb_app, Hgs. simpl.
      rewrite Hg. reflexivity.
  - (* parse_guard *)
    intros pos Hfuel. rewrite parse_guard_S.
    eapply completes_bind; [apply parse_expr_completes; lia|].
    intros cond p1 Hp1. cbv beta in Hp1. step_completes.
    eapply completes_bind; [apply expect_completes; discriminate|].
    intros ? p2 Hp2. cbv beta in Hp2.
    eapply completes_bind; [apply IHsl; rlia|].
    intros body p3 (H1 & _ & H3). step_completes.
    split; [rlia|]. simpl. apply H3. reflexivity.
Qed.

End StmtTotal.

(* ================================================================= *)
(** ** Running the methods forward *)

Section Eval.

Variable tokens : list Token.

Lemma bind_Return {A B} (m : M A) (f : A -> M B) (pos p1 : nat) (a : A) :
  m pos = Some (Return a, p1) -> bind m f pos = f a p1.
Proof. intros H. unfold bind. rewrite H. reflexivity. Qed.

Lemma bind_Raise {A B} (m : M A) (f : A -> M B) (pos p1 : nat) (e : exn) :
  m pos = Some (Raise e, p1) -> bind m f pos = Some (Raise e, p1).
Proof. intros H. unfold bind. rewrite H. reflexivity. Qed.

Lemma bind_peek {B} (f : Token -> M B) (pos : nat) :
  bind (peek tokens) f pos = f (token_at tokens pos) pos.
Proof. reflexivity. Qed.

Lemma consume_kind (k : TokenKind) (pos : nat) :
  is_kind (token_at tokens pos) k = true ->
  consume tokens (Some k) None pos
  = Some (Return (token_at tokens pos), pos + 1).
Proof.
  unfold is_kind. intros H.
  unfold consume, bind, peek, ret. cbv beta iota. rewrite H. reflexivity.
Qed.

Lemma consume_keyword (v : string) (pos : nat) :
  is_keyword (token_at tokens pos) v = true ->
  consume tokens (Some KEYWORD) (Some v) pos
  = Some (Return (token_at tokens pos), pos + 1).
Proof.
  unfold is_keyword, is_kind. intros H. apply andb_true_iff in H.
  destruct H as [Hk Hv].
  unfold consume, bind, peek, ret. cbv beta iota. rewrite Hk, Hv.
  cbn [negb]. rewrite andb_false_r. reflexivity.
Qed.

Lemma parse_factor_unexpected (fuel pos : nat) :
  is_kind (token_at tokens pos) NUMBER = false ->
  is_kind (token_at tokens pos) IDENT = false ->
  is_kind (token_at tokens pos) LPAREN = false ->
  parse_factor tokens (S fuel) pos
  = Some (Raise (ParseError "Unexpected token in factor"
                   (Some (token_at tokens pos))), pos).
Proof.
  intros H1 H2 H3. rewrite parse_factor_S, bind_peek, H1, H2, H3.
  reflexivity.
Qed.

Lemma binary_tier_Raise (n : nat) (ops : list string) (operand : M expr)
      (pos p1 : nat) (e : exn) :
  operand pos = Some (Raise e, p1) ->
  binary_tier tokens n ops operand pos = Some (Raise e, p1).
Proof. intros H. unfold binary_tier. apply bind_Raise. assumption. Qed.

Lemma parse_expr_Raise (fuel pos p1 : nat) (e : exn) :
  parse_factor tokens fuel pos = Some (Raise e, p1) ->
  parse_expr tokens fuel pos = Some (Raise e, p1).
Proof.
  intros H.
  unfold parse_expr, parse_equality, parse_equality_with,
    parse_relational_with, parse_additive_with, parse_term_with.
  repeat apply binary_tier_Raise. assumption.
Qed.

Lemma keyword_is_no_factor (pos : nat) (v : string) :
  is_keyword (token_at tokens pos) v = true ->
  is_kind (token_at tokens pos) NUMBER = false
  /\ is_kind (token_at tokens pos) IDENT = false
  /\ is_kind (token_at tokens pos) LPAREN = false.
Proof.
  unfold is_keyword, is_kind. intros H. apply andb_true_iff in H.
  destruct H as [Hk _]. apply kind_eqb_eq in Hk. rewrite Hk.
  repeat split; reflexivity.
Qed.

(** A guard list that starts at a keyword has no first guard. *)
Lemma parse_guard_list_at_keyword (fuel pos : nat) (v : string) :
  is_keyword (token_at tokens pos) v = true ->
  parse_guard_list tokens (S (S (S fuel))) pos
  = Some (Raise (ParseError "Unexpected token in factor"
                   (Some (token_at tokens pos))), pos).
Proof.
  intros H. destruct (keyword_is_no_factor pos v H) as (H1 & H2 & H3).
  rewrite parse_guard_list_S. apply bind_Raise.
  rewrite parse_guard_S. apply bind_Raise.
  apply parse_expr_Raise. apply parse_factor_unexpected; assumption.
Qed.

Lemma parse_if_without_guard (fuel pos : nat) :
  is_keyword (token_at tokens pos) "if" = true ->
  is_keyword (token_at tokens (pos + 1)) "fi" = true ->
  parse_if tokens (S (S (S (S fuel)))) pos
  = Some (Raise (ParseError "Unexpected token in factor"
                   (Some (token_at tokens (pos + 1)))), pos + 1).
Proof.
  intros Hif Hfi. rewrite parse_if_S.
  rewrite (bind_Return _ _ _ _ _ (consume_keyword _ _ Hif)).
  apply bind_Raise. apply parse_guard_list_at_keyword with (v := "fi").
  assumption.
Qed.

Lemma parse_do_without_guard (fuel pos : nat) :
  is_keyword (token_at tokens pos) "do" = true ->
  is_keyword (token_at tokens (pos + 1)) "od" = true ->
  parse_do tokens (S (S (S (S fuel)))) pos
  = Some (Raise (ParseError "Unexpected token in factor"
                   (Some (token_at tokens (pos + 1)))), pos + 1).
Proof.
  intros Hdo Hod. rewrite parse_do_S.
  rewrite (bind_Return _ _ _ _ _ (consume_keyword _ _ Hdo)).
  apply bind_Raise. apply parse_guard_list_at_keyword with (v := "od").
  assumption.
Qed.

End Eval.

(** [parse_tokens] ends for every token list, and a program it returns has a
    guard in every [If] and [Do] node. *)
Lemma parse_program_total (tokens : list Token) :
  exists o,
    parse_tokens tokens = Some o
    /\ forall prog, o = Return prog -> guarded_program prog = true.
Proof.
  unfold parse_tokens, parse_tokens_run.
  destruct (lex_errors tokens) as [|first rest].
  - destruct (stmt_methods_complete (tokens ++ [EOF_token])
                                    (fuel_for tokens))
      as (Hsl & _).
    destruct (Hsl 0 []) as (o & p & Hrun & Hpost).
    { unfold remaining, fuel_for. rewrite length_app. simpl. lia. }
    unfold parse_program, parse_stmt_list, bind. rewrite Hrun.
    destruct o as [body|e]; simpl.
    + eexists. split; [reflexivity|]. intros prog [= <-].
      apply (Hpost body eq_refl). reflexivity.
    + eexists. split; [reflexivity | discriminate].
  - simpl. eexists. split; [reflexivity | discriminate].
Qed.

(** C6. Every [If] and every [Do] node of a program that [parse_tokens]
    returns has at least one guard, at every depth; and where [if] is
    immediately followed by [fi], or [do] by [od], the statement is not
    parsed: the guard list raises a [ParseError] at the closing keyword. *)
Theorem if_do_have_guards :
  (forall tokens prog,
      parse_tokens tokens = Some (Return prog) ->
      guarded_program prog = true)
  /\ (forall tokens fuel pos,
         4 <= fuel ->
         is_keyword (token_at tokens pos) "if" = true ->
         is_keyword (token_at tokens (pos + 1)) "fi" = true ->
         parse_if tokens fuel pos
         = Some (Raise (ParseError "Unexpected token in factor"
                          (Some (token_at tokens (pos + 1)))), pos + 1))
  /\ (forall tokens fuel pos,
         4 <= fuel ->
         is_keyword (token_at tokens pos) "do" = true ->
         is_keyword (token_at tokens (pos + 1)) "od" = true ->
         parse_do tokens fuel pos
         = Some (Raise (ParseError "Unexpected token in factor"
                          (Some (token_at tokens (pos + 1)))), pos + 1))
  /\ parse_source "if fi"
     = Some (Raise (ParseError "Unexpected token in factor"
                      (Some (mkToken KEYWORD "fi" 1 4 (Some 3)))))
  /\ parse_source "x := 0; do od"
     = Some (Raise (ParseError "Unexpected token in factor"
                      (Some (mkToken KEYWORD "od" 1 12 (Some 11))))).
Proof.
  split; [|split; [|split; [|split; reflexivity]]].
  - intros tokens prog H.
    destruct (parse_program_total tokens) as (o & Ho & Hg).
    rewrite H in Ho. injection Ho as <-. apply Hg. reflexivity.
  - intros tokens fuel pos Hfuel Hif Hfi.
    do 4 (destruct fuel as [|fuel]; [lia|]).
    apply parse_if_without_guard; assumption.
  - intros tokens fuel pos Hfuel Hdo Hod.
    do 4 (destruct fuel as [|fuel]; [lia|]).
    apply parse_do_without_guard; assumption.
Qed.

(** A program with a loop in a selection, and [if fi]. *)
Lemma if_do_have_guards_witness :
  guarded_program
    (Program [If [Guard (Ident "a") [Do [Guard (Ident "b") []]]]]) = true
  /\ parse_if [mkToken KEYWORD "if" 1 1 (Some 0);
               mkToken KEYWORD "fi" 1 4 (Some 3); EOF_token] 4 0
     = Some (Raise (ParseError "Unexpected token in factor"
                      (Some (mkToken KEYWORD "fi" 1 4 (Some 3)))), 1).
Proof.
  split.
  - apply (proj1 if_do_have_guards
                 [mkToken KEYWORD "if" 1 1 (Some 0);
                  mkToken IDENT "a" 1 4 (Some 3);
                  mkToken ARROW "->" 1 6 (Some 5);
                  mkToken KEYWORD "do" 1 9 (Some 8);
                  mkToken IDENT "b" 1 12 (Some 11);
                  mkToken ARROW "->" 1 14 (Some 13);
                  mkToken KEYWORD "od" 1 17 (Some 16);
                  mkToken KEYWORD "fi" 1 20 (Some 19)]).
    vm_compute. reflexivity.
  - apply (proj1 (proj2 if_do_have_guards)
                 [mkToken KEYWORD "if" 1 1 (Some 0);
                  mkToken KEYWORD "fi" 1 4 (Some 3); EOF_token] 4 0);
      [lia | reflexivity | reflexivity].
Defined.

(* ================================================================= *)
(** ** What a method that returned has done *)

Lemma bind_inv {A B} (m : M A) (f : A -> M B) (pos p' : nat) (b : B) :
  bind m f pos = Some (Return b, p') ->
  exists a p1, m pos = Some (Return a, p1) /\ f a p1 = Some (Return b, p').
Proof.
  unfold bind. destruct (m pos) as [[[a|e] p1]|]; try discriminate.
  intros H. exists a, p1. split; [reflexivity | assumption].
Qed.

Lemma stmt_list_loop_ends (tokens : list Token) (fuel : nat)
      (stmts : list stmt) (pos : nat) :
  ends_stmt_list (token_at tokens pos) = true ->
  parse_stmt_list_loop tokens (S fuel) stmts pos = Some (Return stmts, pos).
Proof.
  intros H. rewrite parse_stmt_list_loop_S, bind_peek.
  unfold ends_stmt_list in H.
  destruct (is_kind (token_at tokens pos) EOF); [reflexivity|].
  destruct (is_kind (token_at tokens pos) KEYWORD
            && in_values (tk_value (token_at tokens pos)) ["fi"; "od"]);
    [reflexivity|].
  simpl in H. rewrite H. reflexivity.
Qed.

Lemma consume_inv (tokens : list Token) (k : TokenKind) (v : option string)
      (pos p' : nat) (t : Token) :
  consume tokens (Some k) v pos = Some (Return t, p') ->
  t = token_at tokens pos /\ p' = pos + 1
  /\ is_kind (token_at tokens pos) k = true.
Proof.
  unfold consume, is_kind. rewrite bind_peek.
  destruct (kind_eqb (tk_type (token_at tokens pos)) k); cbn [negb];
    [|discriminate].
  unfold bind at 1. unfold ret at 1.
  destruct v as [v|].
  - destruct (negb (String.eqb v "")
              && negb (String.eqb (tk_value (token_at tokens pos)) v));
      [discriminate|].
    intros [= <- <-]. repeat split.
  - intros [= <- <-]. repeat split.
Qed.

(** Inversion of a hypothesis that a method returned. *)
Ltac returned H :=
  repeat first
    [ rewrite bind_peek in H
    | let a := fresh "a" in
      let p := fresh "p" in
      let Hm := fresh "Hm" in
      apply bind_inv in H; destruct H as (a & p & Hm & H) ].

(* ================================================================= *)
(** ** Precedence and associativity *)

Lemma tier_of_ops (k : nat) (op : string) :
  k < 4 -> in_values op (tier_ops k) = true -> tier_of op = Some k.
Proof.
  intros Hk H. unfold in_values in H. apply existsb_exists in H.
  destruct H as (v & Hin & Heq). apply String.eqb_eq in Heq. subst v.
  do 4 (destruct k as [|k]; [simpl in Hin; intuition (subst; reflexivity)|]).
  lia.
Qed.

Lemma binds_looser (e : expr) (k k' : nat) :
  k <= k' -> binds k' e = true -> binds k e = true.
Proof.
  intros Hk. destruct e as [n|x|op e1 e2]; try reflexivity.
  cbn [binds]. destruct (tier_of op) as [j|]; [|discriminate].
  rewrite !andb_true_iff, !Nat.leb_le. intuition lia.
Qed.

(** A token is an operator of the grammar when it is one of a tier. *)
Lemma no_tier_operator (tok : Token) (k : nat) :
  continues_expr tok = false ->
  is_kind tok OP && in_values (tk_value tok) (tier_ops k) = false.
Proof.
  unfold continues_expr. destruct (is_kind tok OP); [|reflexivity].
  cbn [andb]. intros H.
  destruct (in_values (tk_value tok) (tier_ops k)) eqn:E; [|reflexivity].
  rewrite <- H. symmetry. unfold in_values in *.
  apply existsb_exists in E. destruct E as (x & Hin & Heq).
  apply String.eqb_eq in Heq. subst x.
  apply existsb_exists. exists (tk_value tok).
  split; [|apply String.eqb_refl].
  do 4 (destruct k as [|k]; [simpl in Hin |- *; intuition|]).
  destruct Hin.
Qed.

Lemma no_operator (tok : Token) :
  (forall k, k < 4 ->
             is_kind tok OP && in_values (tk_value tok) (tier_ops k) = false) ->
  continues_expr tok = false.
Proof.
  unfold continues_expr. destruct (is_kind tok OP); [|reflexivity].
  cbn [andb]. intros H.
  destruct (in_values (tk_value tok) operators) eqn:E; [|reflexivity].
  unfold in_values in E. apply existsb_exists in E.
  destruct E as (x & Hin & Heq). apply String.eqb_eq in Heq. subst x.
  assert (Hsome : exists k, k < 4
                            /\ in_values (tk_value tok) (tier_ops k) = true).
  { simpl in Hin.
    repeat (destruct Hin as [Hin|Hin];
            [rewrite <- Hin;
             first [ exists 0; split; [lia | reflexivity]
                   | exists 1; split; [lia | reflexivity]
                   | exists 2; split; [lia | reflexivity]
                   | exists 3; split; [lia | reflexivity] ]|]).
    destruct Hin. }
  destruct Hsome as (k & Hk & Hin'). rewrite (H k Hk) in Hin'.
  discriminate.
Qed.

Section Grammar.

Variable tokens : list Token.

Lemma derives_moves (k pos p' : nat) (e : expr) :
  derives tokens k pos p' e -> pos < p'.
Proof. induction 1; lia. Qed.

(** The loop of a tier keeps what it has built an expression of the tier. *)
Lemma binary_loop_derives (k : nat) (operand : M expr) :
  k < 4 ->
  (forall pos e p', operand pos = Some (Return e, p') ->
                    derives tokens (S k) pos p' e) ->
  forall n left start pos e p',
    derives tokens k start pos left ->
    binary_loop tokens n (tier_ops k) operand left pos = Some (Return e, p') ->
    derives tokens k start p' e.
Proof.
  intros Hk Hop. induction n as [|n IH]; intros left start pos e p' Hleft H;
    [discriminate|].
  rewrite binary_loop_S, bind_peek in H.
  destruct (is_kind (token_at tokens pos) OP
            && in_values (tk_value (token_at tokens pos)) (tier_ops k))
    eqn:Hc.
  - returned H.
    destruct (consume_inv _ _ _ _ _ _ Hm) as (-> & -> & _).
    apply (IH _ start _ _ _ (derives_binary tokens k start pos p0 left a0
                               Hk Hleft Hc (Hop _ _ _ Hm0)) H).
  - injection H as <- <-. assumption.
Qed.

Lemma binary_tier_derives (k : nat) (operand : M expr) (n : nat) :
  k < 4 ->
  (forall pos e p', operand pos = Some (Return e, p') ->
                    derives tokens (S k) pos p' e) ->
  forall pos e p',
    binary_tier tokens n (tier_ops k) operand pos = Some (Return e, p') ->
    derives tokens k pos p' e.
Proof.
  intros Hk Hop pos e p' H. unfold binary_tier in H. returned H.
  apply (binary_loop_derives k operand Hk Hop n a pos p e p'); [|assumption].
  apply derives_tighter; [assumption|]. apply Hop. assumption.
Qed.

Lemma parse_expr_with_derives (factor : M expr) (n : nat) :
  (forall pos e p', factor pos = Some (Return e, p') ->
                    derives tokens 4 pos p' e) ->
  forall pos e p',
    parse_expr_with tokens factor n pos = Some (Return e, p') ->
    derives tokens 0 pos p' e.
Proof.
  intros Hf.
  unfold parse_expr_with, parse_equality_with, parse_relational_with,
    parse_additive_with, parse_term_with.
  apply (binary_tier_derives 0); [lia|].
  apply (binary_tier_derives 1); [lia|].
  apply (binary_tier_derives 2); [lia|].
  apply (binary_tier_derives 3); [lia|].
  assumption.
Qed.

Lemma parse_factor_derives (fuel : nat) :
  forall pos e p',
    parse_factor tokens fuel pos = Some (Return e, p') ->
    derives tokens 4 pos p' e.
Proof.
  induction fuel as [|fuel IH]; intros pos e p' H; [discriminate|].
  rewrite parse_factor_S, bind_peek in H.
  destruct (is_kind (token_at tokens pos) NUMBER) eqn:Hnum.
  { returned H. destruct (consume_inv _ _ _ _ _ _ Hm) as (_ & -> & _).
    destruct (py_int (tk_value (token_at tokens pos))) as [n|] eqn:Hint;
      [|discriminate].
    injection H as <- <-. apply derives_number; assumption. }
  destruct (is_kind (token_at tokens pos) IDENT) eqn:Hid.
  { returned H. destruct (consume_inv _ _ _ _ _ _ Hm) as (_ & -> & _).
    injection H as <- <-. apply derives_ident; assumption. }
  destruct (is_kind (token_at tokens pos) LPAREN) eqn:Hlp; [|discriminate].
  returned H. destruct (consume_inv _ _ _ _ _ _ Hm) as (_ & -> & _).
  destruct (is_kind (token_at tokens p0) RPAREN) eqn:Hrp; [|discriminate].
  cbn [negb] in H. returned H.
  destruct (consume_inv _ _ _ _ _ _ Hm1) as (_ & -> & _).
  injection H as <- <-.
  apply derives_parens; [assumption | | assumption].
  apply (parse_expr_with_derives _ _ IH _ _ _ Hm0).
Qed.

Lemma parse_expr_derives (fuel pos : nat) (e : expr) (p' : nat) :
  parse_expr tokens fuel pos = Some (Return e, p') ->
  derives tokens 0 pos p' e.
Proof.
  apply parse_expr_with_derives. apply parse_factor_derives.
Qed.

(** Without parentheses the tree of an expression binds by the tiers. *)
Lemma derives_binds (k pos p' : nat) (e : expr) :
  derives tokens k pos p' e ->
  (forall i, pos <= i < p' -> is_kind (token_at tokens i) LPAREN = false) ->
  binds k e = true.
Proof.
  induction 1 as [pos n Hnum Hint | pos Hid | pos p1 e Hlp Hd _ Hrp
                  | k pos p' e Hk _ IH
                  | k pos p1 p' e1 e2 Hk H1 IH1 Hop H2 IH2];
    intros Hfree; try reflexivity.
  - apply derives_moves in Hd. rewrite Hfree in Hlp by lia. discriminate.
  - apply (binds_looser e k (S k)); [lia|]. apply IH. assumption.
  - apply derives_moves in H1, H2.
    apply andb_true_iff in Hop. destruct Hop as [_ Hop].
    cbn [binds]. rewrite (tier_of_ops k _ Hk Hop).
    rewrite Nat.leb_refl, IH1, IH2; [reflexivity | |];
      intros i Hi; apply Hfree; lia.
Qed.

End Grammar.

Section Tiers.

Variable tokens : list Token.
Variable ops : list string.
Variable operand : M expr.

Lemma left_nested_cons (left : expr) (op : string) (right : expr)
      (items : list (string * expr)) :
  left_nested left ((op, right) :: items)
  = left_nested (BinaryOp op left right) items.
Proof. reflexivity. Qed.

Lemma binary_loop_left_nested (pos stop : nat)
      (items : list (string * expr)) :
  tier_items tokens ops operand pos items stop ->
  forall left fuel,
    List.length items < fuel ->
    binary_loop tokens fuel ops operand left pos
    = Some (Return (left_nested left items), stop).
Proof.
  induction 1 as [pos Hend | pos right pos1 items stop Hop Hright _ IH];
    intros left fuel Hfuel; (destruct fuel as [|fuel]; [simpl in Hfuel; lia|]);
    rewrite binary_loop_S, bind_peek.
  - rewrite Hend. reflexivity.
  - rewrite Hop. apply andb_true_iff in Hop. destruct Hop as [Hk _].
    rewrite (bind_Return _ _ _ _ _ (consume_kind tokens OP pos Hk)).
    rewrite (bind_Return _ _ _ _ _ Hright).
    rewrite left_nested_cons. apply IH. simpl in Hfuel. lia.
Qed.

Lemma binary_loop_items (fuel : nat) :
  forall left pos e stop,
    binary_loop tokens fuel ops operand left pos = Some (Return e, stop) ->
    exists items,
      tier_items tokens ops operand pos items stop
      /\ e = left_nested left items.
Proof.
  induction fuel as [|fuel IH]; intros left pos e stop H; [discriminate|].
  rewrite binary_loop_S, bind_peek in H.
  destruct (is_kind (token_at tokens pos) OP
            && in_values (tk_value (token_at tokens pos)) ops) eqn:Hop.
  - returned H.
    destruct (consume_inv _ _ _ _ _ _ Hm) as (-> & -> & _).
    destruct (IH _ _ _ _ H) as (items & Hitems & ->).
    eexists. split; [|symmetry; apply left_nested_cons].
    eapply tier_items_more; eassumption.
  - injection H as <- <-. exists []. split; [|reflexivity].
    apply tier_items_end. assumption.
Qed.

End Tiers.

Section Complete.

Variable tokens : list Token.

Lemma derives_tier (k pos p' : nat) (e : expr) :
  derives tokens k pos p' e -> k <= 4.
Proof. induction 1; lia. Qed.

Lemma tier_parser_S (fuel k : nat) :
  k < 4 ->
  tier_parser tokens fuel k
  = binary_tier tokens fuel (tier_ops k) (tier_parser tokens fuel (S k)).
Proof.
  intros Hk. do 4 (destruct k as [|k]; [reflexivity|]). lia.
Qed.

Lemma tiers_disjoint (tok : Token) (k j : nat) :
  k < 4 -> j < 4 -> j <> k ->
  is_kind tok OP && in_values (tk_value tok) (tier_ops k) = true ->
  is_kind tok OP && in_values (tk_value tok) (tier_ops j) = false.
Proof.
  intros Hk Hj Hne Hin.
  destruct (is_kind tok OP && in_values (tk_value tok) (tier_ops j)) eqn:E;
    [|reflexivity].
  apply andb_true_iff in Hin, E.
  pose proof (tier_of_ops k _ Hk (proj2 Hin)) as H1.
  pose proof (tier_of_ops j _ Hj (proj2 E)) as H2.
  congruence.
Qed.

Lemma derived_items_snoc (k pos p1 p' : nat) (items : list (string * expr))
      (e : expr) :
  derived_items tokens k pos items p1 ->
  is_kind (token_at tokens p1) OP
  && in_values (tk_value (token_at tokens p1)) (tier_ops k) = true ->
  derives tokens (S k) (p1 + 1) p' e ->
  derived_items tokens k pos
                (items ++ [(tk_value (token_at tokens p1), e)]) p'.
Proof.
  induction 1 as [pos | pos q r items stop Hop Hr _ IH]; intros Hop1 He.
  - apply (derived_items_cons tokens k pos p' e [] p' Hop1 He).
    apply derived_items_nil.
  - apply (derived_items_cons tokens k pos q r _ p' Hop Hr).
    apply IH; assumption.
Qed.

Lemma derived_items_bounds (k pos stop : nat)
      (items : list (string * expr)) :
  derived_items tokens k pos items stop -> pos + List.length items <= stop.
Proof.
  induction 1 as [pos | pos q r items stop _ Hr _ IH]; simpl; [lia|].
  apply derives_moves in Hr. lia.
Qed.

(** An expression of a binary tier is a first expression of the next tier
    and then operators and expressions of the next tier, nested to the
    left. *)
Lemma derives_flat (k pos p' : nat) (e : expr) :
  derives tokens k pos p' e ->
  k < 4 ->
  exists first p0 items,
    derives tokens (S k) pos p0 first
    /\ derived_items tokens k p0 items p'
    /\ e = left_nested first items.
Proof.
  induction 1 as [pos n _ _ | pos _ | pos p1 e _ _ _ _
                  | k pos p' e _ He _
                  | k pos p1 p' e1 e2 _ _ IH1 Hop H2 _];
    intros Hk; try lia.
  - exists e, p', []. split; [assumption|].
    split; [apply derived_items_nil | reflexivity].
  - destruct (IH1 Hk) as (first & p0 & items & Hf & Hi & ->).
    exists first, p0,
      (items ++ [(tk_value (token_at tokens p1), e2)])%list.
    split; [assumption|].
    split; [apply derived_items_snoc; assumption|].
    unfold left_nested. rewrite fold_left_app. reflexivity.
Qed.

(** Where the grammar finds the operators and expressions of a tier, the
    loop of the tier finds them, when the method of the next tier returns
    the expressions of the next tier. *)
Lemma derived_items_parsed (k : nat) (operand : M expr)
      (items : list (string * expr)) (pos stop : nat) :
  derived_items tokens k pos items stop ->
  k < 4 ->
  stops_tier k (token_at tokens stop) ->
  (forall q q1 e,
      pos <= q -> q1 <= stop ->
      derives tokens (S k) q q1 e ->
      stops_tier (S k) (token_at tokens q1) ->
      operand q = Some (Return e, q1)) ->
  tier_items tokens (tier_ops k) operand pos items stop.
Proof.
  induction 1 as [pos | pos q r items stop Hop Hr Hitems IH];
    intros Hk Hstop Hoperand.
  - apply tier_items_end. apply Hstop; lia.
  - pose proof (derives_moves _ _ _ _ _ Hr) as Hmove.
    pose proof (derived_items_bounds _ _ _ _ Hitems) as Hbound.
    apply (tier_items_more tokens (tier_ops k) operand pos r q items stop
                           Hop).
    + apply Hoperand; [lia | lia | assumption|].
      inversion Hitems as [? | ? ? ? ? ? Hop1]; subst.
      * intros j Hj Hj4. apply Hstop; lia.
      * intros j Hj Hj4.
        apply (tiers_disjoint _ k j Hk Hj4 ltac:(lia) Hop1).
    + apply IH; [assumption | assumption|].
      intros q0 q1 e Hq0 Hq1. apply Hoperand; lia.
Qed.

Lemma kind_is_one (tok : Token) (k k' : TokenKind) :
  is_kind tok k = true -> k' <> k -> is_kind tok k' = false.
Proof.
  unfold is_kind. intros H Hne. apply kind_eqb_eq in H.
  apply kind_eqb_neq. congruence.
Qed.

Lemma complete_factor (n : nat) :
  (forall pos p' e fuel,
      p' - pos <= n ->
      derives tokens 0 pos p' e ->
      stops_tier 0 (token_at tokens p') ->
      p' - pos < fuel ->
      tier_parser tokens fuel 0 pos = Some (Return e, p')) ->
  forall pos p' e fuel,
    p' - pos <= S n ->
    derives tokens 4 pos p' e ->
    p' - pos < fuel ->
    parse_factor tokens fuel pos = Some (Return e, p').
Proof.
  intros IH pos p' e fuel Hn H Hfuel.
  destruct fuel as [|fuel]; [lia|].
  rewrite parse_factor_S, bind_peek.
  inversion H as [q m Hnum Hint | q Hid | q p1 e0 Hlp Hin Hrp
                  | k q q' e0 Hk | k q p1 q' e1 e2 Hk]; subst; try lia.
  - rewrite Hnum.
    rewrite (bind_Return _ _ _ _ _ (consume_kind tokens NUMBER pos Hnum)).
    rewrite Hint. reflexivity.
  - rewrite (kind_is_one _ _ NUMBER Hid) by discriminate. rewrite Hid.
    rewrite (bind_Return _ _ _ _ _ (consume_kind tokens IDENT pos Hid)).
    reflexivity.
  - rewrite (kind_is_one _ _ NUMBER Hlp) by discriminate.
    rewrite (kind_is_one _ _ IDENT Hlp) by discriminate. rewrite Hlp.
    rewrite (bind_Return _ _ _ _ _ (consume_kind tokens LPAREN pos Hlp)).
    pose proof (derives_moves _ _ _ _ _ Hin) as Hmove.
    assert (Hinner : parse_expr_with tokens (parse_factor tokens fuel) fuel
                                     (pos + 1)
                     = Some (Return e, p1)).
    { apply (IH (pos + 1) p1 e fuel); [lia | assumption | | lia].
      intros j _ _. rewrite (kind_is_one _ _ OP Hrp) by discriminate.
      reflexivity. }
    rewrite (bind_Return _ _ _ _ _ Hinner). rewrite bind_peek.
    rewrite Hrp. cbn [negb].
    rewrite (bind_Return _ _ _ _ _ (consume_kind tokens RPAREN p1 Hrp)).
    reflexivity.
Qed.

Lemma complete_step (n k : nat) :
  k < 4 ->
  (forall pos p' e fuel,
      p' - pos <= n ->
      derives tokens (S k) pos p' e ->
      stops_tier (S k) (token_at tokens p') ->
      p' - pos < fuel ->
      tier_parser tokens fuel (S k) pos = Some (Return e, p')) ->
  forall pos p' e fuel,
    p' - pos <= n ->
    derives tokens k pos p' e ->
    stops_tier k (token_at tokens p') ->
    p' - pos < fuel ->
    tier_parser tokens fuel k pos = Some (Return e, p').
Proof.
  intros Hk HS pos p' e fuel Hn H Hstop Hfuel.
  destruct (derives_flat k pos p' e H Hk)
    as (first & p0 & items & Hfirst & Hitems & ->).
  pose proof (derives_moves _ _ _ _ _ Hfirst) as Hmove.
  pose proof (derived_items_bounds _ _ _ _ Hitems) as Hbound.
  assert (Hparsed :
            tier_items tokens (tier_ops k) (tier_parser tokens fuel (S k))
                       p0 items p').
  { apply derived_items_parsed; [assumption | assumption | assumption|].
    intros q q1 e Hq Hq1 He Hs.
    pose proof (derives_moves _ _ _ _ _ He).
    apply HS; [lia | assumption | assumption | lia]. }
  rewrite (tier_parser_S fuel k Hk). unfold binary_tier.
  assert (Hop : tier_parser tokens fuel (S k) pos
                = Some (Return first, p0)).
  { apply HS; [lia | assumption | | lia].
    inversion Hitems as [? | ? ? ? ? ? Hop1]; subst.
    - intros j Hj Hj4. apply Hstop; lia.
    - intros j Hj Hj4.
      apply (tiers_disjoint _ k j Hk Hj4 ltac:(lia) Hop1). }
  rewrite (bind_Return _ _ _ _ _ Hop).
  apply (binary_loop_left_nested tokens (tier_ops k) _ p0 p' items Hparsed).
  lia.
Qed.

(** The method of a tier returns the tree the grammar gives, from where the
    expression starts up to where it ends, when the token after it is no
    operator of the tier or of a tighter one. *)
Lemma derives_parsed (n : nat) :
  forall k pos p' e fuel,
    p' - pos <= n ->
    derives tokens k pos p' e ->
    stops_tier k (token_at tokens p') ->
    p' - pos < fuel ->
    tier_parser tokens fuel k pos = Some (Return e, p').
Proof.
  induction n as [|n IH].
  - intros k pos p' e fuel Hn H. apply derives_moves in H. lia.
  - assert (H4 : forall pos p' e fuel,
               p' - pos <= S n ->
               derives tokens 4 pos p' e ->
               stops_tier 4 (token_at tokens p') ->
               p' - pos < fuel ->
               tier_parser tokens fuel 4 pos = Some (Return e, p')).
    { intros pos p' e fuel Hn H _ Hfuel.
      apply (complete_factor n (IH 0) pos p' e fuel Hn H Hfuel). }
    pose proof (complete_step (S n) 3 ltac:(lia) H4) as H3.
    pose proof (complete_step (S n) 2 ltac:(lia) H3) as H2.
    pose proof (complete_step (S n) 1 ltac:(lia) H2) as H1.
    pose proof (complete_step (S n) 0 ltac:(lia) H1) as H0.
    intros k pos p' e fuel Hn H.
    pose proof (derives_tier _ _ _ _ H) as Hk.
    do 5 (destruct k as [|k]; [auto|]). lia.
Qed.

Lemma parse_expr_complete (pos p' : nat) (e : expr) (fuel : nat) :
  derives tokens 0 pos p' e ->
  continues_expr (token_at tokens p') = false ->
  p' - pos < fuel ->
  parse_expr tokens fuel pos = Some (Return e, p').
Proof.
  intros H Hno Hfuel.
  apply (derives_parsed (p' - pos) 0 pos p' e fuel (le_n _) H); [|assumption].
  intros j _ _. apply no_tier_operator. assumption.
Qed.

End Complete.

(** C4. The tiers of the expression grammar are nested, equality outermost,
    then relational, additive, multiplicative, and the factor (a number, an
    identifier or an expression in parentheses) innermost, so that an
    operator of a later tier binds tighter.  ["x := 1 + 2 * 3"] parses with
    the product under the sum.  Every tree [parse_expr] returns is the tree
    the grammar with these precedences gives to the tokens consumed; when
    there is no parenthesis among them, an operand in the tree never has a
    looser operator than the operator it stands under, and a right operand
    never one of the same tier.  The other way round, where the grammar
    gives a tree to the tokens from a position up to a token that is no
    operator, [parse_expr] returns that tree.  The tree of ["(1 + 2) * 3"]
    has the sum under the product, and only the parentheses allow that. *)
Theorem precedence_of_operators :
  parse_source "x := 1 + 2 * 3"
  = Some (Return (Program
       [Assign "x" (BinaryOp "+" (Number 1)
                             (BinaryOp "*" (Number 2) (Number 3)))]))
  /\ parse_source "x := 1 * 2 + 3"
     = Some (Return (Program
          [Assign "x" (BinaryOp "+" (BinaryOp "*" (Number 1) (Number 2))
                                (Number 3))]))
  /\ parse_source "x := a == b < c + d * e"
     = Some (Return (Program
          [Assign "x"
             (BinaryOp "==" (Ident "a")
                (BinaryOp "<" (Ident "b")
                   (BinaryOp "+" (Ident "c")
                      (BinaryOp "*" (Ident "d") (Ident "e")))))]))
  /\ parse_source "x := a / b - c >= d != e"
     = Some (Return (Program
          [Assign "x"
             (BinaryOp "!="
                (BinaryOp ">="
                   (BinaryOp "-" (BinaryOp "/" (Ident "a") (Ident "b"))
                             (Ident "c"))
                   (Ident "d"))
                (Ident "e"))]))
  /\ parse_source "x := (1 + 2) * 3"
     = Some (Return (Program
          [Assign "x" (BinaryOp "*" (BinaryOp "+" (Number 1) (Number 2))
                                (Number 3))]))
  /\ (forall tokens fuel,
         parse_expr tokens fuel
         = binary_tier tokens fuel ["=="; "!="]
             (binary_tier tokens fuel ["<"; ">"; "<="; ">="]
                (binary_tier tokens fuel ["+"; "-"]
                   (binary_tier tokens fuel ["*"; "/"]
                      (parse_factor tokens fuel)))))
  /\ (forall tokens fuel pos e p',
         parse_expr tokens fuel pos = Some (Return e, p') ->
         derives tokens 0 pos p' e)
  /\ (forall tokens fuel pos e p',
         parse_expr tokens fuel pos = Some (Return e, p') ->
         (forall i, pos <= i < p' ->
                    is_kind (token_at tokens i) LPAREN = false) ->
         binds 0 e = true)
  /\ (forall tokens fuel pos e p',
         derives tokens 0 pos p' e ->
         continues_expr (token_at tokens p') = false ->
         p' - pos < fuel ->
         parse_expr tokens fuel pos = Some (Return e, p'))
  /\ binds 0 (BinaryOp "+" (Number 1) (BinaryOp "*" (Number 2) (Number 3)))
     = true
  /\ binds 0 (BinaryOp "*" (BinaryOp "+" (Number 1) (Number 2)) (Number 3))
     = false
  /\ binds 0 (BinaryOp "-" (Number 1) (BinaryOp "-" (Number 2) (Number 3)))
     = false.
Proof.
  do 6 (split; [reflexivity|]).
  split; [intros tokens fuel pos e p'; apply parse_expr_derives|].
  split; [|split; [|repeat split; reflexivity]].
  - intros tokens fuel pos e p' H Hfree.
    apply (derives_binds tokens 0 pos p' e); [|assumption].
    apply (parse_expr_derives tokens fuel pos e p' H).
  - intros tokens fuel pos e p'. apply parse_expr_complete.
Qed.

(** The expression of ["a + b * c"], which has no parenthesis. *)
Lemma precedence_of_operators_witness :
  let tokens := [mkToken IDENT "a" 1 1 (Some 0); mkToken OP "+" 1 3 (Some 2);
                 mkToken IDENT "b" 1 5 (Some 4); mkToken OP "*" 1 7 (Some 6);
                 mkToken IDENT "c" 1 9 (Some 8); EOF_token] in
  parse_expr tokens 2 0
  = Some (Return (BinaryOp "+" (Ident "a")
                           (BinaryOp "*" (Ident "b") (Ident "c"))), 5)
  /\ derives tokens 0 0 5
             (BinaryOp "+" (Ident "a") (BinaryOp "*" (Ident "b") (Ident "c")))
  /\ binds 0 (BinaryOp "+" (Ident "a") (BinaryOp "*" (Ident "b") (Ident "c")))
     = true.
Proof.
  intros tokens.
  assert (Hrun : parse_expr tokens 2 0
                 = Some (Return (BinaryOp "+" (Ident "a")
                                   (BinaryOp "*" (Ident "b") (Ident "c"))), 5))
    by reflexivity.
  split; [exact Hrun|]. split.
  - exact (proj1 (proj2 (proj2 (proj2 (proj2 (proj2 (proj2
             precedence_of_operators))))))
             tokens 2 0 _ 5 Hrun).
  - refine (proj1 (proj2 (proj2 (proj2 (proj2 (proj2 (proj2 (proj2
              precedence_of_operators)))))))
              tokens 2 0 _ 5 Hrun _).
    intros i Hi.
    do 5 (destruct i as [|i]; [reflexivity|]). lia.
Defined.

(** C5. Every binary tier nests to the left.  A tier that parses its first
    operand and then finds the operators and operands [items] returns
    [left_nested first items], and whatever a tier returns has this form;
    the four tiers of the grammar are such tiers.  ["x := 1 - 2 - 3"] parses
    to [(1 - 2) - 3]. *)
Theorem binary_tiers_nest_left :
  parse_source "x := 1 - 2 - 3"
  = Some (Return (Program
       [Assign "x" (BinaryOp "-" (BinaryOp "-" (Number 1) (Number 2))
                             (Number 3))]))
  /\ parse_source "x := 8 / 4 * 2 / 1 == a < b > c != d"
     = Some (Return (Program
          [Assign "x"
             (BinaryOp "!="
                (BinaryOp "=="
                   (BinaryOp "/"
                      (BinaryOp "*" (BinaryOp "/" (Number 8) (Number 4))
                                (Number 2))
                      (Number 1))
                   (BinaryOp ">" (BinaryOp "<" (Ident "a") (Ident "b"))
                             (Ident "c")))
                (Ident "d"))]))
  /\ (forall tokens ops operand fuel pos first p1 items stop,
         operand pos = Some (Return first, p1) ->
         tier_items tokens ops operand p1 items stop ->
         List.length items < fuel ->
         binary_tier tokens fuel ops operand pos
         = Some (Return (left_nested first items), stop))
  /\ (forall tokens ops operand fuel pos e stop,
         binary_tier tokens fuel ops operand pos = Some (Return e, stop) ->
         exists first p1 items,
           operand pos = Some (Return first, p1)
           /\ tier_items tokens ops operand p1 items stop
           /\ e = left_nested first items)
  /\ (forall a op1 b op2 c,
         left_nested a [(op1, b); (op2, c)]
         = BinaryOp op2 (BinaryOp op1 a b) c)
  /\ (forall tokens factor fuel,
         parse_term_with tokens factor fuel
         = binary_tier tokens fuel ["*"; "/"] factor
         /\ parse_additive_with tokens factor fuel
            = binary_tier tokens fuel ["+"; "-"]
                          (parse_term_with tokens factor fuel)
         /\ parse_relational_with tokens factor fuel
            = binary_tier tokens fuel ["<"; ">"; "<="; ">="]
                          (parse_additive_with tokens factor fuel)
         /\ parse_equality_with tokens factor fuel
            = binary_tier tokens fuel ["=="; "!="]
                          (parse_relational_with tokens factor fuel)).
Proof.
  split; [reflexivity|]. split; [reflexivity|]. split; [|split; [|split]].
  - intros tokens ops operand fuel pos first p1 items stop Hfirst Hitems Hfuel.
    unfold binary_tier. rewrite (bind_Return _ _ _ _ _ Hfirst).
    apply binary_loop_left_nested; assumption.
  - intros tokens ops operand fuel pos e stop H. unfold binary_tier in H.
    apply bind_inv in H. destruct H as (first & p1 & Hfirst & H).
    destruct (binary_loop_items _ _ _ _ _ _ _ _ H) as (items & Hitems & ->).
    exists first, p1, items. repeat split; assumption.
  - reflexivity.
  - intros tokens factor fuel. repeat split; reflexivity.
Qed.

(** The additive tier on the tokens of ["1 - 2 - 3"]. *)
Lemma binary_tiers_nest_left_witness :
  let tokens := [mkToken NUMBER "1" 1 1 (Some 0); mkToken OP "-" 1 3 (Some 2);
                 mkToken NUMBER "2" 1 5 (Some 4); mkToken OP "-" 1 7 (Some 6);
                 mkToken NUMBER "3" 1 9 (Some 8); EOF_token] in
  binary_tier tokens 3 ["+"; "-"] (parse_term tokens 3) 0
  = Some (Return (BinaryOp "-" (BinaryOp "-" (Number 1) (Number 2))
                           (Number 3)), 5).
Proof.
  intros tokens.
  apply (proj1 (proj2 (proj2 binary_tiers_nest_left))
               tokens ["+"; "-"] (parse_term tokens 3) 3 0 (Number 1) 1
               [("-", Number 2); ("-", Number 3)] 5).
  - reflexivity.
  - apply (tier_items_more tokens ["+"; "-"] (parse_term tokens 3)
                           1 (Number 2) 3 [("-", Number 3)] 5);
      [reflexivity | reflexivity |].
    apply (tier_items_more tokens ["+"; "-"] (parse_term tokens 3)
                           3 (Number 3) 5 [] 5);
      [reflexivity | reflexivity |].
    apply tier_items_end. reflexivity.
  - simpl. lia.
Defined.

(* ================================================================= *)
(** ** Tokens after the end of a statement list are not looked at *)

(** The optional semicolon after a statement. *)
Lemma skip_semi_spec (tokens : list Token) (p p0 : nat) (a : unit) :
  (if is_kind (token_at tokens p) SEMI
   then consume tokens (Some SEMI) None ;;; ret tt
   else ret tt) p = Some (Return a, p0)
  <-> p0 = (if is_kind (token_at tokens p) SEMI then p + 1 else p).
Proof.
  destruct a. destruct (is_kind (token_at tokens p) SEMI) eqn:Hsemi.
  - rewrite (bind_Return _ _ _ _ _ (consume_kind tokens SEMI p Hsemi)).
    unfold ret. split; [intros [= <-]; reflexivity | intros ->; reflexivity].
  - unfold ret. split; [intros [= <-]; reflexivity | intros ->; reflexivity].
Qed.

Lemma ends_operand_kinds (tok : Token) :
  ends_operand tok = true ->
  is_kind tok KEYWORD = false /\ is_kind tok SEMI = false.
Proof.
  unfold ends_operand, is_kind.
  destruct (tk_type tok); simpl; intros H; try discriminate H;
    split; reflexivity.
Qed.

Lemma keyword_is_no_semi (tok : Token) :
  is_kind tok KEYWORD = true -> is_kind tok SEMI = false.
Proof.
  unfold is_kind. destruct (tk_type tok); simpl; intros H;
    try discriminate H; reflexivity.
Qed.

Section Ends.

Variable tokens : list Token.

Lemma derives_last (k pos p' : nat) (e : expr) :
  derives tokens k pos p' e ->
  ends_operand (token_at tokens (p' - 1)) = true.
Proof.
  induction 1 as [pos n Hnum _ | pos Hid | pos p1 e _ _ _ Hrp | |];
    try assumption; unfold ends_operand; rewrite Nat.add_sub.
  - rewrite Hnum. reflexivity.
  - rewrite Hid, orb_true_r. reflexivity.
  - rewrite Hrp. apply orb_true_r.
Qed.

(** When the loop of a tier returns, the next token is no operator of the
    tier, and what held where its last operand ended holds there. *)
Lemma binary_loop_stops (ops : list string) (operand : M expr)
      (Q : nat -> Prop) :
  (forall pos e p', operand pos = Some (Return e, p') -> Q p') ->
  forall n left pos e p',
    Q pos ->
    binary_loop tokens n ops operand left pos = Some (Return e, p') ->
    Q p'
    /\ is_kind (token_at tokens p') OP
       && in_values (tk_value (token_at tokens p')) ops = false.
Proof.
  intros Hop. induction n as [|n IH]; intros left pos e p' HQ H;
    [discriminate|].
  rewrite binary_loop_S, bind_peek in H.
  destruct (is_kind (token_at tokens pos) OP
            && in_values (tk_value (token_at tokens pos)) ops) eqn:Hc.
  - returned H. apply (IH _ _ _ _ (Hop _ _ _ Hm0) H).
  - injection H as <- <-. split; assumption.
Qed.

Lemma binary_tier_stops (ops : list string) (operand : M expr)
      (Q : nat -> Prop) (n : nat) :
  (forall pos e p', operand pos = Some (Return e, p') -> Q p') ->
  forall pos e p',
    binary_tier tokens n ops operand pos = Some (Return e, p') ->
    Q p'
    /\ is_kind (token_at tokens p') OP
       && in_values (tk_value (token_at tokens p')) ops = false.
Proof.
  intros Hop pos e p' H. unfold binary_tier in H. returned H.
  apply (binary_loop_stops ops operand Q Hop n a p e p'
                           (Hop _ _ _ Hm) H).
Qed.

Lemma parse_expr_stops (fuel pos : nat) (e : expr) (p' : nat) :
  parse_expr tokens fuel pos = Some (Return e, p') ->
  continues_expr (token_at tokens p') = false.
Proof.
  intros H.
  unfold parse_expr, parse_equality, parse_expr_with, parse_equality_with,
    parse_relational_with, parse_additive_with, parse_term_with in H.
  pose (T := fun k p =>
               is_kind (token_at tokens p) OP
               && in_values (tk_value (token_at tokens p)) (tier_ops k)
               = false).
  pose proof (binary_tier_stops (tier_ops 3) (parse_factor tokens fuel)
                (fun _ => True) fuel (fun _ _ _ _ => I)) as H3.
  pose proof (binary_tier_stops (tier_ops 2) _ (fun p => True /\ T 3 p)
                fuel H3) as H2.
  pose proof (binary_tier_stops (tier_ops 1) _
                (fun p => (True /\ T 3 p) /\ T 2 p) fuel H2) as H1.
  pose proof (binary_tier_stops (tier_ops 0) _
                (fun p => ((True /\ T 3 p) /\ T 2 p) /\ T 1 p) fuel H1
                pos e p' H) as H0.
  destruct H0 as ((((_ & T3) & T2) & T1) & T0).
  apply no_operator. intros k Hk.
  do 4 (destruct k as [|k]; [assumption|]). lia.
Qed.

(** Where an assignment ends: after the last token of its expression and
    before a token that is no operator. *)
Lemma parse_assignment_end (fuel pos : nat) (s : stmt) (p' : nat) :
  parse_assignment tokens fuel pos = Some (Return s, p') ->
  ends_operand (token_at tokens (p' - 1)) = true
  /\ continues_expr (token_at tokens p') = false.
Proof.
  unfold parse_assignment. intros H. returned H.
  injection H as <- <-. split.
  - apply (derives_last 0 p0 p1 a1).
    apply (parse_expr_derives tokens fuel). assumption.
  - apply (parse_expr_stops fuel p0 a1). assumption.
Qed.

(** Where a statement ends: after [fi] or [od], or as an assignment does. *)
Lemma parse_stmt_end (fuel pos : nat) (s : stmt) (p' : nat) :
  parse_stmt tokens fuel pos = Some (Return s, p') ->
  is_kind (token_at tokens (p' - 1)) KEYWORD = true
  \/ (ends_operand (token_at tokens (p' - 1)) = true
      /\ continues_expr (token_at tokens p') = false).
Proof.
  destruct fuel as [|fuel]; [discriminate|].
  rewrite parse_stmt_S, bind_peek.
  destruct (is_keyword (token_at tokens pos) "if").
  { destruct fuel as [|fuel]; [discriminate|].
    rewrite parse_if_S. intros H. returned H.
    destruct (is_keyword (token_at tokens p0) "fi"); [|discriminate].
    returned H. destruct (consume_inv _ _ _ _ _ _ Hm1) as (_ & -> & Hk).
    injection H as <- <-. left. rewrite Nat.add_sub. assumption. }
  destruct (is_keyword (token_at tokens pos) "do").
  { destruct fuel as [|fuel]; [discriminate|].
    rewrite parse_do_S. intros H. returned H.
    destruct (is_keyword (token_at tokens p0) "od"); [|discriminate].
    returned H. destruct (consume_inv _ _ _ _ _ _ Hm1) as (_ & -> & Hk).
    injection H as <- <-. left. rewrite Nat.add_sub. assumption. }
  destruct (is_kind (token_at tokens pos) IDENT); [|discriminate].
  intros H. right. apply (parse_assignment_end fuel pos s p' H).
Qed.

(** The loop of [parse_stmt_list] returns at a token at which a list ends,
    and either at once or where that token is not consumed after the token
    before it. *)
Lemma stmt_list_stops (fuel : nat) :
  forall stmts pos r p',
    parse_stmt_list_loop tokens fuel stmts pos = Some (Return r, p') ->
    ends_stmt_list (token_at tokens p') = true
    /\ (p' = pos
        \/ taken_after (token_at tokens (p' - 1)) (token_at tokens p')
           = false).
Proof.
  induction fuel as [|fuel IH]; intros stmts pos r p' H; [discriminate|].
  destruct (ends_stmt_list (token_at tokens pos)) eqn:Hends.
  - rewrite stmt_list_loop_ends in H by assumption.
    injection H as <- <-. split; [assumption | left; reflexivity].
  - rewrite parse_stmt_list_loop_S, bind_peek in H.
    unfold ends_stmt_list in Hends.
    apply orb_false_iff in Hends. destruct Hends as [Hends H3].
    apply orb_false_iff in Hends. destruct Hends as [H1 H2].
    rewrite H1, H2, H3 in H. returned H.
    apply skip_semi_spec in Hm0.
    destruct (IH _ _ _ _ H) as [He Hstop].
    split; [assumption|]. right.
    destruct Hstop as [->|Htaken]; [|assumption].
    unfold taken_after.
    destruct (is_kind (token_at tokens p) SEMI) eqn:Hsemi; subst p0.
    + rewrite Nat.add_sub, Hsemi. reflexivity.
    + rewrite Hsemi. cbn [orb].
      destruct (parse_stmt_end _ _ _ _ Hm) as [Hkw|[Hop Hno]].
      * rewrite Hkw. cbn [negb andb]. apply andb_false_r.
      * rewrite Hno. rewrite !andb_false_r. reflexivity.
Qed.

End Ends.

Section CarryOver.

Variables ts1 ts2 : list Token.
Variable P : nat.
Hypothesis Hagree : agree_until ts1 ts2 P.

Lemma same_token (pos : nat) :
  pos < P -> token_at ts2 pos = token_at ts1 pos.
Proof. intros H. symmetry. apply Hagree. assumption. Qed.

Lemma end_token_kind (k : TokenKind) :
  k <> EOF -> is_kind (token_at ts1 P) k = false.
Proof.
  intros Hk. unfold is_kind. destruct Hagree as (_ & ->).
  apply kind_eqb_neq. congruence.
Qed.

Lemma end_token_keyword (v : string) :
  is_keyword (token_at ts1 P) v = false.
Proof.
  unfold is_keyword. rewrite end_token_kind by discriminate. reflexivity.
Qed.

Lemma position_cases (pos : nat) : pos <= P -> pos < P \/ pos = P.
Proof. lia. Qed.

Lemma carries_if_weaken {A} (c c' : Prop) (m1 m2 : M A) :
  (c' -> c) -> carries_if P c m1 m2 -> carries_if P c' m1 m2.
Proof.
  intros Hc H pos a p' Hle Hrun.
  destruct (H pos a p' Hle Hrun) as (Hq & Hp & Hm).
  split; [assumption|]. split; [assumption|].
  intros [Hlt|Hc']; apply Hm; [left | right; apply Hc]; assumption.
Qed.

Lemma consume_carries (k : TokenKind) (v : option string) (pos p' : nat)
      (a : Token) :
  k <> EOF -> pos <= P ->
  consume ts1 (Some k) v pos = Some (Return a, p') ->
  pos < P /\ p' = pos + 1
  /\ consume ts2 (Some k) v pos = Some (Return a, p').
Proof.
  intros Hk Hle H.
  destruct (consume_inv _ _ _ _ _ _ H) as (_ & Hp' & Hkind).
  destruct (position_cases pos Hle) as [Hlt| ->];
    [|rewrite end_token_kind in Hkind by assumption; discriminate].
  split; [assumption|]. split; [assumption|].
  unfold consume in *. rewrite bind_peek in *.
  rewrite same_token by assumption. assumption.
Qed.

Lemma binary_loop_carries (ops : list string) (c : Prop)
      (operand1 operand2 : M expr) :
  carries_if P c operand1 operand2 ->
  forall n n' left,
    n <= n' ->
    carries_if P
               (c /\ is_kind (token_at ts2 P) OP
                     && in_values (tk_value (token_at ts2 P)) ops = false)
               (binary_loop ts1 n ops operand1 left)
               (binary_loop ts2 n' ops operand2 left).
Proof.
  intros Hop. induction n as [|n IH]; intros n' left Hn pos a p' Hle H;
    [discriminate|].
  destruct n' as [|n']; [lia|].
  rewrite binary_loop_S in H |- *. rewrite bind_peek in H |- *.
  destruct (position_cases pos Hle) as [Hlt| ->].
  - rewrite (same_token pos) by assumption.
    destruct (is_kind (token_at ts1 pos) OP
              && in_values (tk_value (token_at ts1 pos)) ops).
    + returned H.
      destruct (consume_carries OP None _ _ _ ltac:(discriminate) Hle Hm)
        as (_ & -> & Hc).
      destruct (Hop (pos + 1) _ _ ltac:(lia) Hm0) as (Hq0 & Hp0 & Ho).
      destruct (IH n' _ ltac:(lia) _ _ _ Hp0 H) as (Hq1 & Hp1 & Hl).
      split; [lia|]. split; [assumption|]. intros Hcond.
      rewrite (bind_Return _ _ _ _ _ Hc).
      assert (Hcond0 : p0 < P \/ c)
        by (destruct Hcond as [?|[? _]]; [left; lia | right; assumption]).
      rewrite (bind_Return _ _ _ _ _ (Ho Hcond0)).
      apply Hl. assumption.
    + injection H as <- <-. split; [lia|]. split; [lia|].
      intros _. reflexivity.
  - rewrite end_token_kind in H by discriminate. cbn [andb] in H.
    injection H as <- <-. split; [lia|]. split; [lia|].
    intros [Hlt|[_ Hno]]; [lia|]. rewrite Hno. reflexivity.
Qed.

Lemma binary_tier_carries (ops : list string) (c : Prop)
      (operand1 operand2 : M expr) (n n' : nat) :
  carries_if P c operand1 operand2 ->
  n <= n' ->
  carries_if P
             (c /\ is_kind (token_at ts2 P) OP
                   && in_values (tk_value (token_at ts2 P)) ops = false)
             (binary_tier ts1 n ops operand1)
             (binary_tier ts2 n' ops operand2).
Proof.
  intros Hop Hn pos a p' Hle H. unfold binary_tier in *.
  returned H.
  destruct (Hop _ _ _ Hle Hm) as (Hq & Hp & Ho).
  destruct (binary_loop_carries ops c _ _ Hop n n' a0 Hn _ _ _ Hp H)
    as (Hq1 & Hp1 & Hl).
  split; [lia|]. split; [assumption|]. intros Hcond.
  assert (Hcond0 : p < P \/ c)
    by (destruct Hcond as [?|[? _]]; [left; lia | right; assumption]).
  rewrite (bind_Return _ _ _ _ _ (Ho Hcond0)).
  apply Hl. assumption.
Qed.

Lemma parse_expr_with_carries (factor1 factor2 : M expr) (n n' : nat) :
  carries_if P True factor1 factor2 ->
  n <= n' ->
  carries_if P (continues_expr (token_at ts2 P) = false)
             (parse_expr_with ts1 factor1 n)
             (parse_expr_with ts2 factor2 n').
Proof.
  intros Hf Hn.
  unfold parse_expr_with, parse_equality_with, parse_relational_with,
    parse_additive_with, parse_term_with.
  eapply carries_if_weaken; cycle 1.
  - repeat (apply binary_tier_carries; [|assumption]). exact Hf.
  - intros Hc.
    repeat apply conj; try exact I;
      first [ apply (no_tier_operator _ 0 Hc)
            | apply (no_tier_operator _ 1 Hc)
            | apply (no_tier_operator _ 2 Hc)
            | apply (no_tier_operator _ 3 Hc) ].
Qed.

Lemma parse_factor_carries (fuel : nat) :
  forall fuel',
    fuel <= fuel' ->
    carries_if P True (parse_factor ts1 fuel) (parse_factor ts2 fuel').
Proof.
  induction fuel as [|fuel IH]; intros fuel' Hfuel pos a p' Hle H;
    [discriminate|].
  destruct fuel' as [|fuel']; [lia|].
  rewrite parse_factor_S in H |- *. rewrite bind_peek in H |- *.
  destruct (position_cases pos Hle) as [Hlt| ->];
    [|rewrite !end_token_kind in H by discriminate; discriminate].
  rewrite (same_token pos) by assumption.
  destruct (is_kind (token_at ts1 pos) NUMBER).
  { returned H.
    destruct (consume_carries NUMBER None _ _ _ ltac:(discriminate) Hle Hm)
      as (_ & -> & Hc).
    rewrite (bind_Return _ _ _ _ _ Hc).
    destruct (py_int (tk_value (token_at ts1 pos))); [|discriminate].
    injection H as <- <-. split; [lia|]. split; [lia|].
    intros _. reflexivity. }
  destruct (is_kind (token_at ts1 pos) IDENT).
  { returned H.
    destruct (consume_carries IDENT None _ _ _ ltac:(discriminate) Hle Hm)
      as (_ & -> & Hc).
    rewrite (bind_Return _ _ _ _ _ Hc).
    injection H as <- <-. split; [lia|]. split; [lia|].
    intros _. reflexivity. }
  destruct (is_kind (token_at ts1 pos) LPAREN); [|discriminate].
  returned H.
  destruct (consume_carries LPAREN None _ _ _ ltac:(discriminate) Hle Hm)
    as (_ & -> & Hc).
  rewrite (bind_Return _ _ _ _ _ Hc).
  assert (He : carries_if P (continues_expr (token_at ts2 P) = false)
                          (parse_expr ts1 fuel) (parse_expr ts2 fuel'))
    by (apply parse_expr_with_carries; [apply IH|]; lia).
  destruct (He (pos + 1) _ _ ltac:(lia) Hm0) as (Hq0 & Hp0 & Ho).
  destruct (position_cases _ Hp0) as [Hlt0| ->];
    [|rewrite end_token_kind in H by discriminate; discriminate].
  rewrite (bind_Return _ _ _ _ _ (Ho (or_introl Hlt0))). rewrite bind_peek.
  rewrite (same_token p0) by assumption.
  destruct (is_kind (token_at ts1 p0) RPAREN) eqn:Hr; [|discriminate].
  cbn [negb] in H |- *. returned H.
  destruct (consume_carries RPAREN None _ _ _ ltac:(discriminate) Hp0 Hm1)
    as (_ & -> & Hc1).
  rewrite (bind_Return _ _ _ _ _ Hc1).
  injection H as <- <-. split; [lia|]. split; [lia|].
  intros _. reflexivity.
Qed.

Lemma parse_expr_carries (fuel fuel' : nat) :
  fuel <= fuel' ->
  carries_if P (continues_expr (token_at ts2 P) = false)
             (parse_expr ts1 fuel) (parse_expr ts2 fuel').
Proof.
  intros Hfuel.
  apply parse_expr_with_carries; [apply parse_factor_carries|]; assumption.
Qed.

Lemma parse_assignment_carries (fuel fuel' : nat) :
  fuel <= fuel' ->
  carries_if P (continues_expr (token_at ts2 P) = false)
             (parse_assignment ts1 fuel) (parse_assignment ts2 fuel').
Proof.
  intros Hfuel pos a p' Hle H. unfold parse_assignment in *.
  returned H.
  destruct (consume_carries IDENT None _ _ _ ltac:(discriminate) Hle Hm)
    as (Hlt0 & -> & Hc).
  rewrite (bind_Return _ _ _ _ _ Hc). rewrite bind_peek.
  destruct (position_cases (pos + 1) ltac:(lia)) as [Hlt| Heq];
    [|rewrite Heq in Hm0; rewrite end_token_kind in Hm0 by discriminate;
      discriminate].
  rewrite (same_token (pos + 1)) by assumption.
  destruct (is_kind (token_at ts1 (pos + 1)) ASSIGN); [|discriminate].
  returned Hm0.
  destruct (consume_carries ASSIGN None (pos + 1) _ _ ltac:(discriminate)
                            ltac:(lia) Hm2) as (_ & -> & Hc1).
  injection Hm0 as <- <-.
  rewrite (bind_Return _ _ _ _ _
             (bind_Return _ (fun _ => ret tt) _ _ _ Hc1)).
  destruct (parse_expr_carries fuel fuel' Hfuel (pos + 1 + 1) _ _
                              ltac:(lia) Hm1)
    as (Hq2 & Hp2 & He).
  injection H as <- <-. split; [lia|]. split; [assumption|].
  intros Hcond. rewrite (bind_Return _ _ _ _ _ (He Hcond)). reflexivity.
Qed.

Lemma stmt_methods_carry (fuel : nat) :
  (forall fuel' stmts pos a p',
      fuel <= fuel' ->
      pos <= P ->
      parse_stmt_list_loop ts1 fuel stmts pos = Some (Return a, p') ->
      pos <= p' /\ p' <= P
      /\ (p' < P
          \/ (ends_stmt_list (token_at ts2 P) = true
              /\ (pos < P ->
                  taken_after (token_at ts1 (P - 1)) (token_at ts2 P)
                  = false)) ->
          parse_stmt_list_loop ts2 fuel' stmts pos = Some (Return a, p')))
  /\ (forall fuel',
         fuel <= fuel' ->
         carries_if P (is_kind (token_at ts1 (P - 1)) KEYWORD = true
                       \/ continues_expr (token_at ts2 P) = false)
                    (parse_stmt ts1 fuel) (parse_stmt ts2 fuel'))
  /\ (forall fuel', fuel <= fuel' ->
                    carries_if P True (parse_if ts1 fuel)
                               (parse_if ts2 fuel'))
  /\ (forall fuel', fuel <= fuel' ->
                    carries_if P True (parse_do ts1 fuel)
                               (parse_do ts2 fuel'))
  /\ (forall fuel', fuel <= fuel' ->
                    carries_if P False (parse_guard_list ts1 fuel)
                               (parse_guard_list ts2 fuel'))
  /\ (forall fuel' guards,
         fuel <= fuel' ->
         carries_if P False (parse_guard_list_loop ts1 fuel guards)
                    (parse_guard_list_loop ts2 fuel' guards))
  /\ (forall fuel', fuel <= fuel' ->
                    carries_if P False (parse_guard ts1 fuel)
                               (parse_guard ts2 fuel')).
Proof.
  induction fuel as [|fuel IH];
    [repeat apply conj; intros; unfold carries_if; intros; discriminate|].
  destruct IH as (IHsl & IHstmt & IHif & IHdo & IHgl & IHgll & IHg).
  repeat apply conj.
  - (* parse_stmt_list *)
    intros fuel' stmts pos a p' Hfuel Hle H.
    destruct fuel' as [|fuel']; [lia|].
    destruct (ends_stmt_list (token_at ts1 pos)) eqn:Hends.
    + rewrite stmt_list_loop_ends in H by assumption.
      injection H as <- <-. split; [lia|]. split; [assumption|].
      intros Hcond. apply stmt_list_loop_ends.
      destruct (position_cases pos Hle) as [Hlt| ->];
        [rewrite (same_token pos) by assumption; assumption|].
      destruct Hcond as [Hlt|[He _]]; [lia | assumption].
    + destruct (position_cases pos Hle) as [Hlt| ->].
      2:{ unfold ends_stmt_list in Hends.
          destruct Hagree as (_ & Heof). unfold is_kind in Hends.
          rewrite Heof in Hends. discriminate. }
      rewrite parse_stmt_list_loop_S in H |- *.
      rewrite bind_peek in H |- *.
      rewrite (same_token pos) by assumption.
      unfold ends_stmt_list in Hends.
      apply orb_false_iff in Hends. destruct Hends as [Hends H3].
      apply orb_false_iff in Hends. destruct Hends as [H1 H2].
      rewrite H1, H2, H3 in H |- *.
      returned H.
      destruct (IHstmt fuel' ltac:(lia) _ _ _ Hle Hm) as (Hq & Hp & Hs).
      pose proof (parse_stmt_end _ _ _ _ _ Hm) as Hlast.
      apply skip_semi_spec in Hm0.
      assert (Hp0 : p <= p0 /\ p0 <= P).
      { subst p0. destruct (position_cases _ Hp) as [Hlt0| ->].
        - destruct (is_kind (token_at ts1 p) SEMI); lia.
        - rewrite end_token_kind by discriminate. lia. }
      destruct (IHsl fuel' (stmts ++ [a0])%list _ _ _ ltac:(lia)
                     (proj2 Hp0) H) as (Hq1 & Hp1 & Hl).
      split; [lia|]. split; [assumption|]. intros Hcond.
      assert (Hfacts :
                p' < P
                \/ (ends_stmt_list (token_at ts2 P) = true
                    /\ taken_after (token_at ts1 (P - 1)) (token_at ts2 P)
                       = false))
        by (destruct Hcond as [?|[? Ht]];
            [left; assumption | right; split; [assumption | apply Ht; lia]]).
      assert (Hat : p = P ->
                    is_kind (token_at ts2 P) SEMI = false
                    /\ (is_kind (token_at ts1 (P - 1)) KEYWORD = true
                        \/ continues_expr (token_at ts2 P) = false)).
      { intros ->. destruct Hfacts as [?|[_ Htaken]]; [lia|].
        unfold taken_after in Htaken.
        assert (Hns : is_kind (token_at ts1 (P - 1)) SEMI = false)
          by (destruct Hlast as [Hkw|[Hop _]];
              [apply keyword_is_no_semi | apply ends_operand_kinds];
              assumption).
        rewrite Hns in Htaken. cbn [negb andb] in Htaken.
        apply orb_false_iff in Htaken. destruct Htaken as [Hsemi Hrest].
        split; [assumption|].
        destruct (is_kind (token_at ts1 (P - 1)) KEYWORD);
          [left; reflexivity | right; exact Hrest]. }
      assert (Hs2 : parse_stmt ts2 fuel' pos = Some (Return a0, p)).
      { apply Hs. destruct (position_cases _ Hp) as [Hlt0|Heq];
          [left; assumption | right; apply (Hat Heq)]. }
      rewrite (bind_Return _ _ _ _ _ Hs2). rewrite bind_peek.
      assert (Hsemi2 :
                (if is_kind (token_at ts2 p) SEMI
                 then consume ts2 (Some SEMI) None ;;; ret tt
                 else ret tt) p = Some (Return a1, p0)).
      { apply skip_semi_spec. subst p0.
        destruct (position_cases _ Hp) as [Hlt0|Heq].
        - rewrite (same_token p) by assumption. reflexivity.
        - pose proof (proj1 (Hat Heq)) as Hns. subst p.
          rewrite Hns, end_token_kind by discriminate. reflexivity. }
      rewrite (bind_Return _ _ _ _ _ Hsemi2).
      apply Hl. destruct Hfacts as [?|[He Htaken]];
        [left; assumption | right; split; [assumption | intros _; assumption]].
  - (* parse_stmt *)
    intros fuel' Hfuel pos a p' Hle H.
    destruct fuel' as [|fuel']; [lia|].
    pose proof (parse_stmt_end _ _ _ _ _ H) as Hlast.
    rewrite parse_stmt_S in H |- *. rewrite bind_peek in H |- *.
    destruct (position_cases pos Hle) as [Hlt| ->].
    2:{ rewrite !end_token_keyword in H.
        rewrite end_token_kind in H by discriminate. discriminate. }
    rewrite (same_token pos) by assumption.
    destruct (is_keyword (token_at ts1 pos) "if").
    { destruct (IHif fuel' ltac:(lia) _ _ _ Hle H) as (Hq & Hp & Hc).
      split; [assumption|]. split; [assumption|].
      intros _. apply Hc. right. exact I. }
    destruct (is_keyword (token_at ts1 pos) "do").
    { destruct (IHdo fuel' ltac:(lia) _ _ _ Hle H) as (Hq & Hp & Hc).
      split; [assumption|]. split; [assumption|].
      intros _. apply Hc. right. exact I. }
    destruct (is_kind (token_at ts1 pos) IDENT); [|discriminate].
    destruct (parse_assignment_carries fuel fuel' ltac:(lia) _ _ _ Hle H)
      as (Hq & Hp & Hc).
    split; [assumption|]. split; [assumption|].
    intros Hcond. apply Hc.
    destruct Hcond as [Hlt'|[Hkw|Hno]];
      [left; assumption | | right; assumption].
    destruct (position_cases _ Hp) as [Hlt'| ->]; [left; assumption|].
    destruct (parse_assignment_end _ _ _ _ _ H) as [Hop _].
    apply ends_operand_kinds in Hop. destruct Hop as [Hop _].
    rewrite Hop in Hkw. discriminate.
  - (* parse_if *)
    intros fuel' Hfuel pos a p' Hle H.
    destruct fuel' as [|fuel']; [lia|].
    rewrite parse_if_S in H |- *. returned H.
    destruct (consume_carries KEYWORD (Some "if") _ _ _ ltac:(discriminate)
                              Hle Hm) as (Hlt0 & -> & Hc).
    rewrite (bind_Return _ _ _ _ _ Hc).
    destruct (IHgl fuel' ltac:(lia) (pos + 1) _ _ ltac:(lia) Hm0)
      as (Hq0 & Hp0 & Hg).
    destruct (position_cases _ Hp0) as [Hlt| ->];
      [|rewrite end_token_keyword in H; discriminate].
    rewrite (bind_Return _ _ _ _ _ (Hg (or_introl Hlt))). rewrite bind_peek.
    rewrite (same_token p0) by assumption.
    destruct (is_keyword (token_at ts1 p0) "fi"); [|discriminate].
    returned H.
    destruct (consume_carries KEYWORD (Some "fi") _ _ _ ltac:(discriminate)
                              Hp0 Hm1) as (_ & -> & Hc1).
    rewrite (bind_Return _ _ _ _ _ Hc1).
    injection H as <- <-. split; [lia|]. split; [lia|].
    intros _. reflexivity.
  - (* parse_do *)
    intros fuel' Hfuel pos a p' Hle H.
    destruct fuel' as [|fuel']; [lia|].
    rewrite parse_do_S in H |- *. returned H.
    destruct (consume_carries KEYWORD (Some "do") _ _ _ ltac:(discriminate)
                              Hle Hm) as (Hlt0 & -> & Hc).
    rewrite (bind_Return _ _ _ _ _ Hc).
    destruct (IHgl fuel' ltac:(lia) (pos + 1) _ _ ltac:(lia) Hm0)
      as (Hq0 & Hp0 & Hg).
    destruct (position_cases _ Hp0) as [Hlt| ->];
      [|rewrite end_token_keyword in H; discriminate].
    rewrite (bind_Return _ _ _ _ _ (Hg (or_introl Hlt))). rewrite bind_peek.
    rewrite (same_token p0) by assumption.
    destruct (is_keyword (token_at ts1 p0) "od"); [|discriminate].
    returned H.
    destruct (consume_carries KEYWORD (Some "od") _ _ _ ltac:(discriminate)
                              Hp0 Hm1) as (_ & -> & Hc1).
    rewrite (bind_Return _ _ _ _ _ Hc1).
    injection H as <- <-. split; [lia|]. split; [lia|].
    intros _. reflexivity.
  - (* parse_guard_list *)
    intros fuel' Hfuel pos a p' Hle H.
    destruct fuel' as [|fuel']; [lia|].
    rewrite parse_guard_list_S in H |- *. returned H.
    destruct (IHg fuel' ltac:(lia) _ _ _ Hle Hm) as (Hq & Hp & Hg).
    destruct (IHgll fuel' [a0] ltac:(lia) _ _ _ Hp H) as (Hq1 & Hp1 & Hl).
    split; [lia|]. split; [assumption|]. intros Hcond.
    assert (Hlt : p' < P) by (destruct Hcond as [?|[]]; assumption).
    rewrite (bind_Return _ _ _ _ _ (Hg ltac:(left; lia))).
    apply Hl. left. assumption.
  - (* parse_guard_list_loop *)
    intros fuel' guards Hfuel pos a p' Hle H.
    destruct fuel' as [|fuel']; [lia|].
    rewrite parse_guard_list_loop_S in H |- *.
    rewrite bind_peek in H |- *.
    destruct (position_cases pos Hle) as [Hlt| ->].
    + rewrite (same_token pos) by assumption.
      destruct (is_kind (token_at ts1 pos) BAR).
      * returned H.
        destruct (consume_carries BAR None _ _ _ ltac:(discriminate)
                                  Hle Hm) as (_ & -> & Hc).
        rewrite (bind_Return _ _ _ _ _ Hc).
        destruct (IHg fuel' ltac:(lia) (pos + 1) _ _ ltac:(lia) Hm0)
          as (Hq0 & Hp0 & Hg).
        destruct (IHgll fuel' (guards ++ [a1])%list ltac:(lia) _ _ _ Hp0 H)
          as (Hq1 & Hp1 & Hl).
        split; [lia|]. split; [assumption|]. intros Hcond.
        assert (Hlt' : p' < P) by (destruct Hcond as [?|[]]; assumption).
        rewrite (bind_Return _ _ _ _ _ (Hg ltac:(left; lia))).
        apply Hl. left. assumption.
      * injection H as <- <-. split; [lia|]. split; [lia|].
        intros _. reflexivity.
    + rewrite end_token_kind in H by discriminate.
      injection H as <- <-. split; [lia|]. split; [lia|].
      intros [Hlt|[]]. lia.
  - (* parse_guard *)
    intros fuel' Hfuel pos a p' Hle H.
    destruct fuel' as [|fuel']; [lia|].
    rewrite parse_guard_S in H |- *. returned H.
    destruct (parse_expr_carries fuel fuel' ltac:(lia) _ _ _ Hle Hm)
      as (Hq & Hp & He).
    destruct (position_cases _ Hp) as [Hlt| ->];
      [|rewrite end_token_kind in Hm0 by discriminate; discriminate].
    rewrite (bind_Return _ _ _ _ _ (He (or_introl Hlt))). rewrite bind_peek.
    rewrite (same_token p) by assumption.
    destruct (is_kind (token_at ts1 p) ARROW); [|discriminate].
    returned Hm0.
    destruct (consume_carries ARROW None _ _ _ ltac:(discriminate) Hp Hm2)
      as (_ & -> & Hc2).
    injection Hm0 as <- <-.
    rewrite (bind_Return _ _ _ _ _
               (bind_Return _ (fun _ => ret tt) _ _ _ Hc2)).
    destruct (IHsl fuel' [] (p + 1) _ _ ltac:(lia) ltac:(lia) Hm1)
      as (Hq1 & Hp1 & Hb).
    injection H as <- <-. split; [lia|]. split; [assumption|].
    intros Hcond.
    assert (Hlt' : p1 < P) by (destruct Hcond as [?|[]]; assumption).
    rewrite (bind_Return _ _ _ _ _ (Hb (or_introl Hlt'))). reflexivity.
Qed.

End CarryOver.

Lemma lex_errors_app (l1 l2 : list Token) :
  lex_errors (l1 ++ l2) = [] -> lex_errors l1 = [].
Proof.
  unfold lex_errors. rewrite filter_app. intros H.
  apply app_eq_nil in H. apply H.
Qed.

Lemma agree_with_extension (pre rest : list Token) (t : Token) :
  agree_until (pre ++ [EOF_token]) ((pre ++ t :: rest) ++ [EOF_token])
              (List.length pre).
Proof.
  unfold agree_until, token_at. split.
  - intros i Hi. rewrite <- app_assoc.
    rewrite !app_nth1 by assumption. reflexivity.
  - rewrite app_nth2, Nat.sub_diag by lia. reflexivity.
Qed.

Lemma end_of_tokens (tokens : list Token) (pos : nat) :
  token_at tokens (Nat.max pos (List.length tokens)) = EOF_token.
Proof. unfold token_at. apply nth_overflow. lia. Qed.

Lemma agree_with_itself (tokens : list Token) (pos : nat) :
  agree_until tokens tokens (Nat.max pos (List.length tokens)).
Proof.
  split; [reflexivity|]. rewrite end_of_tokens. reflexivity.
Qed.

Lemma taken_after_end (last : Token) : taken_after last EOF_token = false.
Proof.
  unfold taken_after, continues_expr.
  destruct (is_kind last SEMI), (is_kind last KEYWORD); reflexivity.
Qed.

(** More fuel does not change what a statement list returns. *)
Lemma stmt_list_more_fuel (tokens : list Token) (fuel fuel' : nat)
      (stmts r : list stmt) (pos p' : nat) :
  fuel <= fuel' ->
  parse_stmt_list_loop tokens fuel stmts pos = Some (Return r, p') ->
  parse_stmt_list_loop tokens fuel' stmts pos = Some (Return r, p').
Proof.
  intros Hfuel H.
  destruct (stmt_methods_carry _ _ _ (agree_with_itself tokens pos) fuel)
    as (Hcarry & _).
  destruct (Hcarry fuel' stmts pos r p' Hfuel ltac:(lia) H)
    as (_ & _ & Hsame).
  apply Hsame. right. rewrite end_of_tokens.
  split; [reflexivity | intros _; apply taken_after_end].
Qed.

Lemma nth_last (l : list Token) (d : Token) :
  l <> [] -> nth (List.length l - 1) l d = last l d.
Proof.
  induction l as [|a l IH]; intros Hne; [congruence|].
  destruct l as [|b l]; [reflexivity|].
  specialize (IH ltac:(discriminate)).
  cbn [List.length] in IH |- *.
  rewrite Nat.sub_succ, Nat.sub_0_r in IH |- *. exact IH.
Qed.

Lemma token_after (pre rest : list Token) (t : Token) :
  token_at ((pre ++ t :: rest) ++ [EOF_token]) (List.length pre) = t.
Proof.
  unfold token_at. rewrite <- app_assoc.
  rewrite app_nth2, Nat.sub_diag by lia. reflexivity.
Qed.

Lemma token_before (pre rest : list Token) :
  pre <> [] ->
  token_at (pre ++ rest) (List.length pre - 1) = last pre EOF_token.
Proof.
  intros Hne. unfold token_at.
  rewrite app_nth1 by (destruct pre; [congruence | simpl; lia]).
  apply nth_last. assumption.
Qed.

(** What the parser returns on a token list it returns on every list that
    goes on after it, when it stopped before the end of the first list, or
    when the token that comes next terminates the statement list. *)
Lemma parse_prefix_carries (pre rest : list Token) (t : Token)
      (body : list stmt) (stop : nat) :
  lex_errors (pre ++ t :: rest) = [] ->
  parse_tokens_run (fuel_for pre) pre = Some (Return (Program body), stop) ->
  stop < List.length pre \/ terminates_list pre t = true ->
  stop <= List.length pre
  /\ parse_tokens_run (fuel_for (pre ++ t :: rest)) (pre ++ t :: rest)
     = Some (Return (Program body), stop).
Proof.
  intros Hnoerr Hpre Hcond.
  unfold parse_tokens_run in Hpre |- *.
  rewrite Hnoerr. rewrite (lex_errors_app _ _ Hnoerr) in Hpre.
  unfold parse_program, parse_stmt_list in Hpre |- *.
  apply bind_inv in Hpre. destruct Hpre as (body' & p1 & Hsl & Hret).
  injection Hret as <- <-.
  destruct (stmt_methods_carry _ _ _ (agree_with_extension pre rest t)
                               (fuel_for pre))
    as (Hcarry & _).
  destruct (Hcarry (fuel_for (pre ++ t :: rest)) [] 0 body' p1
                   ltac:(unfold fuel_for; rewrite length_app; lia)
                   ltac:(lia) Hsl) as (_ & Hstop & Hsl2).
  split; [assumption|].
  rewrite (bind_Return _ _ _ p1 body'); [reflexivity|].
  apply Hsl2.
  destruct Hcond as [Hlt|Hterm]; [left; assumption | right].
  rewrite token_after. unfold terminates_list in Hterm.
  apply andb_true_iff in Hterm. destruct Hterm as [Hends Hlast].
  split; [assumption|]. intros Hpos.
  rewrite token_before by (destruct pre; [simpl in Hpos; lia | discriminate]).
  destruct pre; [simpl in Hpos; lia|].
  apply negb_true_iff. assumption.
Qed.

(** Where the parser stops with a program, the token there terminates the
    statement list made of the tokens before it. *)
Lemma parse_stops_at_terminator (tokens : list Token) (fuel : nat)
      (prog : program) (stop : nat) :
  parse_tokens_run fuel tokens = Some (Return prog, stop) ->
  stop <= List.length tokens
  /\ terminates_list (firstn stop tokens)
                     (token_at (tokens ++ [EOF_token]) stop) = true.
Proof.
  unfold parse_tokens_run.
  destruct (lex_errors tokens); [|discriminate].
  unfold parse_program, parse_stmt_list. intros H.
  apply bind_inv in H. destruct H as (body & p1 & Hsl & Hret).
  injection Hret as <- <-.
  set (toks := (tokens ++ [EOF_token])%list) in *.
  assert (Hagree : agree_until toks toks (List.length tokens)).
  { split; [reflexivity|]. unfold toks, token_at.
    rewrite app_nth2, Nat.sub_diag by lia. reflexivity. }
  destruct (stmt_methods_carry _ _ _ Hagree fuel) as (Hcarry & _).
  destruct (Hcarry fuel [] 0 body p1 ltac:(lia) ltac:(lia) Hsl)
    as (_ & Hle & _).
  split; [assumption|].
  destruct (stmt_list_stops toks fuel _ _ _ _ Hsl) as [Hends Hstop].
  unfold terminates_list. rewrite Hends. cbn [andb].
  destruct (firstn p1 tokens) as [|a l] eqn:Hfirst; [reflexivity|].
  destruct Hstop as [->|Htaken]; [discriminate Hfirst|].
  rewrite <- Hfirst. apply negb_true_iff. rewrite <- Htaken. f_equal.
  assert (Hpos : 0 < p1) by (destruct p1; [discriminate Hfirst | lia]).
  rewrite <- nth_last by (rewrite Hfirst; discriminate).
  rewrite firstn_length_le by assumption.
  rewrite nth_firstn.
  replace (Nat.ltb (p1 - 1) p1) with true
    by (symmetry; apply Nat.ltb_lt; lia).
  unfold toks, token_at. rewrite app_nth1 by lia. reflexivity.
Qed.

(** C9. [parse_tokens] does not check that the statement list it parsed ends
    at the end of the input.  When the tokens [pre] parse to a program and
    the token after them terminates the statement list, the whole list
    parses to the same program, the parser stopping where it stopped on
    [pre]: that token and all the tokens after it are ignored.  A token
    terminates the list when the loop of [parse_stmt_list] breaks at it and
    it is not consumed before the loop sees it, as the optional semicolon
    after a statement or as an operator after an expression; so any token
    of the kind terminates the list after a semicolon, and any but a
    semicolon after [fi] or [od].  These are the tokens at which the list
    ends: wherever the parser stops with a program, the token there
    terminates the list before it.  When the parser has stopped before the
    end of [pre], whatever comes after [pre] is ignored.  ["x := 1 ) 2"]
    parses to a program of one statement.  After ["x := 1"] a closing
    parenthesis terminates the list; an operator and a semicolon do not,
    they are consumed: ["x := 1 + 2"] is one assignment of a sum and
    ["x := 1 ; y := 2"] two statements. *)
Theorem trailing_tokens_ignored :
  (forall pre t rest body,
      lex_errors (pre ++ t :: rest) = [] ->
      parse_tokens pre = Some (Return (Program body)) ->
      terminates_list pre t = true ->
      parse_tokens (pre ++ t :: rest) = Some (Return (Program body))
      /\ exists stop,
          parse_tokens_run (fuel_for (pre ++ t :: rest)) (pre ++ t :: rest)
          = Some (Return (Program body), stop)
          /\ stop <= List.length pre)
  /\ (forall pre t rest body stop,
         lex_errors (pre ++ t :: rest) = [] ->
         parse_tokens_run (fuel_for pre) pre
         = Some (Return (Program body), stop) ->
         stop < List.length pre ->
         parse_tokens (pre ++ t :: rest) = Some (Return (Program body)))
  /\ (forall tokens prog stop,
         parse_tokens_run (fuel_for tokens) tokens
         = Some (Return prog, stop) ->
         stop <= List.length tokens
         /\ terminates_list (firstn stop tokens)
                            (token_at (tokens ++ [EOF_token]) stop) = true)
  /\ parse_source "x := 1 ) 2" = Some (Return (Program [Assign "x" (Number 1)]))
  /\ parse_source "x := 1 ; ) y := 2"
     = Some (Return (Program [Assign "x" (Number 1)]))
  /\ parse_source "x := 1 fi y := 2"
     = Some (Return (Program [Assign "x" (Number 1)]))
  /\ parse_source "x := 1 | y := 2"
     = Some (Return (Program [Assign "x" (Number 1)]))
  /\ parse_source "do a -> b := 1 od od x := 3"
     = Some (Return (Program [Do [Guard (Ident "a")
                                        [Assign "b" (Number 1)]]]))
  /\ parse_source "x := 1 ; ;"
     = Some (Return (Program [Assign "x" (Number 1)]))
  /\ parse_source "x := 1 ; + y"
     = Some (Return (Program [Assign "x" (Number 1)]))
  /\ parse_source "if a -> b := 1 fi + c"
     = Some (Return (Program [If [Guard (Ident "a")
                                        [Assign "b" (Number 1)]]]))
  /\ (let pre := [mkToken IDENT "x" 1 1 (Some 0);
                  mkToken ASSIGN ":=" 1 3 (Some 2);
                  mkToken NUMBER "1" 1 6 (Some 5)] in
      terminates_list pre (mkToken OP "+" 1 8 (Some 7)) = false
      /\ terminates_list pre (mkToken SEMI ";" 1 8 (Some 7)) = false
      /\ terminates_list pre (mkToken RPAREN ")" 1 8 (Some 7)) = true)
  /\ parse_source "x := 1 + 2"
     = Some (Return (Program [Assign "x" (BinaryOp "+" (Number 1)
                                                   (Number 2))]))
  /\ parse_source "x := 1 ; y := 2"
     = Some (Return (Program [Assign "x" (Number 1);
                              Assign "y" (Number 2)])).
Proof.
  split; [|split; [|split; [|repeat split; reflexivity]]].
  - intros pre t rest body Hnoerr Hpre Hterm.
    unfold parse_tokens in Hpre.
    destruct (parse_tokens_run (fuel_for pre) pre) as [[o stop]|] eqn:Hrun;
      [|discriminate].
    simpl in Hpre. injection Hpre as ->.
    destruct (parse_prefix_carries pre rest t body stop Hnoerr Hrun
                                   (or_intror Hterm)) as [Hstop Hwhole].
    split; [|exists stop; split; assumption].
    unfold parse_tokens. rewrite Hwhole. reflexivity.
  - intros pre t rest body stop Hnoerr Hrun Hlt.
    destruct (parse_prefix_carries pre rest t body stop Hnoerr Hrun
                                   (or_introl Hlt)) as [_ Hwhole].
    unfold parse_tokens. rewrite Hwhole. reflexivity.
  - intros tokens prog stop. apply parse_stops_at_terminator.
Qed.

(** The tokens of ["x := 1 ;"], then [;] and [+ y]. *)
Lemma trailing_tokens_ignored_witness :
  parse_tokens [mkToken IDENT "x" 1 1 (Some 0);
                mkToken ASSIGN ":=" 1 3 (Some 2);
                mkToken NUMBER "1" 1 6 (Some 5);
                mkToken SEMI ";" 1 8 (Some 7);
                mkToken SEMI ";" 1 10 (Some 9);
                mkToken OP "+" 1 12 (Some 11);
                mkToken IDENT "y" 1 14 (Some 13)]
  = Some (Return (Program [Assign "x" (Number 1)])).
Proof.
  exact (proj1 (proj1 trailing_tokens_ignored
                      [mkToken IDENT "x" 1 1 (Some 0);
                       mkToken ASSIGN ":=" 1 3 (Some 2);
                       mkToken NUMBER "1" 1 6 (Some 5);
                       mkToken SEMI ";" 1 8 (Some 7)]
                      (mkToken SEMI ";" 1 10 (Some 9))
                      [mkToken OP "+" 1 12 (Some 11);
                       mkToken IDENT "y" 1 14 (Some 13)]
                      [Assign "x" (Number 1)]
                      eq_refl eq_refl eq_refl)).
Defined.

(* ================================================================= *)
(** ** Where a statement list ends *)

Lemma ends_stmt_list_spec (tok : Token) :
  ends_stmt_list tok = true
  <-> (tk_type tok = EOF
       \/ (tk_type tok = KEYWORD
           /\ (tk_value tok = "fi" \/ tk_value tok = "od"))
       \/ (tk_type tok <> KEYWORD /\ tk_type tok <> IDENT)).
Proof.
  unfold ends_stmt_list, is_kind, in_values. simpl existsb.
  rewrite !orb_true_iff, andb_true_iff, !orb_true_iff, negb_true_iff,
    orb_false_iff, !kind_eqb_eq, !kind_eqb_neq, !String.eqb_eq.
  intuition congruence.
Qed.

(** C3, as the code has it.  The loop of [parse_stmt_list] ends, returning
    the statements so far with the position unchanged, exactly when the next
    token is end-of-input, the keyword [fi] or [od], or a token whose type is
    neither KEYWORD nor IDENT.  On any other token it calls [parse_stmt] and,
    if it returns at all, has consumed input.  The tokens that start a
    statement ([if], [do], an identifier) are among these others, and so is
    every other KEYWORD token ([then], [else]): on such a token the list does
    not end, [parse_stmt] raises ["Unexpected token in statement"]. *)
Theorem stmt_list_ends_by_token_type
        (tokens : list Token) (fuel : nat) (stmts : list stmt) (pos : nat) :
  let tok := token_at tokens pos in
  (ends_stmt_list tok = true
   <-> (tk_type tok = EOF
        \/ (tk_type tok = KEYWORD
            /\ (tk_value tok = "fi" \/ tk_value tok = "od"))
        \/ (tk_type tok <> KEYWORD /\ tk_type tok <> IDENT)))
  /\ (ends_stmt_list tok = true ->
      parse_stmt_list_loop tokens (S fuel) stmts pos
      = Some (Return stmts, pos))
  /\ (ends_stmt_list tok = false ->
      parse_stmt_list_loop tokens (S fuel) stmts pos
      = (s <- parse_stmt tokens fuel ;;
         next <- peek tokens ;;
         (if is_kind next SEMI then consume tokens (Some SEMI) None ;;; ret tt
          else ret tt) ;;;
         parse_stmt_list_loop tokens fuel (stmts ++ [s])) pos
      /\ forall r p',
          parse_stmt_list_loop tokens (S fuel) stmts pos
          = Some (Return r, p') ->
          pos < p')
  /\ (starts_stmt tok = true -> ends_stmt_list tok = false)
  /\ (ends_stmt_list tok = false -> starts_stmt tok = false ->
      tk_type tok = KEYWORD
      /\ parse_stmt_list_loop tokens (S (S fuel)) stmts pos
         = Some (Raise (ParseError ("Unexpected token in statement: KEYWORD "
                                    ++ quoted (tk_value tok))
                                   (Some tok)), pos)).
Proof.
  intros tok. split; [apply ends_stmt_list_spec|].
  split; [apply stmt_list_loop_ends|].
  assert (Hunfold :
    ends_stmt_list tok = false ->
    forall f,
      parse_stmt_list_loop tokens (S f) stmts pos
      = (s <- parse_stmt tokens f ;;
         next <- peek tokens ;;
         (if is_kind next SEMI then consume tokens (Some SEMI) None ;;; ret tt
          else ret tt) ;;;
         parse_stmt_list_loop tokens f (stmts ++ [s])) pos).
  { intros Hends f. rewrite parse_stmt_list_loop_S, bind_peek. fold tok.
    unfold ends_stmt_list in Hends.
    apply orb_false_iff in Hends. destruct Hends as [Hends H3].
    apply orb_false_iff in Hends. destruct Hends as [H1 H2].
    rewrite H1, H2, H3. reflexivity. }
  split; [|split].
  - intros Hends. split; [apply Hunfold; assumption|].
    intros r p' H.
    set (big := Nat.max (S fuel) (2 * remaining tokens pos + 4)).
    apply (stmt_list_more_fuel tokens (S fuel) big) in H; [|unfold big; lia].
    destruct (stmt_methods_complete tokens big) as (Hsl & _).
    assert (Hpost := completes_returns _ _ _
                       (Hsl pos stmts ltac:(unfold big; lia)) _ _ H).
    destruct Hpost as (_ & Hlt & _). specialize (Hlt Hends).
    unfold remaining in Hlt. lia.
  - unfold starts_stmt, ends_stmt_list, is_keyword, is_kind, in_values.
    simpl existsb. intros H.
    destruct (tk_type tok); simpl in *; try discriminate H;
      try reflexivity.
    rewrite orb_false_r in H.
    destruct (String.eqb_spec (tk_value tok) "fi") as [E|_];
      [rewrite E in H; discriminate H|].
    destruct (String.eqb_spec (tk_value tok) "od") as [E|_];
      [rewrite E in H; discriminate H|].
    reflexivity.
  - intros Hends Hstart.
    assert (Hkw : tk_type tok = KEYWORD).
    { unfold starts_stmt, ends_stmt_list, is_keyword, is_kind in *.
      destruct (tk_type tok); simpl in *; try discriminate; reflexivity. }
    split; [assumption|].
    rewrite (Hunfold Hends). apply bind_Raise.
    rewrite parse_stmt_S, bind_peek. fold tok.
    unfold starts_stmt in Hstart.
    apply orb_false_iff in Hstart. destruct Hstart as [Hstart H3].
    apply orb_false_iff in Hstart. destruct Hstart as [H1 H2].
    rewrite H1, H2, H3, Hkw. reflexivity.
Qed.

(** After ["x := 1"] comes the end of the input. *)
Lemma stmt_list_ends_by_token_type_witness :
  parse_stmt_list_loop
    [mkToken IDENT "x" 1 1 (Some 0); mkToken ASSIGN ":=" 1 3 (Some 2);
     mkToken NUMBER "1" 1 6 (Some 5); EOF_token]
    1 [Assign "x" (Number 1)] 3
  = Some (Return [Assign "x" (Number 1)], 3).
Proof.
  exact (proj1 (proj2 (stmt_list_ends_by_token_type
                         [mkToken IDENT "x" 1 1 (Some 0);
                          mkToken ASSIGN ":=" 1 3 (Some 2);
                          mkToken NUMBER "1" 1 6 (Some 5); EOF_token]
                         0 [Assign "x" (Number 1)] 3))
               eq_refl).
Defined.

(** The keyword [then] starts no statement, and a statement list does not
    end at it: the parse fails. *)
Lemma stmt_list_then_counterexample :
  let tok := mkToken KEYWORD "then" 1 1 (Some 0) in
  lex "then" = Some [tok]
  /\ starts_stmt tok = false
  /\ parse_stmt_list [tok; EOF_token] (fuel_for [tok]) 0
     <> Some (Return [], 0)
  /\ parse_stmt_list [tok; EOF_token] (fuel_for [tok]) 0
     = Some (Raise (ParseError "Unexpected token in statement: KEYWORD 'then'"
                      (Some tok)), 0)
  /\ parse_source "then"
     = Some (Raise (ParseError "Unexpected token in statement: KEYWORD 'then'"
                      (Some tok))).
Proof.
  intros tok. repeat split; try reflexivity.
  vm_compute. discriminate.
Qed.

(* ================================================================= *)
(** ** What the matcher matches *)

Section MatcherSound.

Variable code : list ascii.

Lemma slice_empty (a : nat) : slice code a a = [].
Proof. unfold slice. rewrite Nat.sub_diag. reflexivity. Qed.

Lemma slice_one (a : nat) (c : ascii) :
  nth_error code a = Some c -> slice code a (S a) = [c].
Proof.
  intros H. unfold slice. rewrite (skipn_cons _ _ _ H).
  replace (S a - a) with 1 by lia. reflexivity.
Qed.

Lemma slice_length (a b : nat) :
  a <= b <= List.length code -> List.length (slice code a b) = b - a.
Proof.
  intros H. unfold slice. rewrite length_firstn, length_skipn. lia.
Qed.

Lemma slice_app (a b c : nat) :
  a <= b -> b <= c -> c <= List.length code ->
  (slice code a b ++ slice code b c)%list = slice code a c.
Proof.
  intros Hab Hbc Hc.
  unfold slice at 3. rewrite <- (slice_skipn code a b) by lia.
  rewrite firstn_app, slice_length by lia.
  rewrite firstn_all2 by (rewrite slice_length; lia).
  replace (c - a - (b - a)) with (c - b) by lia. reflexivity.
Qed.

Lemma many_sound (p : ascii -> bool) (n : nat) :
  forall pos k e,
    many code p n pos k = Some e ->
    pos <= List.length code ->
    exists pos',
      k pos' = Some e /\ pos <= pos' <= List.length code
      /\ Forall (fun c => p c = true) (slice code pos pos').
Proof.
  induction n as [|n IH]; intros pos k e H Hle; simpl in H.
  - exists pos. rewrite slice_empty. repeat split; (assumption || lia || constructor).
  - assert (Hhere : k pos = Some e ->
               exists pos',
                 k pos' = Some e /\ pos <= pos' <= List.length code
                 /\ Forall (fun c => p c = true) (slice code pos pos')).
    { intros Hk. exists pos. rewrite slice_empty.
      repeat split; (assumption || lia || constructor). }
    destruct (nth_error code pos) as [c|] eqn:Hc; [|auto].
    destruct (p c) eqn:Hp; [|auto].
    destruct (many code p n (S pos) k) as [e'|] eqn:Hm; [|auto].
    injection H as <-.
    assert (Hlt := nth_error_in_range _ _ _ Hc).
    destruct (IH _ _ _ Hm) as (pos' & Hk & Hb & Hall); [lia|].
    exists pos'. repeat split; try assumption; try lia.
    rewrite <- (slice_app pos (S pos) pos') by lia.
    rewrite (slice_one _ _ Hc). constructor; assumption.
Qed.

Lemma run_sound (r : regex) :
  forall pos k e,
    run code r pos k = Some e ->
    pos <= List.length code ->
    exists pos',
      k pos' = Some e /\ pos <= pos' <= List.length code
      /\ lang r (slice code pos pos').
Proof.
  induction r as [c|p|p| |r1 IH1 r2 IH2|r1 IH1 r2 IH2];
    intros pos k e H Hle; simpl in H.
  - destruct (nth_error code pos) as [c'|] eqn:Hc; [|discriminate].
    destruct (Ascii.eqb_spec c' c) as [->|]; [|discriminate].
    assert (Hlt := nth_error_in_range _ _ _ Hc).
    exists (S pos). repeat split; try assumption; try lia.
    simpl. apply slice_one. assumption.
  - destruct (nth_error code pos) as [c'|] eqn:Hc; [|discriminate].
    destruct (p c') eqn:Hp; [|discriminate].
    assert (Hlt := nth_error_in_range _ _ _ Hc).
    exists (S pos). repeat split; try assumption; try lia.
    simpl. exists c'. split; [apply slice_one|]; assumption.
  - apply (many_sound _ _ _ _ _ H Hle).
  - destruct (at_boundary code pos); [|discriminate].
    exists pos. repeat split; try assumption; try lia.
    simpl. apply slice_empty.
  - destruct (IH1 _ _ _ H Hle) as (p1 & Hk1 & Hb1 & Hl1).
    destruct (IH2 _ _ _ Hk1) as (p2 & Hk2 & Hb2 & Hl2); [lia|].
    exists p2. repeat split; try assumption; try lia.
    simpl. exists (slice code pos p1), (slice code p1 p2).
    repeat split; try assumption. symmetry. apply slice_app; lia.
  - destruct (run code r1 pos k) as [e1|] eqn:H1.
    + injection H as <-.
      destruct (IH1 _ _ _ H1 Hle) as (p1 & Hk1 & Hb1 & Hl1).
      exists p1. repeat split; try assumption; try lia.
      simpl. left. assumption.
    + destruct (IH2 _ _ _ H Hle) as (p2 & Hk2 & Hb2 & Hl2).
      exists p2. repeat split; try assumption; try lia.
      simpl. right. assumption.
Qed.

(** A match of the master pattern is a text of the pattern of its kind. *)
Lemma master_regex_sound (pos e : nat) (kind : TokenKind) :
  master_regex code pos = Some (kind, e) ->
  pos <= List.length code ->
  exists r, In (kind, r) TOKEN_SPECS /\ lang r (slice code pos e).
Proof.
  intros H Hle. unfold master_regex in H.
  destruct (first_match_some _ _ _ _ _ H) as (r & Hin & Hm).
  unfold match_end in Hm.
  destruct (run_sound _ _ _ _ Hm Hle) as (pos' & Hk & _ & Hl).
  injection Hk as ->. exists r. split; assumption.
Qed.

End MatcherSound.

Lemma lex_tokens_from (code : string) (toks : list Token) :
  lex code = Some toks ->
  Forall (token_from (list_ascii_of_string code)) toks.
Proof.
  unfold lex, lex_run. intros H.
  destruct (lex_loop _ _ lex_init) as [st|] eqn:Hrun; [|discriminate].
  injection H as <-.
  destruct (lex_loop_tokens _ _ _ _ Hrun) as (more & Hmore & Hall).
  simpl in Hmore. rewrite Hmore. assumption.
Qed.

Ltac break_lang :=
  repeat match goal with
         | H : exists _, _ |- _ => destruct H
         | H : _ /\ _ |- _ => destruct H
         | H : _ \/ _ |- _ => destruct H
         end; subst.

Lemma op_char_operator (c : ascii) :
  is_op_char c = true -> In (String c EmptyString) operators.
Proof.
  unfold is_op_char. rewrite !orb_true_iff, !Ascii.eqb_eq.
  intros H. decompose [or] H; subst; simpl; tauto.
Qed.

Lemma spec_text_well_formed (kind ty : TokenKind) (r : regex)
      (l : list ascii) :
  In (kind, r) TOKEN_SPECS ->
  lang r l ->
  emitted_kind kind = Some ty ->
  well_formed_text ty (string_of_list_ascii l).
Proof.
  intros Hin Hl Hk. unfold well_formed_text.
  rewrite list_ascii_of_string_of_list_ascii.
  simpl in Hin.
  repeat (destruct Hin as [Hin|Hin];
          [injection Hin as <- <-; simpl in Hk; try discriminate Hk;
           injection Hk as <-|]); try contradiction;
    simpl in Hl; break_lang; simpl; try tauto.
  - (* a single operator character *)
    apply (op_char_operator x). assumption.
  - (* NUMBER *)
    split; [discriminate|]. rewrite app_nil_r. constructor; assumption.
  - (* IDENT *)
    eexists _, _. repeat split; eassumption.
  - (* UNKNOWN *)
    eexists. split; [reflexivity|]. intros ->. discriminate.
Qed.

(** X4. The text of every token that [lex] returns has the form of its type:
    the fixed symbols, one of the ten operators, one of the six keywords, a
    non-empty run of digits, a letter or underscore followed by letters,
    digits and underscores, and for an ERROR token a single character that
    is not a newline.  No token has the type of a skipped match (COMMENT,
    NEWLINE, WHITESPACE), UNKNOWN or EOF. *)
Theorem lex_token_texts (code : string) (toks : list Token) (t : Token) :
  lex code = Some toks ->
  In t toks ->
  well_formed_text (tk_type t) (tk_value t).
Proof.
  intros Hlex Hin.
  assert (Hall := lex_tokens_from code toks Hlex).
  rewrite Forall_forall in Hall.
  destruct (Hall t Hin) as (pos & e & kind & _ & Hlt & Hm & Hval & Hk).
  destruct (master_regex_sound _ _ _ _ Hm) as (r & Hr & Hl); [lia|].
  rewrite Hval. unfold text.
  eapply spec_text_well_formed; eassumption.
Qed.

(** The tokens of ["a1 <= 20"]. *)
Lemma lex_token_texts_witness :
  well_formed_text OP "<=" /\ well_formed_text NUMBER "20".
Proof.
  split.
  - apply (lex_token_texts "a1 <= 20" _ (mkToken OP "<=" 1 4 (Some 3))
                           eq_refl).
    right; left; reflexivity.
  - apply (lex_token_texts "a1 <= 20" _ (mkToken NUMBER "20" 1 7 (Some 6))
                           eq_refl).
    right; right; left; reflexivity.
Defined.

(* ================================================================= *)
(** ** Lines, columns and the order of the tokens *)

Lemma in_all_ascii (c : ascii) : In c all_ascii.
Proof.
  unfold all_ascii. apply in_map_iff. exists (nat_of_ascii c).
  split; [apply ascii_nat_embedding|].
  apply in_seq. assert (H := nat_ascii_bounded c). lia.
Qed.

Lemma newline_free_class (p : ascii -> bool) (c : ascii) :
  forallb (fun c => implb (p c) (not_newline c)) all_ascii = true ->
  p c = true -> not_newline c = true.
Proof.
  intros H Hp. rewrite forallb_forall in H.
  specialize (H c (in_all_ascii c)). rewrite Hp in H. exact H.
Qed.

Lemma newline_free_lang (r : regex) :
  forall l,
    newline_free r = true ->
    lang r l ->
    Forall (fun c => not_newline c = true) l.
Proof.
  induction r as [c|p|p| |r1 IH1 r2 IH2|r1 IH1 r2 IH2];
    intros l Hfree Hl; cbn [newline_free lang] in *.
  - subst. constructor; [assumption | constructor].
  - destruct Hl as (c & -> & Hp). constructor; [|constructor].
    eapply newline_free_class; eassumption.
  - eapply Forall_impl; [|exact Hl]. intros c Hp.
    eapply newline_free_class; eassumption.
  - subst. constructor.
  - apply andb_true_iff in Hfree. destruct Hfree as [H1 H2].
    destruct Hl as (l1 & l2 & -> & Hl1 & Hl2).
    apply Forall_app. split; [apply IH1 | apply IH2]; assumption.
  - apply andb_true_iff in Hfree. destruct Hfree as [H1 H2].
    destruct Hl as [Hl|Hl]; [apply IH1 | apply IH2]; assumption.
Qed.

Lemma TOKEN_SPECS_newline_free (kind : TokenKind) (r : regex) :
  In (kind, r) TOKEN_SPECS ->
  kind_eqb kind NEWLINE = false ->
  newline_free r = true.
Proof.
  intros Hin Hk.
  assert (H : forallb (fun spec => kind_eqb (fst spec) NEWLINE
                                   || newline_free (snd spec))
                      TOKEN_SPECS = true) by (vm_compute; reflexivity).
  rewrite forallb_forall in H. specialize (H _ Hin). simpl in H.
  rewrite Hk in H. exact H.
Qed.

Section Positions.

Variable code : list ascii.

Lemma firstn_slice (a b : nat) :
  a <= b -> b <= List.length code ->
  firstn b code = (firstn a code ++ slice code a b)%list.
Proof.
  intros Hab Hb.
  assert (H0 : forall n, slice code 0 n = firstn n code)
    by (intros n; unfold slice; rewrite Nat.sub_0_r; reflexivity).
  rewrite <- !H0. symmetry. apply slice_app; lia.
Qed.

(** Only NEWLINE matches a newline, and nothing else with it. *)
Lemma span_of_newline (pos e : nat) :
  master_regex code pos = Some (NEWLINE, e) ->
  pos <= List.length code ->
  slice code pos e = [newline].
Proof.
  intros Hm Hle.
  destruct (master_regex_sound _ _ _ _ Hm Hle) as (r & Hin & Hl).
  simpl in Hin.
  repeat (destruct Hin as [Hin|Hin]; [try discriminate Hin|]);
    try contradiction.
  injection Hin as <-. exact Hl.
Qed.

Lemma span_without_newline (pos e : nat) (kind : TokenKind) :
  master_regex code pos = Some (kind, e) ->
  pos <= List.length code ->
  kind_eqb kind NEWLINE = false ->
  Forall (fun c => not_newline c = true) (slice code pos e).
Proof.
  intros Hm Hle Hk.
  destruct (master_regex_sound _ _ _ _ Hm Hle) as (r & Hin & Hl).
  eapply newline_free_lang; [|eassumption].
  eapply TOKEN_SPECS_newline_free; eassumption.
Qed.

Lemma count_newline_free (l : list ascii) :
  Forall (fun c => not_newline c = true) l ->
  count_occ ascii_dec l newline = 0.
Proof.
  induction 1 as [|c l Hc _ IH]; [reflexivity|]. simpl.
  destruct (ascii_dec c newline) as [->|_]; [discriminate Hc | assumption].
Qed.

Lemma take_while_app (p : ascii -> bool) (l1 l2 : list ascii) :
  Forall (fun c => p c = true) l1 ->
  take_while p (l1 ++ l2) = (l1 ++ take_while p l2)%list.
Proof.
  induction 1 as [|c l Hc _ IH]; [reflexivity|]. simpl.
  rewrite Hc, IH. reflexivity.
Qed.

(** The line and the column after a match. *)
Lemma position_after_match (pos e : nat) (kind : TokenKind) :
  master_regex code pos = Some (kind, e) ->
  pos <= List.length code ->
  line_at code e
  = (if kind_eqb kind NEWLINE then line_at code pos + 1
     else line_at code pos)%Z
  /\ col_at code e
     = (if kind_eqb kind NEWLINE then 1
        else col_at code pos
             + Z.of_nat (String.length (text code pos e)))%Z.
Proof.
  intros Hm Hle.
  destruct (master_regex_bounds _ _ _ _ Hm Hle) as [Hlt He].
  unfold line_at, col_at.
  rewrite (firstn_slice pos e) by lia.
  rewrite count_occ_app, rev_app_distr.
  destruct (kind_eqb kind NEWLINE) eqn:Hk.
  - apply kind_eqb_eq in Hk. subst kind.
    rewrite (span_of_newline _ _ Hm Hle).
    assert (Hone : count_occ ascii_dec [newline] newline = 1)
      by (vm_compute; reflexivity).
    rewrite Hone. change (rev [newline]) with [newline].
    cbn [app take_while]. change (not_newline newline) with false.
    cbn [List.length]. split; lia.
  - assert (Hfree := span_without_newline _ _ _ Hm Hle Hk).
    rewrite (count_newline_free _ Hfree).
    rewrite take_while_app by (apply Forall_rev; assumption).
    rewrite length_app, length_rev, slice_length, text_length by lia.
    split; lia.
Qed.

Lemma ordered_weaken (toks : list Token) :
  forall from upto upto',
    ordered from toks upto -> upto <= upto' -> ordered from toks upto'.
Proof.
  induction toks as [|t rest IH]; intros from upto upto' H Hle; simpl in *.
  - lia.
  - destruct H as (a & Ha & Hfrom & Hlen & Hrest).
    exists a. repeat split; try assumption. eapply IH; eassumption.
Qed.

Lemma ordered_snoc (toks : list Token) (t : Token) (a : nat) :
  forall from mid,
    ordered from toks mid ->
    tk_index t = Some a -> mid <= a ->
    0 < String.length (tk_value t) ->
    ordered from (toks ++ [t]) (a + String.length (tk_value t)).
Proof.
  induction toks as [|u rest IH]; intros from mid H Ha Hmid Hlen; simpl in *.
  - exists a. repeat split; try assumption; lia.
  - destruct H as (b & Hb & Hfrom & Hlenb & Hrest).
    exists b. repeat split; try assumption. eapply IH; eassumption.
Qed.

Lemma lex_step_tracked (st : LexState) :
  ls_pos st < List.length code ->
  tracked code st -> tracked code (lex_step code st).
Proof.
  intros Hlt (Hle & Hline & Hcol & Hplaced & Hord).
  destruct (master_regex_matches code _ Hlt) as (kind & e & Hm).
  destruct (lex_step_match code st kind e Hm) as (Htok & Hpos & Hl & Hc).
  destruct (position_after_match _ _ _ Hm Hle) as [Hline' Hcol'].
  destruct (master_regex_bounds _ _ _ _ Hm Hle) as [Hpe He].
  unfold tracked. rewrite Htok, Hpos, Hl, Hc, Hline', Hcol', Hline, Hcol.
  repeat split; try lia; try reflexivity.
  - apply Forall_app. split; [assumption|].
    unfold emitted. destruct (emitted_kind kind); constructor; [|constructor].
    exists (ls_pos st). simpl. repeat split; assumption.
  - unfold emitted. destruct (emitted_kind kind).
    + replace e with (ls_pos st + String.length (text code (ls_pos st) e))
        at 2 by (rewrite text_length; lia).
      eapply (ordered_snoc _ (mkToken _ _ _ _ _)); simpl;
        [eassumption | reflexivity | lia | rewrite text_length; lia].
    + rewrite app_nil_r. eapply ordered_weaken; [eassumption | lia].
Qed.

Lemma lex_loop_tracked (fuel : nat) :
  forall st st',
    lex_loop fuel code st = Some st' -> tracked code st -> tracked code st'.
Proof.
  induction fuel as [|fuel IH]; intros st st' H Hst; simpl in H;
    destruct (Nat.ltb_spec (ls_pos st) (List.length code)) as [Hlt|Hge];
    try discriminate; try (injection H as <-; assumption).
  eapply IH; [eassumption|]. apply lex_step_tracked; assumption.
Qed.

Lemma lex_loop_starts (fuel : nat) :
  forall st st',
    lex_loop fuel code st = Some st' ->
    map tk_index (ls_tokens st')
    = (map tk_index (ls_tokens st)
         ++ map Some (token_starts code (lex_spans fuel code st)))%list.
Proof.
  unfold token_starts.
  induction fuel as [|fuel IH]; intros st st' H; simpl in H |- *;
    destruct (Nat.ltb_spec (ls_pos st) (List.length code)) as [Hlt|Hge];
    try discriminate;
    try (injection H as <-; simpl; rewrite app_nil_r; reflexivity).
  rewrite (IH _ _ H).
  destruct (master_regex_matches code _ Hlt) as (kind & e & Hm).
  destruct (lex_step_match code st kind e Hm) as (Htok & _).
  rewrite Htok, map_app, <- app_assoc. f_equal.
  cbn [filter fst]. rewrite Hm. unfold emitted.
  destruct (emitted_kind kind); reflexivity.
Qed.

Lemma ordered_nth (toks : list Token) :
  forall from upto j tj,
    ordered from toks upto ->
    nth_error toks j = Some tj ->
    exists b, tk_index tj = Some b /\ from <= b
              /\ 0 < String.length (tk_value tj)
              /\ b + String.length (tk_value tj) <= upto.
Proof.
  induction toks as [|t rest IH]; intros from upto j tj H Hj;
    [destruct j; discriminate|].
  simpl in H. destruct H as (a & Ha & Hfrom & Hlen & Hrest).
  destruct j as [|j]; simpl in Hj.
  - injection Hj as <-. exists a. repeat split; try assumption.
    clear IH. revert Hrest. generalize (a + String.length (tk_value t)).
    induction rest as [|u rest IH]; intros n Hn; simpl in Hn; [lia|].
    destruct Hn as (b & _ & Hb & Hl & Hr). apply IH in Hr. lia.
  - destruct (IH _ _ _ _ Hrest Hj) as (b & Hb & Hfb & Hl & Hu).
    exists b. repeat split; try assumption. lia.
Qed.

Lemma ordered_pairs (toks : list Token) :
  forall from upto i j ti tj,
    ordered from toks upto ->
    i < j ->
    nth_error toks i = Some ti ->
    nth_error toks j = Some tj ->
    exists a b,
      tk_index ti = Some a /\ tk_index tj = Some b
      /\ a < a + String.length (tk_value ti) <= b
      /\ b + String.length (tk_value tj) <= upto.
Proof.
  induction toks as [|t rest IH]; intros from upto i j ti tj H Hij Hi Hj;
    [destruct i; discriminate|].
  simpl in H. destruct H as (a & Ha & Hfrom & Hlen & Hrest).
  destruct j as [|j]; [lia|]. simpl in Hj.
  destruct i as [|i]; simpl in Hi.
  - injection Hi as <-.
    destruct (ordered_nth _ _ _ _ _ Hrest Hj) as (b & Hb & Hab & _ & Hu).
    exists a, b. repeat split; try assumption; lia.
  - apply (IH _ _ i j ti tj Hrest); [lia | assumption | assumption].
Qed.

End Positions.

Lemma lex_run_tracked (code : string) (st : LexState) :
  lex_run code = Some st -> tracked (list_ascii_of_string code) st.
Proof.
  unfold lex_run. intros H.
  eapply lex_loop_tracked; [eassumption|].
  unfold tracked, lex_init. simpl. repeat split; try lia; constructor.
Qed.

(** X1. The tokens that [lex] returns are in the order of the text and do not
    overlap: of two tokens the earlier one ends, after at least one
    character, at or before the index of the later one, and every token lies
    inside the text.  In particular the indices strictly increase. *)
Theorem lex_tokens_in_text_order
        (code : string) (toks : list Token) (i j : nat) (ti tj : Token) :
  lex code = Some toks ->
  i < j ->
  nth_error toks i = Some ti ->
  nth_error toks j = Some tj ->
  exists a b,
    tk_index ti = Some a /\ tk_index tj = Some b
    /\ a < a + String.length (tk_value ti) <= b
    /\ b + String.length (tk_value tj) <= String.length code.
Proof.
  unfold lex. intros Hlex Hij Hi Hj.
  destruct (lex_run code) as [st|] eqn:Hrun; [|discriminate].
  injection Hlex as <-.
  destruct (lex_run_tracked code st Hrun) as (Hle & _ & _ & _ & Hord).
  destruct (ordered_pairs _ _ _ _ _ _ _ Hord Hij Hi Hj)
    as (a & b & Ha & Hb & Hab & Hu).
  exists a, b. repeat split; try assumption; try lia.
  assert (Hlen : List.length (list_ascii_of_string code)
                 = String.length code).
  { rewrite <- string_length_of_list, string_of_list_ascii_of_string.
    reflexivity. }
  lia.
Qed.

(** The first and the last token of ["ab  <= 7"]. *)
Lemma lex_tokens_in_text_order_witness :
  exists a b,
    Some 0 = Some a /\ Some 7 = Some b
    /\ a < a + 2 <= b /\ b + 1 <= 8.
Proof.
  exact (lex_tokens_in_text_order
           "ab  <= 7" _ 0 2 (mkToken IDENT "ab" 1 1 (Some 0))
           (mkToken NUMBER "7" 1 8 (Some 7))
           eq_refl (le_S _ _ (le_n 1)) eq_refl eq_refl).
Defined.

(** X2. The line and the column of every token that [lex] returns are those
    of its index in the text: the line is one more than the newlines before
    the index, the column one more than the characters between the index and
    the last newline before it (or the start of the text). *)
Theorem lex_lines_and_columns
        (code : string) (toks : list Token) (t : Token) :
  lex code = Some toks ->
  In t toks ->
  exists a,
    tk_index t = Some a
    /\ tk_line t = line_at (list_ascii_of_string code) a
    /\ tk_col t = col_at (list_ascii_of_string code) a.
Proof.
  unfold lex. intros Hlex Hin.
  destruct (lex_run code) as [st|] eqn:Hrun; [|discriminate].
  injection Hlex as <-.
  destruct (lex_run_tracked code st Hrun) as (_ & _ & _ & Hplaced & _).
  rewrite Forall_forall in Hplaced. apply Hplaced. assumption.
Qed.

(** The [y] on the second line of a text of two lines. *)
Lemma lex_lines_and_columns_witness :
  exists a,
    Some 10 = Some a
    /\ 2%Z = line_at (list_ascii_of_string "x := 1
   y := 2") a
    /\ 4%Z = col_at (list_ascii_of_string "x := 1
   y := 2") a.
Proof.
  apply (lex_lines_and_columns "x := 1
   y := 2" _ (mkToken IDENT "y" 2 4 (Some 10)) eq_refl).
  do 3 right. left. reflexivity.
Defined.

(** X3. [lex] returns exactly one token for each turn of its loop that
    matched something other than a comment, a newline or blanks, in the
    order of the turns and with the start of the match as its index; the
    other turns leave no token. *)
Theorem lex_tokens_are_the_unskipped_matches
        (code : string) (toks : list Token) :
  lex code = Some toks ->
  map tk_index toks
  = map Some (token_starts (list_ascii_of_string code) (spans_of code)).
Proof.
  unfold lex, lex_run, spans_of. intros Hlex.
  destruct (lex_loop _ _ lex_init) as [st|] eqn:Hrun; [|discriminate].
  injection Hlex as <-.
  rewrite (lex_loop_starts _ _ _ _ Hrun). reflexivity.
Qed.

(** A comment line before an assignment. *)
Lemma lex_tokens_are_the_unskipped_matches_witness :
  [Some 5; Some 7; Some 10]
  = map Some (token_starts (list_ascii_of_string "// c
x := 1") (spans_of "// c
x := 1")).
Proof.
  exact (lex_tokens_are_the_unskipped_matches
           "// c
x := 1" [mkToken IDENT "x" 2 1 (Some 5); mkToken ASSIGN ":=" 2 3 (Some 7);
         mkToken NUMBER "1" 2 6 (Some 10)] eq_refl).
Defined.

(* ================================================================= *)
(** ** Symbols of two characters and comments *)

Lemma two_char_symbol_match (code : list ascii) (pos : nat) (s : string)
      (kind : TokenKind) :
  In (s, kind) two_char_symbols ->
  starts_with code pos s = true ->
  master_regex code pos = Some (kind, pos + 2).
Proof.
  intros Hin Hsw. simpl in Hin.
  repeat (destruct Hin as [Hin|Hin]; [injection Hin as <- <-|]);
    try contradiction; chars_of Hsw.
  all: unfold master_regex, TOKEN_SPECS; cbn [first_match];
    unfold match_end, Many1; cbn [run Word]; rewrite Hc, Hc0; simpl;
    rewrite Nat.add_comm; reflexivity.
Qed.

(** X5. At a position of the scan where the text has one of [->], [:=],
    [==], [<=], [>=], [!=], one turn of the loop takes both characters as one
    token (ARROW, ASSIGN or OP): the first character is not taken alone as
    the operator [-], [<], [>] or as an unknown character. *)
Theorem two_char_symbols_are_one_token
        (chars : list ascii) (st : LexState) (s : string) (kind : TokenKind) :
  In (s, kind) two_char_symbols ->
  starts_with chars (ls_pos st) s = true ->
  lex_step chars st
  = mkLex (ls_tokens st
             ++ [mkToken kind s (ls_line st) (ls_col st) (Some (ls_pos st))])
          (ls_line st) (ls_col st + 2) (ls_pos st + 2).
Proof.
  intros Hin Hsw.
  assert (Hm := two_char_symbol_match chars _ s kind Hin Hsw).
  assert (Hlen : String.length s = 2).
  { simpl in Hin.
    repeat (destruct Hin as [Hin|Hin]; [injection Hin as <- <-|]);
      try contradiction; reflexivity. }
  assert (Hle : ls_pos st <= List.length chars).
  { destruct (nth_error chars (ls_pos st)) as [c|] eqn:Hc;
      [apply Nat.lt_le_incl; eapply nth_error_in_range; eassumption|].
    destruct s as [|c s']; [discriminate Hlen|].
    simpl in Hsw. rewrite Hc in Hsw. discriminate. }
  destruct (starts_with_text chars s _ Hsw Hle) as [Htxt _].
  rewrite Hlen in Htxt.
  assert (Hkind : emitted_kind kind = Some kind).
  { simpl in Hin.
    repeat (destruct Hin as [Hin|Hin]; [injection Hin as <- <-|]);
      try contradiction; reflexivity. }
  destruct st as [tokens line col pos]. simpl in *.
  rewrite Hm, Htxt, Hlen.
  simpl in Hin.
  repeat (destruct Hin as [Hin|Hin]; [injection Hin as <- <-|]);
    try contradiction; reflexivity.
Qed.

(** The arrow of ["->x"]. *)
Lemma two_char_symbols_are_one_token_witness :
  lex_step (list_ascii_of_string "->x") lex_init
  = mkLex [mkToken ARROW "->" 1 1 (Some 0)] 1 3 2.
Proof.
  exact (two_char_symbols_are_one_token
           (list_ascii_of_string "->x") lex_init "->" ARROW
           (or_introl eq_refl) eq_refl).
Defined.

Lemma take_while_stops (p : ascii -> bool) (l : list ascii) :
  nth_error l (List.length (take_while p l)) = None
  \/ exists c, nth_error l (List.length (take_while p l)) = Some c
               /\ p c = false.
Proof.
  induction l as [|c l IH]; simpl; [left; reflexivity|].
  destruct (p c) eqn:Hp; simpl; [assumption|].
  right. exists c. split; [reflexivity | assumption].
Qed.

(** X6. A comment runs to the end of its line and leaves no token.  At a
    position of the scan where the text has [//], one turn of the loop
    appends nothing, keeps the line, and moves the position and the column
    over all the characters up to the next newline, which it does not pass,
    or to the end of the text. *)
Theorem comment_runs_to_end_of_line (chars : list ascii) (st : LexState) :
  starts_with chars (ls_pos st) "//" = true ->
  let stop :=
    ls_pos st + 2
    + List.length (take_while not_newline (skipn (ls_pos st + 2) chars)) in
  lex_step chars st
  = mkLex (ls_tokens st) (ls_line st)
          (ls_col st + Z.of_nat (stop - ls_pos st)) stop
  /\ (nth_error chars stop = Some newline \/ stop = List.length chars).
Proof.
  intros Hsw stop.
  assert (Hsw' := Hsw). chars_of Hsw'.
  assert (Hlt := nth_error_in_range _ _ _ Hc0).
  assert (Hm : master_regex chars (ls_pos st) = Some (COMMENT, stop)).
  { unfold master_regex, TOKEN_SPECS. cbn [first_match].
    unfold match_end. cbn [run]. rewrite Hc, Hc0. simpl.
    rewrite many_greedy by lia. unfold stop.
    replace (ls_pos st + 2) with (S (S (ls_pos st))) by lia. reflexivity. }
  destruct (master_regex_bounds _ _ _ _ Hm) as [Hps Hsl]; [lia|].
  split.
  - destruct st as [tokens line col pos]. simpl in *.
    rewrite Hm. rewrite text_length by lia. reflexivity.
  - destruct (take_while_stops not_newline (skipn (ls_pos st + 2) chars))
      as [Hnone | (c & Hsome & Hnl)].
    + right. rewrite nth_error_skipn in Hnone. fold stop in Hnone.
      apply nth_error_None in Hnone. lia.
    + left. rewrite nth_error_skipn in Hsome. fold stop in Hsome.
      rewrite Hsome. f_equal. unfold not_newline in Hnl.
      apply negb_false_iff, Ascii.eqb_eq in Hnl. assumption.
Qed.

(** A comment before a line end. *)
Lemma comment_runs_to_end_of_line_witness :
  lex_step (list_ascii_of_string "// if
x") lex_init = mkLex [] 1 6 5
  /\ (nth_error (list_ascii_of_string "// if
x") 5 = Some newline \/ 5 = 7).
Proof.
  exact (comment_runs_to_end_of_line (list_ascii_of_string "// if
x") lex_init eq_refl).
Defined.

(* ================================================================= *)
(** ** The parse always ends *)

(** X7. Parsing terminates: for every token list [parse_tokens] ends, with a
    program or with an exception, and so does the scan followed by the parse
    for every source text.  (The parser recurses on fuel; the fuel
    [parse_tokens] gives is never used up.) *)
Theorem parse_always_ends :
  (forall tokens, exists o, parse_tokens tokens = Some o)
  /\ (forall code, exists o, parse_source code = Some o).
Proof.
  assert (H : forall tokens, exists o, parse_tokens tokens = Some o).
  { intros tokens. destruct (parse_program_total tokens) as (o & Ho & _).
    exists o. assumption. }
  split; [assumption|].
  intros code. unfold parse_source, lex, lex_run.
  destruct (lex_loop_terminates (list_ascii_of_string code)
              (List.length (list_ascii_of_string code)) lex_init)
    as (st & Hrun & _); [simpl; lia | simpl; lia |].
  rewrite Hrun. simpl. apply H.
Qed.

(** X11. A token list that starts with a token at which a statement list
    ends (a number, a parenthesis, an operator, [fi], ...), or that is
    empty, parses without error to the program with no statement: the whole
    input is ignored. *)
Theorem input_without_statement_start_is_empty_program
        (tokens : list Token) :
  lex_errors tokens = [] ->
  ends_stmt_list (hd EOF_token tokens) = true ->
  parse_tokens tokens = Some (Return (Program [])).
Proof.
  intros Hnoerr Hends. unfold parse_tokens, parse_tokens_run.
  rewrite Hnoerr. unfold parse_program, parse_stmt_list, fuel_for.
  replace (2 * List.length tokens + 8) with (S (2 * List.length tokens + 7))
    by lia.
  assert (Hfirst : ends_stmt_list (token_at (tokens ++ [EOF_token]) 0)
                   = true)
    by (unfold token_at; destruct tokens; assumption).
  rewrite (bind_Return _ _ _ _ _
             (stmt_list_loop_ends _ _ [] 0 Hfirst)).
  reflexivity.
Qed.

(** The tokens of ["42 x := 1"]. *)
Lemma input_without_statement_start_is_empty_program_witness :
  parse_tokens [mkToken NUMBER "42" 1 1 (Some 0);
                mkToken IDENT "x" 1 4 (Some 3);
                mkToken ASSIGN ":=" 1 6 (Some 5);
                mkToken NUMBER "1" 1 9 (Some 8)]
  = Some (Return (Program [])).
Proof.
  exact (input_without_statement_start_is_empty_program
           [mkToken NUMBER "42" 1 1 (Some 0);
            mkToken IDENT "x" 1 4 (Some 3);
            mkToken ASSIGN ":=" 1 6 (Some 5);
            mkToken NUMBER "1" 1 9 (Some 8)] eq_refl eq_refl).
Defined.

(* ================================================================= *)
(** ** Where the parser stops, and what it reports and builds *)

Section Sound.

Variable tokens : list Token.

(** A position with an end-of-input token: the parser does not pass it. *)
Variable B : nat.
Hypothesis HB : tk_type (token_at tokens B) = EOF.

Lemma ensures_bind {A C} (m : M A) (f : A -> M C) (pos : nat)
      (Q1 : A -> nat -> Prop) (Q : C -> nat -> Prop)
      (E : exn -> nat -> Prop) :
  ensures m pos Q1 E ->
  (forall a p, Q1 a p -> ensures (f a) p Q E) ->
  ensures (bind m f) pos Q E.
Proof.
  intros Hm Hf o p' H. unfold bind in H.
  destruct (m pos) as [[[a|e] p1]|] eqn:Hrun; [| |discriminate].
  - apply (Hf a p1 (Hm _ _ Hrun) o p' H).
  - injection H as <- <-. apply (Hm _ _ Hrun).
Qed.

Lemma ensures_ret {A} (a : A) (pos : nat) (Q : A -> nat -> Prop)
      (E : exn -> nat -> Prop) :
  Q a pos -> ensures (ret a) pos Q E.
Proof. intros H o p' [= <- <-]. exact H. Qed.

Lemma ensures_raise {A} (e : exn) (pos : nat) (Q : A -> nat -> Prop)
      (E : exn -> nat -> Prop) :
  E e pos -> ensures (@raise A e) pos Q E.
Proof. intros H o p' [= <- <-]. exact H. Qed.

Lemma ensures_out_of_fuel {A} (pos : nat) (Q : A -> nat -> Prop)
      (E : exn -> nat -> Prop) :
  ensures (@out_of_fuel A) pos Q E.
Proof. intros o p' H. discriminate H. Qed.

Lemma ensures_peek (pos : nat) (E : exn -> nat -> Prop) :
  ensures (peek tokens) pos
          (fun t p => t = token_at tokens pos /\ p = pos) E.
Proof. intros o p' [= <- <-]. split; reflexivity. Qed.

Lemma ensures_weaken {A} (m : M A) (pos : nat) (Q Q' : A -> nat -> Prop)
      (E : exn -> nat -> Prop) :
  ensures m pos Q E -> (forall a p, Q a p -> Q' a p) -> ensures m pos Q' E.
Proof.
  intros Hm H o p' Hrun. specialize (Hm o p' Hrun).
  destruct o; [apply H|]; assumption.
Qed.

Lemma ensures_consume (k : TokenKind) (v : option string) (pos : nat) :
  pos <= B -> k <> EOF ->
  ensures (consume tokens (Some k) v) pos
          (fun t p => t = token_at tokens pos /\ p = pos + 1 /\ p <= B)
          (error_at tokens B).
Proof.
  intros Hle Hk o p' H. unfold consume in H. rewrite bind_peek in H.
  unfold bind, ret, raise in H.
  destruct (kind_eqb (tk_type (token_at tokens pos)) k) eqn:Hty;
    cbn [negb] in H.
  - assert (Hlt : pos < B).
    { apply kind_eqb_eq in Hty.
      destruct (Nat.eq_dec pos B) as [->|]; [congruence | lia]. }
    destruct v as [v|].
    + destruct (negb (String.eqb v "")
                && negb (String.eqb (tk_value (token_at tokens pos)) v));
        injection H as <- <-.
      * split; [lia|]. intros msg tok [= _ <-]. reflexivity.
      * repeat split; lia.
    + injection H as <- <-. repeat split; lia.
  - injection H as <- <-.
    split; [lia|]. intros msg tok [= _ <-]. reflexivity.
Qed.

End Sound.

Ltac error_here :=
  split; [lia | intros ? ? Heq; inversion Heq; reflexivity].

Ltac step_ensures :=
  lazymatch goal with
  | |- ensures (bind (peek _) _) _ _ _ =>
      eapply ensures_bind; [apply ensures_peek | intros ? ? [-> ->] ]
  | |- ensures (bind (consume _ (Some _) _) _) _ _ _ =>
      eapply ensures_bind;
      [eapply ensures_consume; [eassumption | lia | discriminate]
      | intros ? ? (-> & -> & ?) ]
  | |- ensures (ret _) _ _ _ => apply ensures_ret
  | |- ensures (raise _) _ _ _ => apply ensures_raise; error_here
  | |- ensures out_of_fuel _ _ _ => apply ensures_out_of_fuel
  | |- ensures (if ?c then _ else _) _ _ _ =>
      let H := fresh "Hc" in destruct c eqn:H
  | |- ensures (match ?c with Some _ => _ | None => _ end) _ _ _ =>
      destruct c
  end.

Section SoundMethods.

Variable tokens : list Token.
Variable B : nat.
Hypothesis HB : tk_type (token_at tokens B) = EOF.

Lemma binary_loop_sound (ops : list string) (operand : M expr) :
  (forall op, in_values op ops = true -> in_values op operators = true) ->
  operand_sound tokens B operand ->
  forall n left pos,
    pos <= B -> known_ops_expr left = true ->
    ensures (binary_loop tokens n ops operand left) pos
            (moved B known_ops_expr pos) (error_at tokens B).
Proof.
  intros Hops Hop. induction n as [|n IH]; intros left pos Hle Hleft;
    [apply ensures_out_of_fuel|].
  rewrite binary_loop_S. step_ensures.
  step_ensures; [|step_ensures; split; [lia | assumption]].
  apply andb_true_iff in Hc. destruct Hc as [_ Hin].
  step_ensures.
  eapply ensures_bind; [apply Hop; assumption|].
  intros right p1 [Hp1 Hright].
  eapply ensures_weaken.
  - apply IH; [lia|]. cbn [known_ops_expr].
    rewrite (Hops _ Hin), Hleft, Hright. reflexivity.
  - intros e p' [Hp' He]. split; [lia | assumption].
Qed.

Lemma binary_tier_sound (ops : list string) (operand : M expr) (n : nat) :
  (forall op, in_values op ops = true -> in_values op operators = true) ->
  operand_sound tokens B operand ->
  operand_sound tokens B (binary_tier tokens n ops operand).
Proof.
  intros Hops Hop pos Hle. unfold binary_tier.
  eapply ensures_bind; [apply Hop; assumption|].
  intros left p1 [Hp1 Hleft].
  eapply ensures_weaken;
    [apply binary_loop_sound; try assumption; lia|].
  intros e p' [Hp' He]. split; [lia | assumption].
Qed.

Lemma tier_operators (ops : list string) :
  forallb (fun op => in_values op operators) ops = true ->
  forall op, in_values op ops = true -> in_values op operators = true.
Proof.
  intros Hall op Hin. unfold in_values in Hin.
  apply existsb_exists in Hin. destruct Hin as (x & Hx & Heq).
  apply String.eqb_eq in Heq. subst x.
  rewrite forallb_forall in Hall. apply Hall. assumption.
Qed.

Lemma parse_expr_with_sound (factor : M expr) (n : nat) :
  operand_sound tokens B factor ->
  operand_sound tokens B (parse_expr_with tokens factor n).
Proof.
  intros Hf.
  unfold parse_expr_with, parse_equality_with, parse_relational_with,
    parse_additive_with, parse_term_with.
  repeat (apply binary_tier_sound;
          [apply tier_operators; reflexivity|]).
  assumption.
Qed.

Lemma parse_factor_sound (fuel : nat) :
  operand_sound tokens B (parse_factor tokens fuel).
Proof.
  induction fuel as [|fuel IH]; intros pos Hle;
    [apply ensures_out_of_fuel|].
  rewrite parse_factor_S. step_ensures.
  step_ensures; [|step_ensures; [|step_ensures]].
  - step_ensures. step_ensures; step_ensures.
    split; [lia | reflexivity].
  - step_ensures. step_ensures. split; [lia | reflexivity].
  - step_ensures.
    eapply ensures_bind;
      [apply (parse_expr_with_sound _ fuel IH); assumption|].
    intros e p1 [Hp1 He]. step_ensures.
    assert (Hp1' : p1 <= B) by lia.
    step_ensures; [step_ensures|].
    step_ensures. step_ensures. split; [lia | assumption].
  - step_ensures.
Qed.

Lemma parse_expr_sound (fuel : nat) :
  operand_sound tokens B (parse_expr tokens fuel).
Proof.
  apply parse_expr_with_sound. apply parse_factor_sound.
Qed.

Lemma parse_assignment_sound (fuel pos : nat) :
  pos <= B ->
  ensures (parse_assignment tokens fuel) pos
          (moved B known_ops_stmt pos) (error_at tokens B).
Proof.
  intros Hle. unfold parse_assignment.
  eapply ensures_bind;
    [eapply ensures_consume; [eassumption | lia | discriminate]|].
  intros ident p (-> & -> & Hp). step_ensures.
  eapply ensures_bind with (Q1 := fun _ p => pos + 1 <= p <= B).
  { step_ensures; [|step_ensures].
    step_ensures. step_ensures. lia. }
  intros ? p1 Hp1.
  eapply ensures_bind; [apply parse_expr_sound; lia|].
  intros e p2 [Hp2 He]. step_ensures. split; [lia | assumption].
Qed.

Lemma stmt_methods_sound (fuel : nat) :
  (forall stmts pos,
      pos <= B -> forallb known_ops_stmt stmts = true ->
      ensures (parse_stmt_list_loop tokens fuel stmts) pos
              (moved B (forallb known_ops_stmt) pos) (error_at tokens B))
  /\ (forall pos,
         pos <= B ->
         ensures (parse_stmt tokens fuel) pos
                 (moved B known_ops_stmt pos) (error_at tokens B))
  /\ (forall pos,
         pos <= B ->
         ensures (parse_if tokens fuel) pos
                 (moved B known_ops_stmt pos) (error_at tokens B))
  /\ (forall pos,
         pos <= B ->
         ensures (parse_do tokens fuel) pos
                 (moved B known_ops_stmt pos) (error_at tokens B))
  /\ (forall pos,
         pos <= B ->
         ensures (parse_guard_list tokens fuel) pos
                 (moved B (forallb known_ops_guard) pos) (error_at tokens B))
  /\ (forall guards pos,
         pos <= B -> forallb known_ops_guard guards = true ->
         ensures (parse_guard_list_loop tokens fuel guards) pos
                 (moved B (forallb known_ops_guard) pos) (error_at tokens B))
  /\ (forall pos,
         pos <= B ->
         ensures (parse_guard tokens fuel) pos
                 (moved B known_ops_guard pos) (error_at tokens B)).
Proof.
  induction fuel as [|fuel IH];
    [repeat apply conj; intros; apply ensures_out_of_fuel|].
  destruct IH as (IHsl & IHstmt & IHif & IHdo & IHgl & IHgll & IHg).
  repeat apply conj.
  - (* parse_stmt_list *)
    intros stmts pos Hle Hstmts. rewrite parse_stmt_list_loop_S.
    step_ensures.
    step_ensures; [step_ensures; split; [lia | assumption]|].
    step_ensures; [step_ensures; split; [lia | assumption]|].
    step_ensures; [step_ensures; split; [lia | assumption]|].
    eapply ensures_bind; [apply IHstmt; assumption|].
    intros s p1 [Hp1 Hs]. step_ensures.
    assert (Hp1' : p1 <= B) by lia.
    eapply ensures_bind with (Q1 := fun _ p => p1 <= p <= B).
    { step_ensures; [|step_ensures; lia].
      step_ensures. step_ensures. lia. }
    intros ? p2 Hp2.
    eapply ensures_weaken.
    + apply IHsl; [lia|]. rewrite forallb_app, Hstmts. simpl.
      rewrite Hs. reflexivity.
    + intros r p' [Hp' Hr]. split; [lia | assumption].
  - (* parse_stmt *)
    intros pos Hle. rewrite parse_stmt_S. step_ensures.
    step_ensures; [apply IHif; assumption|].
    step_ensures; [apply IHdo; assumption|].
    step_ensures; [apply parse_assignment_sound; assumption|].
    step_ensures.
  - (* parse_if *)
    intros pos Hle. rewrite parse_if_S. step_ensures.
    eapply ensures_bind; [apply IHgl; lia|].
    intros guards p1 [Hp1 Hg]. step_ensures.
    assert (Hp1' : p1 <= B) by lia.
    step_ensures; [|step_ensures].
    step_ensures. step_ensures. split; [lia | assumption].
  - (* parse_do *)
    intros pos Hle. rewrite parse_do_S. step_ensures.
    eapply ensures_bind; [apply IHgl; lia|].
    intros guards p1 [Hp1 Hg]. step_ensures.
    assert (Hp1' : p1 <= B) by lia.
    step_ensures; [|step_ensures].
    step_ensures. step_ensures. split; [lia | assumption].
  - (* parse_guard_list *)
    intros pos Hle. rewrite parse_guard_list_S.
    eapply ensures_bind; [apply IHg; assumption|].
    intros g p1 [Hp1 Hg].
    eapply ensures_weaken.
    + apply IHgll; [lia|]. simpl. rewrite Hg. reflexivity.
    + intros r p' [Hp' Hr]. split; [lia | assumption].
  - (* parse_guard_list_loop *)
    intros guards pos Hle Hguards. rewrite parse_guard_list_loop_S.
    step_ensures.
    step_ensures; [|step_ensures; split; [lia | assumption]].
    step_ensures.
    eapply ensures_bind; [apply IHg; lia|].
    intros g p1 [Hp1 Hg].
    eapply ensures_weaken.
    + apply IHgll; [lia|]. rewrite forallb_app, Hguards. simpl.
      rewrite Hg. reflexivity.
    + intros r p' [Hp' Hr]. split; [lia | assumption].
  - (* parse_guard *)
    intros pos Hle. rewrite parse_guard_S.
    eapply ensures_bind; [apply parse_expr_sound; assumption|].
    intros cond p1 [Hp1 Hcond]. step_ensures.
    assert (Hp1' : p1 <= B) by lia.
    eapply ensures_bind with (Q1 := fun _ p => p1 <= p <= B).
    { step_ensures; [|step_ensures].
      step_ensures. step_ensures. lia. }
    intros ? p2 Hp2.
    eapply ensures_bind; [apply IHsl; [lia | reflexivity]|].
    intros body p3 [Hp3 Hbody]. step_ensures.
    split; [lia|]. simpl. rewrite Hcond, Hbody. reflexivity.
Qed.

Lemma parse_program_sound (fuel : nat) :
  ensures (parse_program tokens fuel) 0
          (moved B known_ops_program 0) (error_at tokens B).
Proof.
  unfold parse_program, parse_stmt_list.
  destruct (stmt_methods_sound fuel) as (Hsl & _).
  eapply ensures_bind; [apply Hsl; [lia | reflexivity]|].
  intros body p [Hp Hbody]. step_ensures. split; assumption.
Qed.

End SoundMethods.

Lemma token_at_with_sentinel (tokens : list Token) (pos : nat) :
  pos <= List.length tokens ->
  token_at (tokens ++ [EOF_token]) pos = nth pos tokens EOF_token.
Proof.
  intros Hle. unfold token_at.
  destruct (Nat.eq_dec pos (List.length tokens)) as [->|Hne].
  - rewrite app_nth2 by lia. rewrite Nat.sub_diag.
    rewrite (nth_overflow tokens) by lia. reflexivity.
  - apply app_nth1. lia.
Qed.

Lemma parse_tokens_run_sound (tokens : list Token) (fuel B : nat) :
  B <= List.length tokens ->
  tk_type (nth B tokens EOF_token) = EOF ->
  lex_errors tokens = [] ->
  ensures (fun pos => parse_tokens_run fuel tokens) 0
          (moved B known_ops_program 0)
          (error_at (tokens ++ [EOF_token]) B).
Proof.
  intros HB Heof Hnoerr o p' H. unfold parse_tokens_run in H.
  rewrite Hnoerr in H.
  apply (parse_program_sound (tokens ++ [EOF_token]) B) in H; [assumption|].
  rewrite token_at_with_sentinel; assumption.
Qed.

(** X8. When the parser raises a [ParseError] on a token list without ERROR
    tokens, whatever the fuel, the token of the error is the token at which
    the parser stopped: the first token it did not consume, or the
    end-of-input sentinel when it consumed them all. *)
Theorem parse_error_names_next_token
        (tokens : list Token) (fuel : nat) (msg : string)
        (tok : option Token) (stop : nat) :
  lex_errors tokens = [] ->
  parse_tokens_run fuel tokens = Some (Raise (ParseError msg tok), stop) ->
  stop <= List.length tokens /\ tok = Some (nth stop tokens EOF_token).
Proof.
  intros Hnoerr H.
  assert (Hs := parse_tokens_run_sound tokens fuel (List.length tokens)
                  (Nat.le_refl _)
                  ltac:(rewrite nth_overflow by lia; reflexivity)
                  Hnoerr _ _ H).
  destruct Hs as [Hstop Htok]. split; [assumption|].
  rewrite <- token_at_with_sentinel by assumption.
  apply (Htok msg tok eq_refl).
Qed.

(** The tokens of ["x := ("]: the error is at the sentinel. *)
Lemma parse_error_names_next_token_witness :
  3 <= 3
  /\ Some EOF_token
     = Some (nth 3 [mkToken IDENT "x" 1 1 (Some 0);
                    mkToken ASSIGN ":=" 1 3 (Some 2);
                    mkToken LPAREN "(" 1 6 (Some 5)] EOF_token).
Proof.
  exact (parse_error_names_next_token
           [mkToken IDENT "x" 1 1 (Some 0); mkToken ASSIGN ":=" 1 3 (Some 2);
            mkToken LPAREN "(" 1 6 (Some 5)]
           20 "Unexpected token in factor" (Some EOF_token) 3
           eq_refl eq_refl).
Defined.

(** X9. Every operator in a program that the parser returns, whatever the
    token list and the fuel, is one of [==], [!=], [<], [>], [<=], [>=],
    [+], [-], [*], [/]: an OP token with another text is never made a
    node. *)
Theorem ast_operators_are_known
        (tokens : list Token) (fuel : nat) (prog : program) (stop : nat) :
  parse_tokens_run fuel tokens = Some (Return prog, stop) ->
  known_ops_program prog = true.
Proof.
  intros H.
  destruct (lex_errors tokens) as [|first rest] eqn:Hnoerr.
  - assert (Hs := parse_tokens_run_sound tokens fuel (List.length tokens)
                    (Nat.le_refl _)
                    ltac:(rewrite nth_overflow by lia; reflexivity)
                    Hnoerr _ _ H).
    apply Hs.
  - unfold parse_tokens_run in H. rewrite Hnoerr in H. discriminate.
Qed.

(** The tokens [a % b]: the unknown operator ends the statement. *)
Lemma ast_operators_are_known_witness :
  known_ops_program (Program [Assign "x" (Ident "a")]) = true.
Proof.
  exact (ast_operators_are_known
           [mkToken IDENT "x" 1 1 (Some 0); mkToken ASSIGN ":=" 1 3 (Some 2);
            mkToken IDENT "a" 1 6 (Some 5); mkToken OP "%" 1 8 (Some 7);
            mkToken IDENT "b" 1 10 (Some 9)]
           20 (Program [Assign "x" (Ident "a")]) 3 eq_refl).
Defined.

(** X10. The parser never consumes an end-of-input token: whatever the fuel
    and the outcome, it stops at or before every position of the token list
    that holds a token of type EOF, and so never after the last token. *)
Theorem parser_stops_at_end_of_input
        (tokens : list Token) (fuel B : nat) (o : outcome program)
        (stop : nat) :
  B <= List.length tokens ->
  tk_type (nth B tokens EOF_token) = EOF ->
  parse_tokens_run fuel tokens = Some (o, stop) ->
  stop <= B.
Proof.
  intros HB Heof H.
  destruct (lex_errors tokens) as [|first rest] eqn:Hnoerr.
  - assert (Hs := parse_tokens_run_sound tokens fuel B HB Heof Hnoerr _ _ H).
    destruct o; [destruct Hs as [Hs _]; lia | apply Hs].
  - unfold parse_tokens_run in H. rewrite Hnoerr in H.
    injection H as <- <-. lia.
Qed.

(** An end-of-input token between two assignments. *)
Lemma parser_stops_at_end_of_input_witness : 3 <= 3.
Proof.
  exact (parser_stops_at_end_of_input
           [mkToken IDENT "x" 1 1 (Some 0); mkToken ASSIGN ":=" 1 3 (Some 2);
            mkToken NUMBER "1" 1 6 (Some 5); EOF_token;
            mkToken IDENT "y" 2 1 (Some 7); mkToken ASSIGN ":=" 2 3 (Some 9);
            mkToken NUMBER "2" 2 6 (Some 12)]
           30 3 (Return (Program [Assign "x" (Number 1)])) 3
           ltac:(simpl; lia) eq_refl eq_refl).
Defined.
